(** * probability_space.h : a finite discrete probability space

    A shallow embedding of the class template [ProbabilitySpace<T>] of
    [probability_space.h].

    - [double] is IEEE-754 binary64: the primitive [float] of the Standard
      Library, whose operations are the ones the hardware performs
      (round to nearest, ties to even).
    - [std::set<T>] is the list of its elements in iteration (ascending)
      order, [std::map<T,double>] the list of its entries in ascending key
      order.
    - A thrown [std::invalid_argument] is a result: methods run in a small
      state-and-exception monad over the object's three data members. *)

From Stdlib Require Import ZArith List Bool String Floats Lia.
From Stdlib Require OrderedTypeEx.
Import ListNotations.
Set Implicit Arguments.

(** ** The outcome type [T]

    [std::set<T>] and [std::map<T,double>] order their keys with
    [operator<], which is required to be a strict order; the space is meant
    for outcome types on which it is total. *)

Class Ordered (T : Type) : Type := {
  ltb : T -> T -> bool;
  ltb_irrefl : forall a, ltb a a = false;
  ltb_trans : forall a b c, ltb a b = true -> ltb b c = true -> ltb a c = true;
  ltb_total : forall a b, ltb a b = false -> ltb b a = false -> a = b
}.

#[export] Program Instance Ordered_Z : Ordered Z := {| ltb := Z.ltb |}.
Next Obligation. apply Z.ltb_irrefl. Qed.
Next Obligation.
  rewrite Z.ltb_lt in *. lia.
Qed.
Next Obligation.
  rewrite Z.ltb_ge in *. lia.
Qed.

(** ** Exceptions *)

(** Every failure of the class is a [std::invalid_argument]; [what] is the
    message it carries. *)
Inductive exn : Type :=
| invalid_argument (what : string).

Definition what (e : exn) : string :=
  match e with invalid_argument w => w end.

Inductive outcome (A : Type) : Type :=
| Return (a : A)
| Throw (e : exn).

Arguments Return {A} a.
Arguments Throw {A} e.

Definition msg_unknown_outcome : string :=
  "Event contains outcome not in sample space".

Definition msg_negative : string :=
  "Probabilities must be nonnegative".

Definition msg_sum : string :=
  "Probabilities must sum to 1".

Definition msg_condition_zero : string :=
  "Tried to calculate conditional probability P(A|B) with B s.t. P(B)=0".

(** The error kinds of the specification, and the kind a caller reads off
    an exception: the exception type is the same for all of them, the
    message is what tells them apart. *)
Inductive reason : Type := NegativeMass | SumMismatch.

Inductive error_kind : Type :=
| InvalidDistribution (r : reason)
| UnknownOutcome
| ConditionOnZero.

Definition kind_of (e : exn) : option error_kind :=
  let w := what e in
  if String.eqb w msg_negative then Some (InvalidDistribution NegativeMass)
  else if String.eqb w msg_sum then Some (InvalidDistribution SumMismatch)
  else if String.eqb w msg_unknown_outcome then Some UnknownOutcome
  else if String.eqb w msg_condition_zero then Some ConditionOnZero
  else None.

(** ** Doubles *)

Open Scope float_scope.

(** [constexpr double EPSILON = 1e-9]: the literal denotes the double
    nearest to 10^-9. *)
Definition EPSILON : float := 0x1.12e0be826d695p-30.

(** [a != b] on doubles. *)
Definition fneb (a b : float) : bool := negb (a =? b).

(** ** Ordered containers *)

Section Containers.
Context {T : Type} `{Ordered T}.

Definition set_t : Type := list T.

Definition map_t : Type := list (T * float).

(** Two keys are equivalent when neither is less than the other. *)
Definition equiv (a b : T) : bool := negb (ltb a b) && negb (ltb b a).

(** The class invariant of [std::set]: strictly ascending elements. *)
Fixpoint sorted (l : list T) : bool :=
  match l with
  | [] => true
  | x :: l' =>
      match l' with
      | [] => true
      | y :: _ => ltb x y && sorted l'
      end
  end.

Definition set_wf (s : set_t) : Prop := sorted s = true.

Definition map_wf (m : map_t) : Prop := sorted (map fst m) = true.

(** [std::set::insert]: the element goes to its place in the order,
    unless an equivalent one is there already. *)
Fixpoint set_insert (x : T) (s : set_t) : set_t :=
  match s with
  | [] => [x]
  | y :: s' =>
      if ltb x y then x :: s
      else if ltb y x then y :: set_insert x s'
      else s
  end.

(** Writing a range through [std::inserter(result, hint)]: the elements
    are inserted one after the other. *)
Definition inserter (out : list T) (result : set_t) : set_t :=
  fold_left (fun s x => set_insert x s) out result.

(** [std::map::find]: the mapped value of the entry with an equivalent
    key, [None] for [end()]. *)
Fixpoint find (m : map_t) (k : T) : option float :=
  match m with
  | [] => None
  | (k', v) :: m' => if equiv k' k then Some v else find m' k
  end.

(** [std::includes(first1, last1, first2, last2)]. *)
Fixpoint includes (l1 l2 : list T) {struct l1} : bool :=
  match l2 with
  | [] => true
  | y :: l2' =>
      match l1 with
      | [] => false
      | x :: l1' =>
          if ltb y x then false
          else if ltb x y then includes l1' l2
          else includes l1' l2'
      end
  end.

(** [std::set_union]: the merge of two sorted ranges, an element present
    in both copied once, from the first range. *)
Fixpoint set_union (l1 : list T) : list T -> list T :=
  fix merge (l2 : list T) : list T :=
    match l1, l2 with
    | [], _ => l2
    | _, [] => l1
    | x :: l1', y :: l2' =>
        if ltb y x then y :: merge l2'
        else if ltb x y then x :: set_union l1' l2
        else x :: set_union l1' l2'
    end.

(** [std::set_intersection]: the elements found in both sorted ranges,
    copied from the first. *)
Fixpoint set_intersection (l1 : list T) : list T -> list T :=
  fix scan (l2 : list T) : list T :=
    match l1, l2 with
    | [], _ => []
    | _, [] => []
    | x :: l1', y :: l2' =>
        if ltb x y then set_intersection l1' l2
        else if ltb y x then scan l2'
        else x :: set_intersection l1' l2'
    end.

End Containers.

Arguments set_t T : clear implicits.
Arguments map_t T : clear implicits.

(** ** The class *)

Section ProbabilitySpace.
Context {T : Type} `{Ordered T}.

(** The data members. *)
Record ProbabilitySpace : Type := {
  space : map_t T;
  events : set_t T;
  ignoreUnknown : bool
}.

(** A method body: it runs on the object and ends by returning or by
    throwing; the object is there afterwards in both cases. *)
Definition method (A : Type) : Type :=
  ProbabilitySpace -> outcome A * ProbabilitySpace.

Definition ret {A} (a : A) : method A := fun this => (Return a, this).

Definition throw {A} (e : exn) : method A := fun this => (Throw e, this).

Definition bind {A B} (c : method A) (k : A -> method B) : method B :=
  fun this =>
    match c this with
    | (Return a, this') => k a this'
    | (Throw e, this') => (Throw e, this')
    end.

(** Reading a data member. *)
Definition member {A} (f : ProbabilitySpace -> A) : method A :=
  fun this => (Return (f this), this).

End ProbabilitySpace.

Arguments ProbabilitySpace T : clear implicits.
Arguments method T A : clear implicits.
Declare Scope method_scope.
Delimit Scope method_scope with method.

Notation "x <- c ;; k" := (bind c (fun x => k))
  (at level 61, c at next level, right associativity) : method_scope.

Notation "c ;; k" := (bind c (fun _ => k))
  (at level 61, right associativity) : method_scope.

Section Methods.
Context {T : Type} `{Ordered T}.
Local Open Scope method_scope.

(** [getKeys]: the keys of the mapping, inserted into a fresh set. *)
Definition getKeys (pSpace : map_t T) : set_t T :=
  inserter (map fst pSpace) [].

Definition isSubset (event : set_t T) : method T unit :=
  ignore <- member ignoreUnknown ;;
  known <- member events ;;
  if negb ignore && negb (includes known event)
  then throw (invalid_argument msg_unknown_outcome)
  else ret tt.

(** The loop of [validProbabilitySpace], from an entry on, with the running
    [total]; it ends with the total of all the entries. *)
Fixpoint valid_loop (mapping : map_t T) (total : float) : outcome float :=
  match mapping with
  | [] => Return total
  | (_, v) :: rest =>
      if v <? 0 then Throw (invalid_argument msg_negative)
      else valid_loop rest (total + v)
  end.

(** [validProbabilitySpace] is static: it sees the mapping only. *)
Definition validProbabilitySpace (mapping : map_t T) : outcome unit :=
  match valid_loop mapping 0 with
  | Throw e => Throw e
  | Return total =>
      if EPSILON <? abs (total - 1)
      then Throw (invalid_argument msg_sum)
      else Return tt
  end.

(** The loop of [probabilityCalculator], from an outcome of the event on. *)
Fixpoint calculator_loop (event : list T) (total : float) : method T float :=
  match event with
  | [] => ret total
  | outcome :: rest =>
      pSpace <- member space ;;
      ignore <- member ignoreUnknown ;;
      let it := find pSpace outcome in
      let eventExists := match it with Some _ => true | None => false end in
      if negb ignore && negb eventExists
      then throw (invalid_argument msg_unknown_outcome)
      else match it with
           | Some p => calculator_loop rest (total + p)
           | None => calculator_loop rest total
           end
  end.

Definition probabilityCalculator (event : set_t T) : method T float :=
  isSubset event ;;
  calculator_loop event 0.

Definition complement (event : set_t T) : method T float :=
  p <- probabilityCalculator event ;;
  ret (1 - p).

Definition unionEvents (eventA eventB : set_t T) : method T float :=
  isSubset eventA ;;
  isSubset eventB ;;
  let unioned := inserter (set_union eventA eventB) [] in
  probabilityCalculator unioned.

Definition intersectionEvents (eventA eventB : set_t T) : method T float :=
  isSubset eventA ;;
  isSubset eventB ;;
  let intersected := inserter (set_intersection eventA eventB) [] in
  probabilityCalculator intersected.

Definition _conditionalProbability (eventA eventB : set_t T) : method T float :=
  isSubset eventA ;;
  isSubset eventB ;;
  probB <- probabilityCalculator eventB ;;
  if fneb probB 0
  then prob_AnB <- intersectionEvents eventA eventB ;;
       ret (prob_AnB / probB)
  else throw (invalid_argument msg_condition_zero).

(** *** The public interface *)

(** The constructor: [ignoreUnknown] has its default member initializer,
    the two containers are assigned once the mapping has been validated. *)
Definition construct (mapping : map_t T) : outcome (ProbabilitySpace T) :=
  match validProbabilitySpace mapping with
  | Throw e => Throw e
  | Return _ =>
      Return {| space := mapping;
                events := getKeys mapping;
                ignoreUnknown := false |}
  end.

Definition probabilityOfSet (event : set_t T) : method T float :=
  probabilityCalculator event.

Definition complementOfEvent (event : set_t T) : method T float :=
  complement event.

Definition unionOfEvents (eventA eventB : set_t T) : method T float :=
  unionEvents eventA eventB.

Definition intersectionOfEvents (eventA eventB : set_t T) : method T float :=
  intersectionEvents eventA eventB.

Definition conditionalProbability (eventA eventB : set_t T) : method T float :=
  _conditionalProbability eventA eventB.

Definition getCurrentMode : method T bool :=
  member ignoreUnknown.

Definition setIgnoreUnknown (mode : bool) : method T unit :=
  fun this =>
    (Return tt,
     {| space := space this; events := events this; ignoreUnknown := mode |}).

End Methods.

(** ** The test program

    [test_probability_space.cpp] builds a fair coin and a fair die, runs the
    constructor and the queries on them and prints, test by test, whether
    the outcome is the expected one.  What a test prints is modelled by
    its tag. *)

(** [operator<] of [std::string]: the lexicographic order of the
    characters. *)
#[export] Program Instance Ordered_string : Ordered string :=
  {| ltb := String.ltb |}.
Next Obligation.
  unfold String.ltb.
  pose proof (proj2 (OrderedTypeEx.String_as_OT.cmp_eq a a) eq_refl) as Eaa.
  unfold OrderedTypeEx.String_as_OT.cmp in Eaa. now rewrite Eaa.
Qed.
Next Obligation.
  unfold String.ltb in *.
  destruct (String.compare a b) eqn:Eab; try discriminate.
  destruct (String.compare b c) eqn:Ebc; try discriminate.
  apply OrderedTypeEx.String_as_OT.cmp_lt in Eab, Ebc.
  pose proof (OrderedTypeEx.String_as_OT.lt_trans _ _ _ Eab Ebc) as Eac.
  apply OrderedTypeEx.String_as_OT.cmp_lt in Eac.
  unfold OrderedTypeEx.String_as_OT.cmp in Eac. now rewrite Eac.
Qed.
Next Obligation.
  unfold String.ltb in *.
  pose proof (String.compare_antisym b a) as Ea.
  destruct (String.compare a b) eqn:Eab; try discriminate.
  - now apply String.compare_eq_iff.
  - destruct (String.compare b a); simpl in Ea; discriminate.
Qed.

Definition SHOULD_WORK : Z := 0.
Definition SHOULD_FAIL : Z := 1.

Definition NORMAL : Z := 0.
Definition COMPLEMENT : Z := 1.
Definition UNION : Z := 2.
Definition INTERSECTION : Z := 3.
Definition CONDITIONAL : Z := 4.

(** The tag a test prints. *)
Inductive verdict : Type :=
| SUCCESS
| FAILED
| TEST_FAILURE.

Section Tests.
Context {T : Type} `{Ordered T}.

Definition testConstructor (mapping : map_t T) (expectedOutcome : Z) : verdict :=
  match construct mapping with
  | Return ps =>
      if Z.eqb expectedOutcome SHOULD_WORK then SUCCESS
      else if Z.eqb expectedOutcome SHOULD_FAIL then FAILED
      else TEST_FAILURE
  | Throw e =>
      if Z.eqb expectedOutcome SHOULD_WORK then FAILED
      else if Z.eqb expectedOutcome SHOULD_FAIL then SUCCESS
      else TEST_FAILURE
  end.

(** The tolerance [1e-9] of the comparisons is the double [EPSILON]. *)
Definition testProbability (ps : ProbabilitySpace T) (events : set_t T)
    (target : float) (expectedOutcome : Z) (method : Z) (eventsB : set_t T)
  : verdict :=
  let result :=
    if Z.eqb method NORMAL then fst (probabilityOfSet events ps)
    else if Z.eqb method COMPLEMENT then fst (complementOfEvent events ps)
    else if Z.eqb method UNION then fst (unionOfEvents events eventsB ps)
    else if Z.eqb method INTERSECTION
    then fst (intersectionOfEvents events eventsB ps)
    else if Z.eqb method CONDITIONAL
    then fst (conditionalProbability events eventsB ps)
    else fst (probabilityOfSet events ps) in
  match result with
  | Return p =>
      let pError := abs (p - target) in
      if (pError <? EPSILON) && Z.eqb expectedOutcome SHOULD_WORK then SUCCESS
      else if (EPSILON <=? pError) && Z.eqb expectedOutcome SHOULD_WORK
      then FAILED
      else if Z.eqb expectedOutcome SHOULD_FAIL then FAILED
      else TEST_FAILURE
  | Throw e =>
      if Z.eqb expectedOutcome SHOULD_WORK then FAILED
      else if Z.eqb expectedOutcome SHOULD_FAIL then SUCCESS
      else TEST_FAILURE
  end.

End Tests.

Definition coin_toss : map_t string :=
  [("heads"%string, 0.5); ("tails"%string, 0.5)].

Definition die : map_t Z :=
  [(1%Z, 1/6); (2%Z, 1/6); (3%Z, 1/6); (4%Z, 1/6); (5%Z, 1/6); (6%Z, 1/6)].

(** [{"heads": -0.1, "tails": 1.1}], the literals being the nearest
    doubles. *)
Definition negative_probability : map_t string :=
  [("heads"%string, -0x1.999999999999ap-4);
   ("tails"%string, 0x1.199999999999ap+0)].

Definition die_sum_neq_1 : map_t Z :=
  [(1%Z, 1/6); (2%Z, 1/6); (3%Z, 0x1.199999999999ap+0/6);
   (4%Z, 1/6); (5%Z, 1/6); (6%Z, 0x1.199999999999ap+0/6)].

(** [main]: the tags of the tests in the order they are printed; a
    constructor that throws outside a test ends the program. *)
Definition main : outcome (list verdict) :=
  let constructor_tests :=
    [testConstructor coin_toss SHOULD_WORK;
     testConstructor die SHOULD_WORK;
     testConstructor negative_probability SHOULD_FAIL;
     testConstructor die_sum_neq_1 SHOULD_FAIL] in
  match construct coin_toss with
  | Throw e => Throw e
  | Return coin =>
  let empty : set_t string := [] in
  let heads := ["heads"%string] in
  let tails := ["tails"%string] in
  let all := ["heads"%string; "tails"%string] in
  let wrong := ["heads"%string; "moose"%string] in
  let moose := ["moose"%string] in
  let coin_tests :=
    [testProbability coin heads 0.5 SHOULD_WORK NORMAL [];
     testProbability coin empty 0 SHOULD_WORK NORMAL [];
     testProbability coin all 1 SHOULD_WORK NORMAL [];
     testProbability coin wrong 0.5 SHOULD_FAIL NORMAL [];
     testProbability coin empty 1 SHOULD_WORK COMPLEMENT [];
     testProbability coin heads 0.5 SHOULD_WORK COMPLEMENT [];
     testProbability coin all 0 SHOULD_WORK COMPLEMENT [];
     testProbability coin wrong 0.5 SHOULD_FAIL COMPLEMENT [];
     testProbability coin heads 1 SHOULD_WORK UNION tails;
     testProbability coin empty 0.5 SHOULD_WORK UNION tails;
     testProbability coin empty 0.5 SHOULD_FAIL UNION wrong;
     testProbability coin tails 0.5 SHOULD_WORK INTERSECTION all;
     testProbability coin all 0 SHOULD_WORK INTERSECTION empty;
     testProbability coin all 0.5 SHOULD_FAIL INTERSECTION wrong] in
  let coin := snd (setIgnoreUnknown true coin) in
  let coin_tests_permissive :=
    [testProbability coin wrong 0.5 SHOULD_WORK COMPLEMENT [];
     testProbability coin empty 0.5 SHOULD_WORK UNION wrong;
     testProbability coin all 0.5 SHOULD_WORK INTERSECTION wrong;
     testProbability coin all 0 SHOULD_WORK INTERSECTION moose] in
  let coin := snd (setIgnoreUnknown false coin) in
  match construct die with
  | Throw e => Throw e
  | Return noppa =>
  let _all := [1; 2; 3; 4; 5; 6]%Z in
  let _1_2 := [1; 2]%Z in
  let _3 := [3]%Z in
  let _4_5_6 := [4; 5; 6]%Z in
  let _4_5 := [4; 5]%Z in
  let _empty : set_t Z := [] in
  let seven := [7]%Z in
  let many := [4; 5; 6; 7]%Z in
  let die_tests :=
    [testProbability noppa _1_2 (2/6) SHOULD_WORK NORMAL [];
     testProbability noppa _1_2 (1/3) SHOULD_WORK CONDITIONAL _all;
     testProbability noppa _4_5 (2/3) SHOULD_WORK CONDITIONAL _4_5_6;
     testProbability noppa _empty 0 SHOULD_WORK CONDITIONAL _3;
     testProbability noppa _3 0 SHOULD_WORK CONDITIONAL _4_5_6;
     testProbability noppa seven 0 SHOULD_FAIL CONDITIONAL _3;
     testProbability noppa _3 0 SHOULD_FAIL CONDITIONAL _empty] in
  let noppa := snd (setIgnoreUnknown true noppa) in
  let die_tests_permissive :=
    [testProbability noppa seven 0 SHOULD_WORK CONDITIONAL _3;
     testProbability noppa _4_5 (2/3) SHOULD_WORK CONDITIONAL many] in
  let noppa := snd (setIgnoreUnknown false noppa) in
  let die_tests_strict :=
    [testProbability noppa _4_5 (2/3) SHOULD_FAIL CONDITIONAL many] in
  Return (constructor_tests ++ coin_tests ++ coin_tests_permissive
          ++ die_tests ++ die_tests_permissive ++ die_tests_strict)
  end
  end.

Definition die_space : ProbabilitySpace Z :=
  {| space := die; events := [1; 2; 3; 4; 5; 6]%Z; ignoreUnknown := false |}.

(** * The vocabulary of the statements

    What the statements about the class are written with: the mass of an
    event as a sum of doubles, events with and without foreign outcomes,
    what a method leaves of the object and what it throws, sequences of
    calls. *)

Section Vocabulary.
Context {T : Type} `{Ordered T}.

(** ** Sets, keys and masses *)

(** [below x l]: [x] is less than every element of [l]. *)
Definition below (x : T) (l : list T) : Prop :=
  Forall (fun y => ltb x y = true) l.

(** [o] is a key of the mapping. *)
Definition is_key (m : map_t T) (o : T) : bool :=
  existsb (fun kv => equiv (fst kv) o) m.

(** The object after [setIgnoreUnknown(mode)]. *)
Definition with_mode (mode : bool) (s : ProbabilitySpace T) : ProbabilitySpace T :=
  snd (setIgnoreUnknown mode s).

(** The mass of an outcome, 0 for an outcome that is no key. *)
Definition mass (M : map_t T) (o : T) : float :=
  match find M o with Some p => p | None => 0 end.

(** The sum of a sequence of doubles, added one after the other to
    [total]: additions of doubles round, so the order is part of the sum. *)
Definition sum_from (total : float) (l : list float) : float :=
  fold_left add l total.

(** The sum of [M(o)] over the outcomes [o] of [E] that are keys of [M],
    in the order of the event. *)
Definition event_mass (M : map_t T) (E : set_t T) : float :=
  sum_from 0 (map (mass M) (filter (is_key M) E)).

(** The total mass: the sum of the entries in key order. *)
Definition total_mass (M : map_t T) : float :=
  sum_from 0 (map snd M).

(** [E] has no outcome outside the keys of [M]. *)
Definition all_known (M : map_t T) (E : set_t T) : bool :=
  forallb (is_key M) E.

(** [E] contains an outcome outside the sample space. *)
Definition foreign (M : map_t T) (E : set_t T) : Prop :=
  exists o, In o E /\ ~ In o (map fst M).

(** The event passes the checks of the current mode. *)
Definition accepts (s : ProbabilitySpace T) (E : set_t T) : bool :=
  ignoreUnknown s || all_known (space s) E.

(** What the constructor establishes: [events] holds the keys of
    [space]. *)
Definition consistent (s : ProbabilitySpace T) : Prop :=
  map_wf (space s) /\ events s = map fst (space s).

(** No mass of the mapping is NaN. *)
Definition no_nan (M : map_t T) : Prop :=
  Forall (fun kv => is_nan (snd kv) = false) M.

(** Some mass compares less than 0. *)
Definition some_negative (M : map_t T) : bool :=
  existsb (fun kv => snd kv <? 0) M.

(** The exact sum of a weight over an event. *)
Definition weight_sum (w : T -> Z) (l : list T) : Z :=
  fold_right (fun o acc => (w o + acc)%Z) 0%Z l.

(** ** Exceptions and their kinds *)

Definition unknown_outcome : exn := invalid_argument msg_unknown_outcome.

Definition condition_on_zero : exn := invalid_argument msg_condition_zero.

(** The query ends with an exception of the given kind. *)
Definition fails_with {A} (k : error_kind) (r : outcome A) : Prop :=
  exists e, r = Throw e /\ kind_of e = Some k.

(** The method leaves the object as it found it. *)
Definition frames {A} (m : method T A) : Prop :=
  forall s, snd (m s) = s.

(** Every exception the method throws satisfies [P]. *)
Definition throws_only {A} (P : exn -> Prop) (m : method T A) : Prop :=
  forall s e, fst (m s) = Throw e -> P e.

(** ** Sequences of calls *)

(** A call of one of the public methods on a constructed object. *)
Inductive call : Type :=
| call_probabilityOfSet (E : set_t T)
| call_complementOfEvent (E : set_t T)
| call_unionOfEvents (A B : set_t T)
| call_intersectionOfEvents (A B : set_t T)
| call_conditionalProbability (A B : set_t T)
| call_getCurrentMode
| call_setIgnoreUnknown (mode : bool).

(** The object after the call, whether the call returned or threw. *)
Definition after (c : call) (s : ProbabilitySpace T) : ProbabilitySpace T :=
  match c with
  | call_probabilityOfSet E => snd (probabilityOfSet E s)
  | call_complementOfEvent E => snd (complementOfEvent E s)
  | call_unionOfEvents A B => snd (unionOfEvents A B s)
  | call_intersectionOfEvents A B => snd (intersectionOfEvents A B s)
  | call_conditionalProbability A B => snd (conditionalProbability A B s)
  | call_getCurrentMode => snd (getCurrentMode s)
  | call_setIgnoreUnknown mode => snd (setIgnoreUnknown mode s)
  end.

Definition after_all (cs : list call) (s : ProbabilitySpace T) : ProbabilitySpace T :=
  fold_left (fun s c => after c s) cs s.

(** The flag most recently set by the calls, [init] if none sets it. *)
Definition last_mode_set (cs : list call) (init : bool) : bool :=
  fold_left
    (fun m c => match c with call_setIgnoreUnknown mode => mode | _ => m end)
    cs init.

End Vocabulary.

(** [l1] is [l2] with some of its elements left out. *)
Inductive subseq {A : Type} : list A -> list A -> Prop :=
| subseq_nil : subseq [] []
| subseq_skip (x : A) (l1 l2 : list A) : subseq l1 l2 -> subseq l1 (x :: l2)
| subseq_keep (x : A) (l1 l2 : list A) :
    subseq l1 l2 -> subseq (x :: l1) (x :: l2).

(** ** The value of a double

    The sums of the class add masses that are not negative.  The value of
    a finite double [m * 2^e] is counted in units of 2^-1074, the smallest
    positive double, so that it is a natural number; the exact sum of two
    values is then rounded as binary64 does, to 53 significant digits and
    to nearest, ties to even. *)

Module Binary64.
Local Open Scope Z_scope.
Unset Implicit Arguments.

(** [m / 2^k] rounded to the nearest integer, to the even one on a tie. *)
Definition rnd_shift (m k : Z) : Z :=
  let q := m / 2 ^ k in
  let r := m mod 2 ^ k in
  if 2 * r <? 2 ^ k then q
  else if 2 * r =? 2 ^ k then (if Z.even q then q else q + 1)
  else q + 1.

(** The number of low digits that rounding to 53 digits drops. *)
Definition drop (N : Z) : Z := Z.max (Zdigits2 N - 53) 0.

(** Rounding of a natural number to 53 significant digits, to nearest,
    ties to even. *)
Definition round53 (N : Z) : Z := rnd_shift N (drop N) * 2 ^ drop N.

(** The record after [k] shifts of [m], as arithmetic on [m]. *)
Definition shifted (m k : Z) : shr_record :=
  {| shr_m := m / 2 ^ k;
     shr_r := 2 ^ k <=? 2 * (m mod 2 ^ k);
     shr_s := negb (m mod 2 ^ k =? 0) && negb (2 * (m mod 2 ^ k) =? 2 ^ k) |}.

Definition top : Z := 2 ^ 2098.

(** The value of a double that is not negative, in units of 2^-1074;
    [top] stands for infinity. *)
Definition val (x : spec_float) : Z :=
  match x with
  | S754_zero _ => 0
  | S754_infinity _ => top
  | S754_nan => 0
  | S754_finite _ m e => Zpos m * 2 ^ (e + 1074)
  end.

(** Not NaN, and of the given sign. *)
Definition signed (s : bool) (x : spec_float) : bool :=
  match x with
  | S754_zero s' | S754_infinity s' | S754_finite s' _ _ => Bool.eqb s s'
  | S754_nan => false
  end.

(** Not NaN and not negative. *)
Definition nonneg (x : spec_float) : bool :=
  match x with
  | S754_zero _ => true
  | S754_infinity s => negb s
  | S754_nan => false
  | S754_finite s _ _ => negb s
  end.

Definition round64 (N : Z) : Z := Z.min (round53 N) top.

Definition fval (x : float) : Z := val (Prim2SF x).

Definition fnonneg (x : float) : bool := nonneg (Prim2SF x).

(** The gap between 1 and the next double. *)
Definition ulp_one : Z := 2 ^ 1022.

Set Implicit Arguments.

End Binary64.

(** ** The value of a double of either sign *)

Module Binary64Signed.
Import Binary64.
Local Open Scope Z_scope.
Unset Implicit Arguments.

(** The two bits that a location adds below a mantissa. *)
Definition loc_bits (l : location) : Z :=
  match l with
  | loc_Exact => 0
  | loc_Inexact Lt => 1
  | loc_Inexact Eq => 2
  | loc_Inexact Gt => 3
  end.

(** The value of a double of either sign, in units of 2^-1074. *)
Definition sval (x : spec_float) : Z :=
  if signed true x then - val x else val x.

Definition rval (x : float) : Z := sval (Prim2SF x).

Set Implicit Arguments.
End Binary64Signed.


(** ** Sums and bounds *)

Section MassVocabulary.
Local Open Scope Z_scope.
Import Binary64.

(** The doubles the validation accepts as masses, NaN apart. *)
Definition masses_nonneg (l : list float) : Prop :=
  Forall (fun v => fnonneg v = true) l.

(** The exact sum of the values of a sequence of doubles. *)
Definition exact_sum (l : list float) : Z :=
  fold_right (fun v acc => fval v + acc) 0 l.

(** The double that follows [EPSILON]. *)
Definition EPSILON_up : float := 0x1.12e0be826d696p-30.

(** The double nearest to 1.000000001: the first double that a total
    accepted by the validation cannot reach. *)
Definition total_bound : float := 0x1.000000044b830p+0.

(** The largest number of outcomes of [A] and [B] together for which the
    roundings of the four sums stay within 10^-9: 2^52 / 10^9. *)
Definition max_outcomes : Z := 4503599.

End MassVocabulary.

(** ** Mappings that the statements are evaluated at *)

(** A mapping the validation accepts, with a total above 1:
    [{1: 1.0000000005}]. *)
Definition heavy : map_t Z := [(1%Z, 0x1.0000000225c18p+0)].

Definition heavy_space : ProbabilitySpace Z :=
  {| space := heavy; events := [1%Z]; ignoreUnknown := false |}.

(** The mapping [{1: NaN}]. *)
Definition nan_mapping : map_t Z := [(1%Z, nan)].

Definition nan_space : ProbabilitySpace Z :=
  {| space := nan_mapping; events := [1%Z]; ignoreUnknown := false |}.

(** A mapping with an outcome of mass 2^-100, far below [EPSILON]:
    [{1: 2^-100, 2: 1.0}]. *)
Definition faint : map_t Z := [(1%Z, 0x1p-100); (2%Z, 1)].

Definition faint_space : ProbabilitySpace Z :=
  {| space := faint; events := [1; 2]%Z; ignoreUnknown := false |}.

(** *** A space with millions of outcomes

    One outcome of mass 1 and [n] outcomes of mass 2^-53: every addition of
    2^-53 to 1 rounds back to 1, so the total is 1 and the space is valid,
    whatever [n] is; added to each other, the small masses are not lost. *)

(** The outcomes [1 .. n]. *)
Definition crowd (n : nat) : set_t Z := map Z.of_nat (seq 1 n).

Definition tiny : float := 0x1p-53.

Definition tiny_masses (n : nat) : map_t Z := map (fun o => (o, tiny)) (crowd n).

Definition crowded (n : nat) : map_t Z := (0%Z, 1) :: tiny_masses n.

Definition crowded_space (n : nat) : ProbabilitySpace Z :=
  {| space := crowded n; events := 0%Z :: crowd n; ignoreUnknown := false |}.

(** 9 100 000 small outcomes: their masses add up to more than 10^-9. *)
Definition many : nat := Z.to_nat 9100000.

(** * Properties of the containers *)

Section ContainerFacts.
Context {T : Type} `{Ordered T}.

Lemma ltb_asym (a b : T) : ltb a b = true -> ltb b a = false.
Proof.
  intros Hab. destruct (ltb b a) eqn:Hba; [|reflexivity].
  rewrite <- (ltb_irrefl a). symmetry. now apply ltb_trans with b.
Qed.

Lemma equiv_eq (a b : T) : equiv a b = true <-> a = b.
Proof.
  unfold equiv. split.
  - intros E. apply andb_true_iff in E as [E1 E2].
    apply negb_true_iff in E1, E2. now apply ltb_total.
  - intros ->. now rewrite ltb_irrefl.
Qed.

Lemma equiv_refl (a : T) : equiv a a = true.
Proof. now apply equiv_eq. Qed.

Lemma equiv_ltb (a b : T) : ltb a b = true -> equiv a b = false.
Proof. unfold equiv. now intros ->. Qed.

Lemma equiv_gtb (a b : T) : ltb b a = true -> equiv a b = false.
Proof. unfold equiv. intros ->. now rewrite andb_false_r. Qed.

Lemma sorted_cons (x : T) (l : list T) :
  sorted (x :: l) = true <-> below x l /\ sorted l = true.
Proof.
  revert x. induction l as [|y l IH]; intros x.
  - simpl. split; [split; [constructor|reflexivity]|reflexivity].
  - change (sorted (x :: y :: l)) with (ltb x y && sorted (y :: l)).
    rewrite andb_true_iff. split.
    + intros [Hxy Hs]. split; [|assumption].
      constructor; [assumption|].
      apply IH in Hs as [Hb _].
      eapply Forall_impl; [|exact Hb].
      intros z Hz. now apply ltb_trans with y.
    + intros [Hb Hs]. split; [|assumption]. now inversion Hb.
Qed.

Lemma sorted_tail (x : T) (l : list T) :
  sorted (x :: l) = true -> sorted l = true.
Proof. intros Hs. now apply sorted_cons in Hs. Qed.

Lemma below_not_in (x : T) (l : list T) : below x l -> ~ In x l.
Proof.
  intros Hb Hin. unfold below in Hb. rewrite Forall_forall in Hb.
  apply Hb in Hin. now rewrite ltb_irrefl in Hin.
Qed.

Lemma below_trans (x y : T) (l : list T) :
  ltb x y = true -> below y l -> below x l.
Proof.
  intros Hxy Hb. eapply Forall_impl; [|exact Hb].
  intros z Hz. now apply ltb_trans with y.
Qed.

(** Two sets with the same elements are the same list. *)
Lemma sorted_ext (l1 l2 : list T) :
  sorted l1 = true -> sorted l2 = true ->
  (forall x, In x l1 <-> In x l2) -> l1 = l2.
Proof.
  revert l2. induction l1 as [|x l1 IH]; intros [|y l2] H1 H2 Hext.
  - reflexivity.
  - exfalso. apply (proj2 (Hext y)). now left.
  - exfalso. apply (proj1 (Hext x)). now left.
  - apply sorted_cons in H1 as [Hb1 Hs1].
    apply sorted_cons in H2 as [Hb2 Hs2].
    unfold below in Hb1, Hb2. rewrite Forall_forall in Hb1, Hb2.
    assert (Hxy : x = y).
    { destruct (proj1 (Hext x) (or_introl eq_refl)) as [E|Hx]; [now symmetry|].
      destruct (proj2 (Hext y) (or_introl eq_refl)) as [E|Hy]; [assumption|].
      apply Hb2 in Hx. apply Hb1 in Hy.
      apply ltb_asym in Hx. congruence. }
    subst y. f_equal. apply IH; try assumption.
    intros z. split; intros Hz.
    + destruct (proj1 (Hext z) (or_intror Hz)) as [E|Hz']; [|assumption].
      subst z. apply Hb1 in Hz. now rewrite ltb_irrefl in Hz.
    + destruct (proj2 (Hext z) (or_intror Hz)) as [E|Hz']; [|assumption].
      subst z. apply Hb2 in Hz. now rewrite ltb_irrefl in Hz.
Qed.

(** *** Insertion *)

Lemma set_insert_last (x : T) (l : list T) :
  Forall (fun y => ltb y x = true) l -> set_insert x l = l ++ [x].
Proof.
  induction l as [|y l IH]; intros Hl; [reflexivity|].
  inversion Hl as [|? ? Hy Hl']; subst. simpl.
  rewrite (ltb_asym _ _ Hy), Hy. now rewrite IH.
Qed.

Lemma inserter_sorted_app (out acc : list T) :
  sorted (acc ++ out) = true -> inserter out acc = acc ++ out.
Proof.
  revert acc. induction out as [|x out IH]; intros acc Hs.
  - simpl. now rewrite app_nil_r.
  - simpl. rewrite set_insert_last.
    + replace (acc ++ x :: out) with ((acc ++ [x]) ++ out) in *
        by now rewrite <- app_assoc.
      now apply IH.
    + clear IH. induction acc as [|a acc IHa]; [constructor|].
      simpl in Hs. apply sorted_cons in Hs as [Hb Hs].
      constructor; [|now apply IHa].
      unfold below in Hb. rewrite Forall_forall in Hb.
      apply Hb, in_or_app. right. now left.
Qed.

(** Writing a sorted range into an empty set gives that range. *)
Lemma inserter_sorted (out : list T) :
  sorted out = true -> inserter out [] = out.
Proof. intros Hs. now apply (inserter_sorted_app out []). Qed.

(** *** [std::includes] *)

Lemma includes_nil_r (l : list T) : includes l [] = true.
Proof. now destruct l. Qed.

Lemma includes_spec (l1 l2 : list T) :
  sorted l1 = true -> sorted l2 = true ->
  (includes l1 l2 = true <-> forall y, In y l2 -> In y l1).
Proof.
  revert l2. induction l1 as [|x l1 IH]; intros [|y l2] H1 H2.
  - simpl. split; [intros _ y []|reflexivity].
  - simpl. split; [discriminate|]. intros Hin. destruct (Hin y). now left.
  - simpl. split; [intros _ y []|reflexivity].
  - pose proof H1 as H1'. pose proof H2 as H2'.
    apply sorted_cons in H1' as [Hb1 Hs1].
    apply sorted_cons in H2' as [Hb2 Hs2].
    simpl. destruct (ltb y x) eqn:Hyx.
    + split; [discriminate|]. intros Hin. exfalso.
      destruct (Hin y (or_introl eq_refl)) as [E|Hy].
      * subst. now rewrite ltb_irrefl in Hyx.
      * unfold below in Hb1. rewrite Forall_forall in Hb1.
        apply Hb1 in Hy. apply ltb_asym in Hy. congruence.
    + destruct (ltb x y) eqn:Hxy.
      * rewrite (IH (y :: l2) Hs1 H2). split; intros Hin z Hz.
        -- right. now apply Hin.
        -- destruct (Hin z Hz) as [E|Hz']; [|assumption]. exfalso. subst z.
           destruct Hz as [E|Hz]; [subst; now rewrite ltb_irrefl in Hxy|].
           unfold below in Hb2. rewrite Forall_forall in Hb2.
           apply Hb2 in Hz. congruence.
      * assert (x = y) by now apply ltb_total. subst y.
        rewrite (IH l2 Hs1 Hs2). split; intros Hin z Hz.
        -- destruct Hz as [E|Hz]; [now left|right; now apply Hin].
        -- destruct (Hin z (or_intror Hz)) as [E|Hz']; [|assumption].
           exfalso. subst z. now apply (below_not_in Hb2).
Qed.

Lemma includes_refl (l : list T) : includes l l = true.
Proof.
  induction l as [|x l IH]; [reflexivity|].
  simpl. now rewrite ltb_irrefl.
Qed.

(** *** [std::set_union] *)

Lemma set_union_nil_r (l : list T) : set_union l [] = l.
Proof. now destruct l. Qed.

Lemma set_union_cons (x y : T) (l1 l2 : list T) :
  set_union (x :: l1) (y :: l2) =
  if ltb y x then y :: set_union (x :: l1) l2
  else if ltb x y then x :: set_union l1 (y :: l2)
  else x :: set_union l1 l2.
Proof. reflexivity. Qed.

Lemma set_union_In (l1 l2 : list T) (z : T) :
  In z (set_union l1 l2) <-> In z l1 \/ In z l2.
Proof.
  revert l2. induction l1 as [|x l1 IH1]; intros l2.
  - simpl. destruct l2; tauto.
  - induction l2 as [|y l2 IH2].
    + rewrite set_union_nil_r. simpl. tauto.
    + rewrite set_union_cons.
      destruct (ltb y x) eqn:Hyx; [|destruct (ltb x y) eqn:Hxy].
      * simpl. rewrite IH2. simpl. tauto.
      * simpl. rewrite IH1. simpl. tauto.
      * assert (x = y) by now apply ltb_total. subst y.
        simpl. rewrite IH1. tauto.
Qed.

Lemma below_set_union (z : T) (l1 l2 : list T) :
  below z l1 -> below z l2 -> below z (set_union l1 l2).
Proof.
  unfold below. rewrite !Forall_forall. intros H1 H2 w Hw.
  apply set_union_In in Hw as [Hw|Hw]; auto.
Qed.

Lemma set_union_sorted (l1 l2 : list T) :
  sorted l1 = true -> sorted l2 = true -> sorted (set_union l1 l2) = true.
Proof.
  revert l2. induction l1 as [|x l1 IH1]; intros l2 H1 H2.
  - now destruct l2.
  - induction l2 as [|y l2 IH2].
    + now rewrite set_union_nil_r.
    + pose proof H1 as H1'. pose proof H2 as H2'.
      apply sorted_cons in H1' as [Hb1 Hs1].
      apply sorted_cons in H2' as [Hb2 Hs2].
      rewrite set_union_cons.
      destruct (ltb y x) eqn:Hyx; [|destruct (ltb x y) eqn:Hxy];
        apply sorted_cons.
      * split; [|now apply IH2]. apply below_set_union; [|assumption].
        constructor; [assumption|]. now apply below_trans with x.
      * split; [|now apply IH1]. apply below_set_union; [assumption|].
        constructor; [assumption|]. now apply below_trans with y.
      * assert (x = y) by now apply ltb_total. subst y.
        split; [|now apply IH1]. now apply below_set_union.
Qed.

Lemma set_union_comm (l1 l2 : list T) :
  sorted l1 = true -> sorted l2 = true ->
  set_union l1 l2 = set_union l2 l1.
Proof.
  intros H1 H2. apply sorted_ext; try now apply set_union_sorted.
  intros z. rewrite !set_union_In. tauto.
Qed.

(** *** [std::set_intersection] *)

Lemma set_intersection_nil_r (l : list T) : set_intersection l [] = [].
Proof. now destruct l. Qed.

Lemma set_intersection_cons (x y : T) (l1 l2 : list T) :
  set_intersection (x :: l1) (y :: l2) =
  if ltb x y then set_intersection l1 (y :: l2)
  else if ltb y x then set_intersection (x :: l1) l2
  else x :: set_intersection l1 l2.
Proof. reflexivity. Qed.

Lemma set_intersection_In (l1 l2 : list T) (z : T) :
  sorted l1 = true -> sorted l2 = true ->
  (In z (set_intersection l1 l2) <-> In z l1 /\ In z l2).
Proof.
  revert l2. induction l1 as [|x l1 IH1]; intros l2 H1 H2.
  - simpl. destruct l2; simpl; tauto.
  - induction l2 as [|y l2 IH2].
    + rewrite set_intersection_nil_r. simpl. tauto.
    + pose proof H1 as H1'. pose proof H2 as H2'.
      apply sorted_cons in H1' as [Hb1 Hs1].
      apply sorted_cons in H2' as [Hb2 Hs2].
      pose proof (below_not_in Hb1) as Hn1.
      pose proof (below_not_in Hb2) as Hn2.
      unfold below in Hb1, Hb2. rewrite Forall_forall in Hb1, Hb2.
      rewrite set_intersection_cons.
      destruct (ltb x y) eqn:Hxy; [|destruct (ltb y x) eqn:Hyx].
      * rewrite (IH1 (y :: l2) Hs1 H2). simpl. split; [tauto|].
        intros [[E|Hz1] Hz2]; [exfalso|tauto]. subst z.
        destruct Hz2 as [E|Hz2]; [subst; now rewrite ltb_irrefl in Hxy|].
        apply Hb2 in Hz2. apply ltb_asym in Hz2. congruence.
      * rewrite (IH2 Hs2). simpl. split; [tauto|].
        intros [Hz1 [E|Hz2]]; [exfalso|tauto]. subst z.
        destruct Hz1 as [E|Hz1]; [subst; now rewrite ltb_irrefl in Hyx|].
        apply Hb1 in Hz1. apply ltb_asym in Hz1. congruence.
      * assert (x = y) by now apply ltb_total. subst y.
        simpl. rewrite (IH1 l2 Hs1 Hs2). split; [tauto|].
        intros [[E|Hz1] [E'|Hz2]]; tauto.
Qed.

Lemma set_intersection_sorted (l1 l2 : list T) :
  sorted l1 = true -> sorted l2 = true ->
  sorted (set_intersection l1 l2) = true.
Proof.
  revert l2. induction l1 as [|x l1 IH1]; intros l2 H1 H2.
  - now destruct l2.
  - induction l2 as [|y l2 IH2].
    + now rewrite set_intersection_nil_r.
    + pose proof H1 as H1'. pose proof H2 as H2'.
      apply sorted_cons in H1' as [Hb1 Hs1].
      apply sorted_cons in H2' as [Hb2 Hs2].
      rewrite set_intersection_cons.
      destruct (ltb x y) eqn:Hxy; [|destruct (ltb y x) eqn:Hyx].
      * now apply IH1.
      * now apply IH2.
      * apply sorted_cons. split; [|now apply IH1].
        unfold below in *. rewrite Forall_forall in *. intros w Hw.
        apply set_intersection_In in Hw; try assumption.
        now apply Hb1.
Qed.

Lemma set_intersection_comm (l1 l2 : list T) :
  sorted l1 = true -> sorted l2 = true ->
  set_intersection l1 l2 = set_intersection l2 l1.
Proof.
  intros H1 H2. apply sorted_ext; try now apply set_intersection_sorted.
  intros z. rewrite !set_intersection_In by assumption. tauto.
Qed.

(** *** [std::map::find] and the keys *)

Lemma is_key_In (m : map_t T) (o : T) :
  is_key m o = true <-> In o (map fst m).
Proof.
  unfold is_key. rewrite existsb_exists, in_map_iff. split.
  - intros [kv [Hin E]]. exists kv. split; [now apply equiv_eq|assumption].
  - intros [kv [E Hin]]. exists kv. split; [assumption|now apply equiv_eq].
Qed.

Lemma find_is_key (m : map_t T) (o : T) :
  is_key m o = match find m o with Some _ => true | None => false end.
Proof.
  induction m as [|[k v] m IH]; [reflexivity|].
  simpl. destruct (equiv k o); [reflexivity|exact IH].
Qed.

Lemma find_head (k : T) (v : float) (m : map_t T) :
  find ((k, v) :: m) k = Some v.
Proof. simpl. now rewrite equiv_refl. Qed.

Lemma find_tail (k o : T) (v : float) (m : map_t T) :
  ltb k o = true -> find ((k, v) :: m) o = find m o.
Proof. intros Hko. simpl. now rewrite (equiv_ltb _ _ Hko). Qed.

Lemma getKeys_wf (m : map_t T) : map_wf m -> getKeys m = map fst m.
Proof. intros Hm. now apply inserter_sorted. Qed.

(** On sets, [std::includes] against the keys is membership of every
    outcome. *)
Lemma includes_keys (m : map_t T) (e : set_t T) :
  map_wf m -> set_wf e ->
  includes (map fst m) e = forallb (is_key m) e.
Proof.
  intros Hm He. apply eq_true_iff_eq.
  rewrite (includes_spec _ _ Hm He), forallb_forall.
  split; intros Hin y Hy.
  - apply is_key_In. now apply Hin.
  - apply is_key_In. now apply Hin.
Qed.

End ContainerFacts.

(** * The queries as functions of the object *)

Section QueryFacts.
Context {T : Type} `{Ordered T}.

Lemma isSubset_run (E : set_t T) (s : ProbabilitySpace T) :
  consistent s -> set_wf E ->
  isSubset E s =
  (if accepts s E then Return tt else Throw unknown_outcome, s).
Proof.
  intros [Hm Hk] HE. unfold isSubset, accepts, all_known, bind, member, ret, throw.
  rewrite Hk, (includes_keys Hm HE).
  destruct (ignoreUnknown s), (forallb (is_key (space s)) E); reflexivity.
Qed.

Lemma calculator_loop_run (E : list T) (total : float) (s : ProbabilitySpace T) :
  calculator_loop E total s =
  (if accepts s E
   then Return (sum_from total (map (mass (space s)) (filter (is_key (space s)) E)))
   else Throw unknown_outcome, s).
Proof.
  revert total. induction E as [|o E IH]; intros total.
  - unfold accepts, all_known. simpl. unfold ret.
    now rewrite orb_true_r.
  - assert (Hk := find_is_key (space s) o).
    assert (Hacc : accepts s (o :: E) =
                   (ignoreUnknown s || is_key (space s) o) && accepts s E).
    { unfold accepts, all_known. simpl.
      destruct (ignoreUnknown s), (is_key (space s) o); reflexivity. }
    rewrite Hacc. simpl. unfold bind, member. cbn beta iota.
    destruct (find (space s) o) as [p|] eqn:Hf.
    + rewrite Hk, andb_false_r, orb_true_r. simpl.
      rewrite IH. unfold mass at 2. now rewrite Hf.
    + rewrite Hk, orb_false_r. destruct (ignoreUnknown s) eqn:Hi; simpl.
      * rewrite IH. reflexivity.
      * reflexivity.
Qed.

Lemma probabilityCalculator_run (E : set_t T) (s : ProbabilitySpace T) :
  consistent s -> set_wf E ->
  probabilityCalculator E s =
  (if accepts s E then Return (event_mass (space s) E)
   else Throw unknown_outcome, s).
Proof.
  intros Hs HE. unfold probabilityCalculator, bind.
  rewrite (isSubset_run Hs HE).
  destruct (accepts s E) eqn:Ha; [|reflexivity].
  rewrite calculator_loop_run, Ha. reflexivity.
Qed.

Lemma all_known_union (M : map_t T) (A B : set_t T) :
  all_known M (set_union A B) = all_known M A && all_known M B.
Proof.
  apply eq_true_iff_eq. unfold all_known.
  rewrite andb_true_iff, !forallb_forall. split.
  - intros Hu. split; intros o Ho; apply Hu, set_union_In; tauto.
  - intros [HA HB] o Ho. apply set_union_In in Ho as [Ho|Ho]; auto.
Qed.

Lemma all_known_intersection (M : map_t T) (A B : set_t T) :
  set_wf A -> set_wf B ->
  all_known M A = true -> all_known M (set_intersection A B) = true.
Proof.
  unfold all_known. rewrite !forallb_forall. intros HA HB Hk o Ho.
  apply set_intersection_In in Ho; try assumption. now apply Hk.
Qed.

Lemma accepts_union (s : ProbabilitySpace T) (A B : set_t T) :
  accepts s (set_union A B) = accepts s A && accepts s B.
Proof.
  unfold accepts. rewrite all_known_union.
  destruct (ignoreUnknown s); reflexivity.
Qed.

Lemma accepts_intersection (s : ProbabilitySpace T) (A B : set_t T) :
  set_wf A -> set_wf B ->
  accepts s A = true -> accepts s (set_intersection A B) = true.
Proof.
  unfold accepts. intros HA HB Ha.
  destruct (ignoreUnknown s); [reflexivity|]. simpl in *.
  now apply all_known_intersection.
Qed.

Lemma unionEvents_run (A B : set_t T) (s : ProbabilitySpace T) :
  consistent s -> set_wf A -> set_wf B ->
  unionEvents A B s =
  (if accepts s A && accepts s B
   then Return (event_mass (space s) (set_union A B))
   else Throw unknown_outcome, s).
Proof.
  intros Hs HA HB. unfold unionEvents, bind.
  rewrite (isSubset_run Hs HA).
  destruct (accepts s A) eqn:Ha; [|reflexivity].
  rewrite (isSubset_run Hs HB).
  destruct (accepts s B) eqn:Hb; [|reflexivity].
  rewrite (inserter_sorted _ (set_union_sorted _ _ HA HB)).
  rewrite (probabilityCalculator_run Hs (set_union_sorted _ _ HA HB)).
  now rewrite accepts_union, Ha, Hb.
Qed.

Lemma intersectionEvents_run (A B : set_t T) (s : ProbabilitySpace T) :
  consistent s -> set_wf A -> set_wf B ->
  intersectionEvents A B s =
  (if accepts s A && accepts s B
   then Return (event_mass (space s) (set_intersection A B))
   else Throw unknown_outcome, s).
Proof.
  intros Hs HA HB. unfold intersectionEvents, bind.
  rewrite (isSubset_run Hs HA).
  destruct (accepts s A) eqn:Ha; [|reflexivity].
  rewrite (isSubset_run Hs HB).
  destruct (accepts s B) eqn:Hb; [|reflexivity].
  rewrite (inserter_sorted _ (set_intersection_sorted _ _ HA HB)).
  rewrite (probabilityCalculator_run Hs (set_intersection_sorted _ _ HA HB)).
  now rewrite (accepts_intersection s HA HB Ha).
Qed.

Lemma conditionalProbability_run (A B : set_t T) (s : ProbabilitySpace T) :
  consistent s -> set_wf A -> set_wf B ->
  _conditionalProbability A B s =
  (if accepts s A && accepts s B
   then if event_mass (space s) B =? 0
        then Throw condition_on_zero
        else Return (event_mass (space s) (set_intersection A B)
                     / event_mass (space s) B)
   else Throw unknown_outcome, s).
Proof.
  intros Hs HA HB. unfold _conditionalProbability, bind.
  rewrite (isSubset_run Hs HA).
  destruct (accepts s A) eqn:Ha; [|reflexivity].
  rewrite (isSubset_run Hs HB).
  destruct (accepts s B) eqn:Hb; [|reflexivity].
  rewrite (probabilityCalculator_run Hs HB), Hb.
  unfold fneb. simpl.
  destruct (event_mass (space s) B =? 0); simpl; [reflexivity|].
  rewrite (intersectionEvents_run Hs HA HB), Ha, Hb. reflexivity.
Qed.

Lemma complement_run (E : set_t T) (s : ProbabilitySpace T) :
  consistent s -> set_wf E ->
  complement E s =
  (if accepts s E then Return (1 - event_mass (space s) E)
   else Throw unknown_outcome, s).
Proof.
  intros Hs HE. unfold complement, bind.
  rewrite (probabilityCalculator_run Hs HE).
  now destruct (accepts s E).
Qed.

(** *** The constructor *)

Lemma valid_loop_total (M : map_t T) (total S : float) :
  valid_loop M total = Return S -> S = sum_from total (map snd M).
Proof.
  revert total. induction M as [|[k v] M IH]; intros total; simpl.
  - congruence.
  - destruct (v <? 0); [discriminate|]. apply IH.
Qed.

Lemma construct_Return (M : map_t T) (s : ProbabilitySpace T) :
  construct M = Return s ->
  s = {| space := M; events := getKeys M; ignoreUnknown := false |}
  /\ valid_loop M 0 = Return (total_mass M)
  /\ (EPSILON <? abs (total_mass M - 1)) = false.
Proof.
  unfold construct, validProbabilitySpace.
  destruct (valid_loop M 0) as [S|e] eqn:HS; [|discriminate].
  apply valid_loop_total in HS as HS'. fold (total_mass M) in HS'. subst S.
  destruct (EPSILON <? abs (total_mass M - 1)); [discriminate|].
  intros E. injection E as <-. auto.
Qed.

Lemma construct_consistent (M : map_t T) (s : ProbabilitySpace T) (mode : bool) :
  map_wf M -> construct M = Return s ->
  consistent (with_mode mode s)
  /\ space (with_mode mode s) = M
  /\ ignoreUnknown (with_mode mode s) = mode.
Proof.
  intros HM Hc. apply construct_Return in Hc as [-> _].
  unfold consistent, with_mode. simpl.
  rewrite (getKeys_wf HM). auto.
Qed.

(** *** Events made of keys, and events with foreign outcomes *)

Lemma all_known_incl (M : map_t T) (E : set_t T) :
  all_known M E = true <-> incl E (map fst M).
Proof.
  unfold all_known, incl. rewrite forallb_forall.
  split; intros Hk o Ho; apply is_key_In; auto.
Qed.

Lemma all_known_foreign (M : map_t T) (E : set_t T) :
  all_known M E = false <-> foreign M E.
Proof.
  unfold all_known, foreign. induction E as [|o E IH]; simpl.
  - split; [discriminate|]. now intros [o [[] _]].
  - rewrite andb_false_iff, IH. split.
    + intros [Hk|[o' [Hin Hn]]].
      * exists o. split; [now left|]. rewrite <- is_key_In. congruence.
      * exists o'. split; [now right|assumption].
    + intros [o' [[->|Hin] Hn]].
      * left. rewrite <- is_key_In in Hn. now destruct (is_key M o').
      * right. now exists o'.
Qed.

Lemma filter_is_key_known (M : map_t T) (E : set_t T) :
  all_known M E = true -> filter (is_key M) E = E.
Proof.
  unfold all_known. induction E as [|o E IH]; simpl; [reflexivity|].
  intros Hk. apply andb_true_iff in Hk as [-> Hk]. now rewrite IH.
Qed.

Lemma sorted_filter (f : T -> bool) (l : list T) :
  sorted l = true -> sorted (filter f l) = true.
Proof.
  induction l as [|x l IH]; [reflexivity|]. intros Hs.
  apply sorted_cons in Hs as [Hb Hs]. simpl.
  destruct (f x); [|now apply IH].
  apply sorted_cons. split; [|now apply IH].
  unfold below in *. rewrite Forall_forall in *.
  intros y Hy. apply filter_In in Hy as [Hy _]. now apply Hb.
Qed.

Lemma event_mass_filter (M : map_t T) (E : set_t T) :
  event_mass M (filter (is_key M) E) = event_mass M E.
Proof.
  unfold event_mass. f_equal. f_equal.
  induction E as [|o E IH]; simpl; [reflexivity|].
  destruct (is_key M o) eqn:Hk; simpl; [|exact IH].
  now rewrite Hk, IH.
Qed.

Lemma masses_skip_head (k : T) (v : float) (M : map_t T) (l : list T) :
  below k l ->
  map (mass ((k, v) :: M)) (filter (is_key ((k, v) :: M)) l) =
  map (mass M) (filter (is_key M) l).
Proof.
  unfold below. induction l as [|o l IH]; [reflexivity|].
  intros Hb. inversion Hb as [|? ? Hko Hb']; subst.
  cbn [filter]. rewrite !find_is_key, (find_tail k o v M Hko).
  destruct (find M o) as [p|] eqn:Hf.
  - cbn [map]. unfold mass at 1 3. rewrite (find_tail k o v M Hko), Hf.
    f_equal. now apply IH.
  - now apply IH.
Qed.

(** The masses of the keys, in key order, are the mapped values. *)
Lemma masses_of_keys (M : map_t T) :
  map_wf M ->
  map (mass M) (filter (is_key M) (map fst M)) = map snd M.
Proof.
  unfold map_wf. induction M as [|[k v] M IH]; [reflexivity|].
  change (map fst ((k, v) :: M)) with (k :: map fst M).
  intros Hs. apply sorted_cons in Hs as [Hb Hs].
  cbn [filter]. rewrite find_is_key, find_head.
  cbn [map snd]. unfold mass at 1. rewrite find_head. f_equal.
  rewrite (masses_skip_head v M Hb). now apply IH.
Qed.

Lemma event_mass_keys (M : map_t T) :
  map_wf M -> event_mass M (map fst M) = total_mass M.
Proof.
  intros HM. unfold event_mass, total_mass. now rewrite masses_of_keys.
Qed.

Lemma all_known_keys (M : map_t T) : all_known M (map fst M) = true.
Proof. apply all_known_incl. apply incl_refl. Qed.

End QueryFacts.

(** * What a method does to the object, and what it throws *)

Section Frames.
Context {T : Type} `{Ordered T}.

Lemma frames_bind {A B} (c : method T A) (k : A -> method T B) :
  frames c -> (forall a, frames (k a)) -> frames (bind c k).
Proof.
  intros Hc Hk s. unfold bind. specialize (Hc s).
  destruct (c s) as [[a|e] s']; simpl in *; subst; [apply Hk|reflexivity].
Qed.

Lemma throws_only_bind {A B} (P : exn -> Prop) (c : method T A) (k : A -> method T B) :
  frames c -> throws_only P c -> (forall a, throws_only P (k a)) ->
  throws_only P (bind c k).
Proof.
  intros Hf Hc Hk s e. unfold bind. specialize (Hc s). specialize (Hf s).
  destruct (c s) as [[a|e'] s']; simpl in *.
  - apply Hk.
  - intros E. apply Hc. congruence.
Qed.

Lemma throws_only_weaken {A} (P Q : exn -> Prop) (m : method T A) :
  (forall e, P e -> Q e) -> throws_only P m -> throws_only Q m.
Proof. intros HPQ Hm s e He. apply HPQ. now apply (Hm s). Qed.

Lemma isSubset_frames (E : set_t T) : frames (isSubset E).
Proof.
  intros s. unfold isSubset, bind, member, ret, throw. simpl.
  now destruct (negb (ignoreUnknown s) && negb (includes (events s) E)).
Qed.

Lemma isSubset_throws (E : set_t T) :
  throws_only (eq unknown_outcome) (isSubset E).
Proof.
  intros s e. unfold isSubset, bind, member, ret, throw. simpl.
  destruct (negb (ignoreUnknown s) && negb (includes (events s) E));
    intros E'; [now injection E' as <-|discriminate].
Qed.

Lemma calculator_loop_frames (E : list T) (total : float) :
  frames (calculator_loop E total).
Proof. intros s. now rewrite calculator_loop_run. Qed.

Lemma calculator_loop_throws (E : list T) (total : float) :
  throws_only (eq unknown_outcome) (calculator_loop E total).
Proof.
  intros s e. rewrite calculator_loop_run.
  destruct (accepts s E); intros E'; [discriminate|now injection E' as <-].
Qed.

Lemma probabilityCalculator_frames (E : set_t T) :
  frames (probabilityCalculator E).
Proof.
  apply frames_bind; [apply isSubset_frames|].
  intros _. apply calculator_loop_frames.
Qed.

Lemma probabilityCalculator_throws (E : set_t T) :
  throws_only (eq unknown_outcome) (probabilityCalculator E).
Proof.
  apply throws_only_bind;
    [apply isSubset_frames|apply isSubset_throws|].
  intros _. apply calculator_loop_throws.
Qed.

Lemma ret_frames {A} (a : A) : frames (ret a : method T A).
Proof. now intros s. Qed.

Lemma throw_frames {A} (e : exn) : frames (throw e : method T A).
Proof. now intros s. Qed.

Lemma ret_throws {A} (P : exn -> Prop) (a : A) :
  throws_only P (ret a : method T A).
Proof. intros s e. discriminate. Qed.

Lemma complement_frames (E : set_t T) : frames (complement E).
Proof.
  apply frames_bind; [apply probabilityCalculator_frames|].
  intros p. apply ret_frames.
Qed.

Lemma complement_throws (E : set_t T) :
  throws_only (eq unknown_outcome) (complement E).
Proof.
  apply throws_only_bind;
    [apply probabilityCalculator_frames|apply probabilityCalculator_throws|].
  intros p. apply ret_throws.
Qed.

Lemma unionEvents_frames (A B : set_t T) : frames (unionEvents A B).
Proof.
  apply frames_bind; [apply isSubset_frames|]. intros _.
  apply frames_bind; [apply isSubset_frames|]. intros _.
  apply probabilityCalculator_frames.
Qed.

Lemma unionEvents_throws (A B : set_t T) :
  throws_only (eq unknown_outcome) (unionEvents A B).
Proof.
  apply throws_only_bind;
    [apply isSubset_frames|apply isSubset_throws|]. intros _.
  apply throws_only_bind;
    [apply isSubset_frames|apply isSubset_throws|]. intros _.
  apply probabilityCalculator_throws.
Qed.

Lemma intersectionEvents_frames (A B : set_t T) :
  frames (intersectionEvents A B).
Proof.
  apply frames_bind; [apply isSubset_frames|]. intros _.
  apply frames_bind; [apply isSubset_frames|]. intros _.
  apply probabilityCalculator_frames.
Qed.

Lemma intersectionEvents_throws (A B : set_t T) :
  throws_only (eq unknown_outcome) (intersectionEvents A B).
Proof.
  apply throws_only_bind;
    [apply isSubset_frames|apply isSubset_throws|]. intros _.
  apply throws_only_bind;
    [apply isSubset_frames|apply isSubset_throws|]. intros _.
  apply probabilityCalculator_throws.
Qed.

Lemma conditionalProbability_frames (A B : set_t T) :
  frames (_conditionalProbability A B).
Proof.
  apply frames_bind; [apply isSubset_frames|]. intros _.
  apply frames_bind; [apply isSubset_frames|]. intros _.
  apply frames_bind; [apply probabilityCalculator_frames|]. intros probB.
  destruct (fneb probB 0); [|apply throw_frames].
  apply frames_bind; [apply intersectionEvents_frames|].
  intros p. apply ret_frames.
Qed.

Lemma conditionalProbability_throws (A B : set_t T) :
  throws_only (fun e => e = unknown_outcome \/ e = condition_on_zero)
    (_conditionalProbability A B).
Proof.
  assert (Hw : forall X (m : method T X),
             throws_only (eq unknown_outcome) m ->
             throws_only (fun e => e = unknown_outcome \/ e = condition_on_zero) m).
  { intros X m. apply throws_only_weaken. intros e <-. now left. }
  apply throws_only_bind;
    [apply isSubset_frames|apply Hw, isSubset_throws|]. intros _.
  apply throws_only_bind;
    [apply isSubset_frames|apply Hw, isSubset_throws|]. intros _.
  apply throws_only_bind;
    [apply probabilityCalculator_frames|apply Hw, probabilityCalculator_throws|].
  intros probB. destruct (fneb probB 0).
  - apply throws_only_bind;
      [apply intersectionEvents_frames|apply Hw, intersectionEvents_throws|].
    intros p. apply ret_throws.
  - intros s e. unfold throw. simpl. intros E. injection E as <-. now right.
Qed.

End Frames.

(** * Failures and sequences of calls *)

Section CallFacts.
Context {T : Type} `{Ordered T}.

Lemma fails_with_Throw {A} (k : error_kind) (e : exn) :
  fails_with k (Throw e : outcome A) <-> kind_of e = Some k.
Proof.
  unfold fails_with. split.
  - intros [e' [E Hk]]. now injection E as <-.
  - intros Hk. now exists e.
Qed.

Lemma fails_with_Return {A} (k : error_kind) (a : A) :
  ~ fails_with k (Return a).
Proof. intros [e [E _]]. discriminate. Qed.

Lemma fails_with_Return_iff {A} (k : error_kind) (a : A) :
  fails_with k (Return a) <-> False.
Proof. split; [apply fails_with_Return|contradiction]. Qed.

Lemma throws_Throw {A} (e : exn) :
  (exists e', (Throw e : outcome A) = Throw e') <-> True.
Proof. split; [trivial|]. intros _. now exists e. Qed.

Lemma throws_Return {A} (a : A) :
  (exists e', Return a = Throw e') <-> False.
Proof. split; [|contradiction]. intros [e E]. discriminate. Qed.

Lemma accepts_with_mode (M : map_t T) (s0 : ProbabilitySpace T)
  (mode : bool) (E : set_t T) :
  map_wf M -> construct M = Return s0 ->
  accepts (with_mode mode s0) E = mode || all_known M E.
Proof.
  intros HM Hc. destruct (construct_consistent mode HM Hc) as [_ [Hsp Hmode]].
  unfold accepts. now rewrite Hsp, Hmode.
Qed.

Lemma after_members (c : call) (s : ProbabilitySpace T) :
  space (after c s) = space s
  /\ events (after c s) = events s
  /\ ignoreUnknown (after c s)
     = match c with
       | call_setIgnoreUnknown mode => mode
       | _ => ignoreUnknown s
       end.
Proof.
  destruct c; unfold after, probabilityOfSet, complementOfEvent,
    unionOfEvents, intersectionOfEvents, conditionalProbability;
    rewrite ?probabilityCalculator_frames, ?complement_frames,
      ?unionEvents_frames, ?intersectionEvents_frames,
      ?conditionalProbability_frames; auto.
Qed.

Lemma after_all_members (cs : list call) (s : ProbabilitySpace T) :
  space (after_all cs s) = space s
  /\ events (after_all cs s) = events s
  /\ ignoreUnknown (after_all cs s) = last_mode_set cs (ignoreUnknown s).
Proof.
  revert s. induction cs as [|c cs IH]; intros s; [auto|].
  unfold after_all, last_mode_set in *. cbn [fold_left].
  destruct (IH (after c s)) as [IH1 [IH2 IH3]].
  destruct (after_members c s) as [H1 [H2 H3]].
  rewrite IH1, IH2, IH3, H1, H2, H3. auto.
Qed.

End CallFacts.

(** * Nested sets and events restricted to the sample space *)

Section NestedSets.
Context {T : Type} `{Ordered T}.

(** The union of a set with a set that includes it is the larger set. *)
Lemma set_union_incl (A B : list T) :
  sorted A = true -> sorted B = true -> incl A B -> set_union A B = B.
Proof.
  intros HA HB Hi. apply sorted_ext; [now apply set_union_sorted|exact HB|].
  intros x. rewrite set_union_In. split; [intros [Hx|Hx]; auto|auto].
Qed.

Lemma set_intersection_incl (A B : list T) :
  sorted A = true -> sorted B = true -> incl A B -> set_intersection A B = A.
Proof.
  intros HA HB Hi. apply sorted_ext; [now apply set_intersection_sorted|exact HA|].
  intros x. rewrite (set_intersection_In A B x HA HB). split; [tauto|auto].
Qed.

Lemma filter_set_union (f : T -> bool) (A B : list T) :
  sorted A = true -> sorted B = true ->
  filter f (set_union A B) = set_union (filter f A) (filter f B).
Proof.
  intros HA HB. apply sorted_ext.
  - apply sorted_filter. now apply set_union_sorted.
  - apply set_union_sorted; now apply sorted_filter.
  - intros x. rewrite filter_In, !set_union_In, !filter_In. tauto.
Qed.

Lemma filter_set_intersection (f : T -> bool) (A B : list T) :
  sorted A = true -> sorted B = true ->
  filter f (set_intersection A B)
  = set_intersection (filter f A) (filter f B).
Proof.
  intros HA HB. apply sorted_ext.
  - apply sorted_filter. now apply set_intersection_sorted.
  - apply set_intersection_sorted; now apply sorted_filter.
  - intros x.
    rewrite filter_In, (set_intersection_In A B x HA HB),
      (set_intersection_In _ _ x (sorted_filter f A HA) (sorted_filter f B HB)),
      !filter_In.
    tauto.
Qed.

Lemma set_intersection_subseq_l (A B : list T) :
  sorted A = true -> sorted B = true -> incl (set_intersection A B) A.
Proof. intros HA HB x Hx. now apply (set_intersection_In A B x HA HB) in Hx. Qed.

(** [std::map::find] gives back the value an entry holds. *)
Lemma find_In (M : map_t T) (k : T) (v : float) :
  map_wf M -> In (k, v) M -> find M k = Some v.
Proof.
  unfold map_wf. induction M as [|[k' v'] M IH]; intros HM Hin; [easy|].
  cbn [map fst] in HM. apply sorted_cons in HM. destruct HM as [Hb HM].
  destruct Hin as [E|Hin].
  - injection E as -> ->. apply find_head.
  - rewrite find_tail; [now apply IH|].
    unfold below in Hb. rewrite Forall_forall in Hb. apply Hb.
    apply (in_map fst) in Hin. exact Hin.
Qed.

Lemma find_Some_In (M : map_t T) (k : T) (v : float) :
  find M k = Some v -> In (k, v) M.
Proof.
  induction M as [|[k' v'] M IH]; [discriminate|]. simpl.
  destruct (equiv k' k) eqn:E.
  - apply equiv_eq in E. subst k'. intros [= ->]. now left.
  - intros Hf. right. now apply IH.
Qed.

End NestedSets.

Section KnownOutcomes.
Context {T : Type} `{Ordered T}.

Lemma all_known_filter (M : map_t T) (E : set_t T) :
  all_known M (filter (is_key M) E) = true.
Proof.
  unfold all_known. apply forallb_forall. intros x Hx.
  now apply filter_In in Hx.
Qed.

Lemma event_mass_union_filter (M : map_t T) (A B : set_t T) :
  set_wf A -> set_wf B ->
  event_mass M (set_union (filter (is_key M) A) (filter (is_key M) B))
  = event_mass M (set_union A B).
Proof.
  intros HA HB. rewrite <- (filter_set_union (is_key M) A B HA HB).
  apply event_mass_filter.
Qed.

Lemma event_mass_intersection_filter (M : map_t T) (A B : set_t T) :
  set_wf A -> set_wf B ->
  event_mass M (set_intersection (filter (is_key M) A) (filter (is_key M) B))
  = event_mass M (set_intersection A B).
Proof.
  intros HA HB. rewrite <- (filter_set_intersection (is_key M) A B HA HB).
  apply event_mass_filter.
Qed.

Lemma constructed_after_all (M : map_t T) (s0 : ProbabilitySpace T)
  (cs : list call) :
  map_wf M -> construct M = Return s0 ->
  consistent (after_all cs s0) /\ space (after_all cs s0) = M.
Proof.
  intros HM Hc. destruct (construct_Return M Hc) as [Hs0 _].
  destruct (after_all_members cs s0) as [Hsp [Hev _]].
  unfold consistent. rewrite Hsp, Hev, Hs0. cbn [space events].
  repeat split; [exact HM|now apply getKeys_wf].
Qed.

End KnownOutcomes.


(** * Facts about binary64

    The addition of doubles that are not negative is the rounding of the
    exact sum, and their order is the order of the exact values: read off
    the specification of binary64 in the Standard Library ([SpecFloat]). *)

Module Binary64Facts.
Import Binary64.
Local Open Scope Z_scope.
Unset Implicit Arguments.

(** ** Rounding a quotient to nearest, ties to even *)

Lemma rnd_shift_bounds (m k : Z) :
  0 <= k -> m / 2 ^ k <= rnd_shift m k <= m / 2 ^ k + 1.
Proof.
  intros Hk. unfold rnd_shift.
  destruct (2 * (m mod 2 ^ k) <? 2 ^ k); [lia|].
  destruct (2 * (m mod 2 ^ k) =? 2 ^ k); [|lia].
  destruct (Z.even (m / 2 ^ k)); lia.
Qed.

Lemma rnd_shift_mono (m1 m2 k : Z) :
  0 <= k -> m1 <= m2 -> rnd_shift m1 k <= rnd_shift m2 k.
Proof.
  intros Hk Hm.
  assert (HP : 0 < 2 ^ k) by (apply Z.pow_pos_nonneg; lia).
  assert (Hq : m1 / 2 ^ k <= m2 / 2 ^ k) by (apply Z.div_le_mono; lia).
  destruct (Z.eq_dec (m1 / 2 ^ k) (m2 / 2 ^ k)) as [E|NE].
  - assert (Hr : m1 mod 2 ^ k <= m2 mod 2 ^ k).
    { rewrite !Z.mod_eq by lia. rewrite E. lia. }
    unfold rnd_shift. rewrite E.
    repeat match goal with
           | |- context [?a <? ?b] => destruct (Z.ltb_spec a b)
           | |- context [?a =? ?b] => destruct (Z.eqb_spec a b)
           | |- context [Z.even ?a] => destruct (Z.even a)
           end; lia.
  - pose proof (rnd_shift_bounds m1 k Hk). pose proof (rnd_shift_bounds m2 k Hk).
    lia.
Qed.

Lemma rnd_shift_exact (m k : Z) :
  0 <= k -> m mod 2 ^ k = 0 -> rnd_shift m k = m / 2 ^ k.
Proof.
  intros Hk Hr. unfold rnd_shift. rewrite Hr.
  assert (HP : 0 < 2 ^ k) by (apply Z.pow_pos_nonneg; lia).
  destruct (Z.ltb_spec (2 * 0) (2 ^ k)); [reflexivity|lia].
Qed.

Lemma rnd_shift_scale (m n j : Z) :
  0 <= n -> 0 <= j -> rnd_shift (m * 2 ^ j) (n + j) = rnd_shift m n.
Proof.
  intros Hn Hj. unfold rnd_shift.
  assert (HPn : 0 < 2 ^ n) by (apply Z.pow_pos_nonneg; lia).
  assert (HPj : 0 < 2 ^ j) by (apply Z.pow_pos_nonneg; lia).
  rewrite Z.pow_add_r by lia.
  rewrite Z.div_mul_cancel_r by lia.
  rewrite Z.mul_mod_distr_r by lia.
  replace (2 * (m mod 2 ^ n * 2 ^ j)) with ((2 * (m mod 2 ^ n)) * 2 ^ j) by ring.
  assert (Hlt : (2 * (m mod 2 ^ n) * 2 ^ j <? 2 ^ n * 2 ^ j) = (2 * (m mod 2 ^ n) <? 2 ^ n)).
  { destruct (Z.ltb_spec (2 * (m mod 2 ^ n)) (2 ^ n)); destruct (Z.ltb_spec (2 * (m mod 2 ^ n) * 2 ^ j) (2 ^ n * 2 ^ j)); try reflexivity; nia. }
  assert (Heq : (2 * (m mod 2 ^ n) * 2 ^ j =? 2 ^ n * 2 ^ j) = (2 * (m mod 2 ^ n) =? 2 ^ n)).
  { destruct (Z.eqb_spec (2 * (m mod 2 ^ n)) (2 ^ n)); destruct (Z.eqb_spec (2 * (m mod 2 ^ n) * 2 ^ j) (2 ^ n * 2 ^ j)); try reflexivity; nia. }
  now rewrite Hlt, Heq.
Qed.

Lemma digits2_pos_bounds (p : positive) :
  2 ^ (Zpos (digits2_pos p) - 1) <= Zpos p < 2 ^ Zpos (digits2_pos p).
Proof.
  induction p as [p IH|p IH|]; simpl digits2_pos.
  - rewrite Pos2Z.inj_succ.
    replace (Z.succ (Zpos (digits2_pos p)) - 1) with (Z.succ (Zpos (digits2_pos p) - 1)) by lia.
    rewrite !Z.pow_succ_r by lia. lia.
  - rewrite Pos2Z.inj_succ.
    replace (Z.succ (Zpos (digits2_pos p)) - 1) with (Z.succ (Zpos (digits2_pos p) - 1)) by lia.
    rewrite !Z.pow_succ_r by lia. lia.
  - simpl. lia.
Qed.

Lemma Zdigits2_bounds (n : Z) :
  0 < n -> 2 ^ (Zdigits2 n - 1) <= n < 2 ^ Zdigits2 n.
Proof.
  destruct n as [|p|p]; try lia. intros _. apply digits2_pos_bounds.
Qed.

Lemma Zdigits2_nonneg (n : Z) : 0 <= Zdigits2 n.
Proof. destruct n; simpl; lia. Qed.

Lemma Zdigits2_pos (n : Z) : 0 < n -> 0 < Zdigits2 n.
Proof. destruct n; simpl; lia. Qed.

(** [d] is the number of digits of [n] as soon as [n] is between the two
    powers. *)
Lemma Zdigits2_unique (n d : Z) :
  0 < d -> 2 ^ (d - 1) <= n < 2 ^ d -> Zdigits2 n = d.
Proof.
  intros Hd [Hlo Hhi].
  assert (Hn : 0 < n).
  { assert (0 < 2 ^ (d - 1)) by (apply Z.pow_pos_nonneg; lia). lia. }
  destruct (Zdigits2_bounds n Hn) as [Hlo' Hhi'].
  pose proof (Zdigits2_pos n Hn) as Hp.
  destruct (Z.lt_trichotomy (Zdigits2 n) d) as [Hlt|[E|Hgt]]; [|exact E|].
  - assert (2 ^ Zdigits2 n <= 2 ^ (d - 1)) by (apply Z.pow_le_mono_r; lia). lia.
  - assert (2 ^ d <= 2 ^ (Zdigits2 n - 1)) by (apply Z.pow_le_mono_r; lia). lia.
Qed.

Lemma Zdigits2_mono (n1 n2 : Z) :
  0 <= n1 <= n2 -> Zdigits2 n1 <= Zdigits2 n2.
Proof.
  intros [H0 H12]. destruct (Z.eq_dec n1 0) as [->|Hn]; [apply Zdigits2_nonneg|].
  destruct (Zdigits2_bounds n1 ltac:(lia)) as [Hlo1 _].
  destruct (Zdigits2_bounds n2 ltac:(lia)) as [_ Hhi2].
  destruct (Z.le_gt_cases (Zdigits2 n1) (Zdigits2 n2)) as [|Hgt]; [assumption|].
  assert (2 ^ Zdigits2 n2 <= 2 ^ (Zdigits2 n1 - 1)).
  { apply Z.pow_le_mono_r; [lia|]. lia. }
  lia.
Qed.

Lemma drop_nonneg (N : Z) : 0 <= drop N.
Proof. unfold drop. lia. Qed.

Lemma round53_upper (N : Z) : 0 < N -> round53 N <= 2 ^ Zdigits2 N.
Proof.
  intros HN. unfold round53.
  pose proof (drop_nonneg N) as Hk.
  destruct (Zdigits2_bounds N HN) as [_ Hhi].
  pose proof (Zdigits2_pos N HN) as Hd.
  assert (Hkd : drop N <= Zdigits2 N) by (unfold drop; lia).
  assert (HP : 0 < 2 ^ drop N) by (apply Z.pow_pos_nonneg; lia).
  assert (Hsplit : 2 ^ Zdigits2 N = 2 ^ (Zdigits2 N - drop N) * 2 ^ drop N).
  { rewrite <- Z.pow_add_r by lia. f_equal. lia. }
  assert (Hq : N / 2 ^ drop N < 2 ^ (Zdigits2 N - drop N)).
  { apply Z.div_lt_upper_bound; [lia|]. rewrite Z.mul_comm. lia. }
  pose proof (rnd_shift_bounds N (drop N) Hk). rewrite Hsplit. nia.
Qed.

Lemma round53_lower (N : Z) : 0 < N -> 2 ^ (Zdigits2 N - 1) <= round53 N.
Proof.
  intros HN. unfold round53.
  pose proof (drop_nonneg N) as Hk.
  destruct (Zdigits2_bounds N HN) as [Hlo _].
  pose proof (Zdigits2_pos N HN) as Hd.
  assert (Hkd : drop N <= Zdigits2 N - 1) by (unfold drop; lia).
  assert (HP : 0 < 2 ^ drop N) by (apply Z.pow_pos_nonneg; lia).
  assert (Hsplit : 2 ^ (Zdigits2 N - 1) = 2 ^ (Zdigits2 N - 1 - drop N) * 2 ^ drop N).
  { rewrite <- Z.pow_add_r by lia. f_equal. lia. }
  assert (Hq : 2 ^ (Zdigits2 N - 1 - drop N) <= N / 2 ^ drop N).
  { apply Z.div_le_lower_bound; [lia|]. rewrite Z.mul_comm. lia. }
  pose proof (rnd_shift_bounds N (drop N) Hk). rewrite Hsplit. nia.
Qed.

Lemma round53_0 : round53 0 = 0.
Proof. reflexivity. Qed.

Lemma round53_nonneg (N : Z) : 0 <= N -> 0 <= round53 N.
Proof.
  intros HN. destruct (Z.eq_dec N 0) as [->|Hn]; [now rewrite round53_0|].
  pose proof (round53_lower N ltac:(lia)).
  assert (0 < 2 ^ (Zdigits2 N - 1)).
  { apply Z.pow_pos_nonneg; [lia|]. pose proof (Zdigits2_pos N ltac:(lia)). lia. }
  lia.
Qed.

Lemma round53_mono (N1 N2 : Z) :
  0 <= N1 <= N2 -> round53 N1 <= round53 N2.
Proof.
  intros [H0 H12].
  destruct (Z.eq_dec N1 0) as [->|Hn1].
  { rewrite round53_0. apply round53_nonneg. lia. }
  pose proof (Zdigits2_mono N1 N2 ltac:(lia)) as Hd.
  destruct (Z.eq_dec (drop N1) (drop N2)) as [E|NE].
  - unfold round53. rewrite E.
    pose proof (drop_nonneg N2) as Hk.
    assert (HP : 0 < 2 ^ drop N2) by (apply Z.pow_pos_nonneg; lia).
    pose proof (rnd_shift_mono N1 N2 (drop N2) Hk H12). nia.
  - assert (Hlt : Zdigits2 N1 < Zdigits2 N2) by (unfold drop in NE; lia).
    pose proof (round53_upper N1 ltac:(lia)).
    pose proof (round53_lower N2 ltac:(lia)).
    assert (2 ^ Zdigits2 N1 <= 2 ^ (Zdigits2 N2 - 1)).
    { apply Z.pow_le_mono_r; lia. }
    lia.
Qed.

(** A number that has at most 53 digits above its trailing zeros is kept. *)
Lemma round53_exact (N : Z) :
  0 <= N -> N mod 2 ^ drop N = 0 -> round53 N = N.
Proof.
  intros HN Hr. unfold round53.
  pose proof (drop_nonneg N) as Hk.
  assert (HP : 0 < 2 ^ drop N) by (apply Z.pow_pos_nonneg; lia).
  rewrite (rnd_shift_exact N (drop N) Hk Hr).
  pose proof (Z.div_mod N (2 ^ drop N) ltac:(lia)). lia.
Qed.

(** ** Shifting with a round and a sticky bit *)

Lemma iter_pos_comm {A} (f : A -> A) (p : positive) (x : A) :
  iter_pos f p (f x) = f (iter_pos f p x).
Proof.
  revert x. induction p as [p IH|p IH|]; intros x; simpl.
  - now rewrite !IH.
  - now rewrite !IH.
  - reflexivity.
Qed.

Lemma iter_pos_succ {A} (f : A -> A) (p : positive) (x : A) :
  iter_pos f (Pos.succ p) x = f (iter_pos f p x).
Proof.
  revert x. induction p as [p IH|p IH|]; intros x; simpl.
  - rewrite !IH. now rewrite <- !iter_pos_comm.
  - now rewrite <- !iter_pos_comm.
  - reflexivity.
Qed.

Lemma shr_1_nonneg (mrs : shr_record) :
  0 <= shr_m mrs ->
  shr_1 mrs = {| shr_m := shr_m mrs / 2;
                 shr_r := Z.odd (shr_m mrs);
                 shr_s := shr_r mrs || shr_s mrs |}.
Proof.
  destruct mrs as [m r s]. simpl. intros Hm.
  rewrite <- Z.div2_div.
  destruct m as [|[p|p|]|p]; try reflexivity. lia.
Qed.

Lemma shifted_0 (m : Z) :
  shifted m 0 = {| shr_m := m; shr_r := false; shr_s := false |}.
Proof.
  unfold shifted. rewrite Z.pow_0_r, Z.div_1_r, Z.mod_1_r. reflexivity.
Qed.

Lemma shifted_succ (m k : Z) :
  0 <= m -> 0 <= k -> shr_1 (shifted m k) = shifted m (Z.succ k).
Proof.
  intros Hm Hk.
  assert (HP : 0 < 2 ^ k) by (apply Z.pow_pos_nonneg; lia).
  rewrite shr_1_nonneg by (simpl; apply Z.div_pos; lia).
  unfold shifted. cbn [shr_m shr_r shr_s].
  rewrite Z.pow_succ_r by lia.
  pose proof (Z.div_mod m (2 ^ k) ltac:(lia)) as Hdm.
  pose proof (Z.mod_pos_bound m (2 ^ k) HP) as Hr.
  set (q := m / 2 ^ k) in *. set (r := m mod 2 ^ k) in *.
  pose proof (Z.div_mod q 2 ltac:(lia)) as Hq.
  pose proof (Z.mod_pos_bound q 2 ltac:(lia)) as Hb.
  assert (Hdiv : m / (2 * 2 ^ k) = q / 2).
  { rewrite (Z.mul_comm 2). rewrite <- Z.div_div by lia. reflexivity. }
  assert (Hmod : m mod (2 * 2 ^ k) = (q mod 2) * 2 ^ k + r).
  { rewrite (Z.mul_comm 2). rewrite Z.rem_mul_r by lia. fold q r. ring. }
  rewrite Hdiv, Hmod, Zodd_mod.
  assert (Hb' : q mod 2 = 0 \/ q mod 2 = 1) by lia.
  destruct Hb' as [-> | ->]; rewrite ?Z.mul_0_l, ?Z.mul_1_l; f_equal;
    repeat match goal with
      | |- context [?a <=? ?b] => destruct (Z.leb_spec a b)
      | |- context [?a =? ?b] => destruct (Z.eqb_spec a b)
      end; simpl; try reflexivity; lia.
Qed.

Lemma iter_shr_1 (m : Z) (p : positive) :
  0 <= m ->
  iter_pos shr_1 p {| shr_m := m; shr_r := false; shr_s := false |}
  = shifted m (Zpos p).
Proof.
  intros Hm. induction p as [|p IH] using Pos.peano_ind.
  - change (iter_pos shr_1 1 ?x) with (shr_1 x).
    rewrite <- shifted_0. apply (shifted_succ m 0); lia.
  - rewrite iter_pos_succ, IH, Pos2Z.inj_succ. apply shifted_succ; lia.
Qed.

Lemma round_shifted (m k : Z) :
  0 <= m -> 0 <= k ->
  round_nearest_even (shr_m (shifted m k)) (loc_of_shr_record (shifted m k))
  = rnd_shift m k.
Proof.
  intros Hm Hk.
  assert (HP : 0 < 2 ^ k) by (apply Z.pow_pos_nonneg; lia).
  pose proof (Z.mod_pos_bound m (2 ^ k) HP) as Hr.
  unfold shifted, rnd_shift. cbn [shr_m loc_of_shr_record].
  set (q := m / 2 ^ k) in *. set (r := m mod 2 ^ k) in *.
  destruct (Z.leb_spec (2 ^ k) (2 * r));
    destruct (Z.eqb_spec r 0);
    destruct (Z.eqb_spec (2 * r) (2 ^ k));
    destruct (Z.ltb_spec (2 * r) (2 ^ k));
    simpl; try reflexivity; try lia.
Qed.

(** ** Rounding in binary64 *)

Lemma fexp64 (e : Z) : fexp prec emax e = Z.max (e - 53) (-1074).
Proof. reflexivity. Qed.

Lemma Zdigits2_shift (m j : Z) :
  0 < m -> 0 <= j -> Zdigits2 (m * 2 ^ j) = Zdigits2 m + j.
Proof.
  intros Hm Hj. pose proof (Zdigits2_pos m Hm) as Hd.
  destruct (Zdigits2_bounds m Hm) as [Hlo Hhi].
  assert (HP : 0 < 2 ^ j) by (apply Z.pow_pos_nonneg; lia).
  apply Zdigits2_unique; [lia|].
  replace (Zdigits2 m + j - 1) with ((Zdigits2 m - 1) + j) by lia.
  rewrite !Z.pow_add_r by lia. nia.
Qed.

Lemma shr_fexp_exact (m e : Z) :
  0 <= m ->
  let n := Z.max (fexp prec emax (Zdigits2 m + e) - e) 0 in
  shr_fexp prec emax m e loc_Exact = (shifted m n, e + n).
Proof.
  intros Hm n. unfold shr_fexp, shr. cbn [shr_record_of_loc].
  subst n. destruct (fexp prec emax (Zdigits2 m + e) - e) as [|p|p] eqn:Hn.
  - rewrite shifted_0. f_equal. simpl. lia.
  - rewrite iter_shr_1 by assumption. reflexivity.
  - rewrite shifted_0. f_equal. simpl. lia.
Qed.

Lemma top_pos : 0 < top.
Proof. unfold top. apply Z.pow_pos_nonneg; lia. Qed.

Lemma pow2_pos (k : Z) : 0 <= k -> 0 < 2 ^ k.
Proof. intros Hk. apply Z.pow_pos_nonneg; lia. Qed.

Lemma pow2_le (a b : Z) : 0 <= a <= b -> 2 ^ a <= 2 ^ b.
Proof. intros Hab. apply Z.pow_le_mono_r; lia. Qed.

Lemma pow2_add (a b : Z) : 0 <= a -> 0 <= b -> 2 ^ a * 2 ^ b = 2 ^ (a + b).
Proof. intros Ha Hb. now rewrite Z.pow_add_r. Qed.

(** A mantissa of at most 53 digits with an exponent in range is below
    infinity. *)
Lemma mant_below_top (m e : Z) :
  0 <= m < 2 ^ 53 -> -1074 <= e <= 971 -> m * 2 ^ (e + 1074) < top.
Proof.
  intros Hm He.
  assert (HP : 0 < 2 ^ (e + 1074)) by (apply pow2_pos; lia).
  apply Z.lt_le_trans with (2 ^ 53 * 2 ^ (e + 1074)).
  - apply Z.mul_lt_mono_pos_r; [exact HP|lia].
  - rewrite pow2_add by lia. unfold top. apply pow2_le. lia.
Qed.

(** A mantissa of 53 digits with an exponent above the range is not. *)
Lemma mant_above_top (m e : Z) :
  2 ^ 52 <= m -> 971 < e -> top <= m * 2 ^ (e + 1074).
Proof.
  intros Hm He.
  assert (HP : 0 < 2 ^ (e + 1074)) by (apply pow2_pos; lia).
  apply Z.le_trans with (2 ^ 52 * 2 ^ (e + 1074)).
  - rewrite pow2_add by lia. unfold top. apply pow2_le. lia.
  - apply Z.mul_le_mono_nonneg_r; [lia|exact Hm].
Qed.

(** The heart of it: rounding the natural number [m * 2^e] (in units of
    2^-1074) to a double. *)
Lemma binary_round_aux_val (sx : bool) (m : positive) (e : Z) :
  -1074 <= e <= fexp prec emax (Zpos (digits2_pos m) + e) ->
  let x := binary_round_aux prec emax sx (Zpos m) e loc_Exact in
  signed sx x = true /\ val x = round64 (Zpos m * 2 ^ (e + 1074)).
Proof.
  intros He x. subst x.
  set (d := Zpos (digits2_pos m)) in *.
  set (E := fexp prec emax (d + e)) in *.
  set (n := E - e).
  assert (HE : E = Z.max (d + e - 53) (-1074)) by (unfold E; now rewrite fexp64).
  destruct (digits2_pos_bounds m) as [Hlo Hhi]. fold d in Hlo, Hhi.
  assert (Hd : 0 < d) by (unfold d; lia).
  assert (Hn : 0 <= n) by (unfold n; lia).
  (* the first shift *)
  unfold binary_round_aux.
  rewrite (shr_fexp_exact (Zpos m) e) by lia.
  change (Zdigits2 (Zpos m)) with d. fold E.
  replace (Z.max (E - e) 0) with n by (unfold n; lia).
  replace (e + n) with E by (unfold n; lia).
  rewrite round_shifted by lia.
  set (q1 := rnd_shift (Zpos m) n).
  pose proof (rnd_shift_bounds (Zpos m) n Hn) as Hq1. fold q1 in Hq1.
  assert (HPn : 0 < 2 ^ n) by now apply pow2_pos.
  assert (Hq0 : 0 <= Zpos m / 2 ^ n) by (apply Z.div_pos; lia).
  assert (Hqhi : Zpos m / 2 ^ n < 2 ^ 53).
  { apply Z.div_lt_upper_bound; [lia|].
    rewrite <- Z.pow_add_r by lia.
    assert (2 ^ d <= 2 ^ (n + 53)) by (apply pow2_le; unfold n; lia). lia. }
  assert (Hqlo : -1074 < E -> 2 ^ 52 <= Zpos m / 2 ^ n).
  { intros HEn. apply Z.div_le_lower_bound; [lia|].
    rewrite <- Z.pow_add_r by lia.
    replace (n + 52) with (d - 1) by (unfold n; lia). lia. }
  (* the value that is being computed *)
  assert (Hval : round53 (Zpos m * 2 ^ (e + 1074)) = q1 * 2 ^ (E + 1074)).
  { unfold round53, drop. rewrite Zdigits2_shift by lia.
    change (Zdigits2 (Zpos m)) with d.
    replace (Z.max (d + (e + 1074) - 53) 0) with (n + (e + 1074))
      by (unfold n; lia).
    rewrite rnd_shift_scale by lia. fold q1.
    f_equal. f_equal. unfold n. lia. }
  unfold round64. rewrite Hval.
  (* the second shift *)
  rewrite (shr_fexp_exact q1 E) by lia.
  set (n2 := Z.max (fexp prec emax (Zdigits2 q1 + E) - E) 0).
  cbn [shr_m shifted].
  destruct (Z.eq_dec q1 0) as [Hz|Hnz].
  { (* rounded to zero *)
    rewrite Hz. rewrite Z.div_0_l by (apply Z.pow_nonzero; unfold n2; lia).
    simpl. split; [apply Bool.eqb_reflx|]. pose proof top_pos. lia. }
  assert (Hq1pos : 0 < q1) by lia.
  destruct (Z.eq_dec q1 (2 ^ 53)) as [Hfull|Hnfull].
  - (* the rounding carried into a 54th digit *)
    assert (Hn2 : n2 = 1).
    { unfold n2. rewrite fexp64, Hfull.
      replace (Zdigits2 (2 ^ 53)) with 54 by reflexivity. lia. }
    rewrite Hn2, Hfull.
    replace (2 ^ 53 / 2 ^ 1) with (Zpos (2 ^ 52)) by reflexivity.
    assert (Hsame : Zpos (2 ^ 52) * 2 ^ (E + 1 + 1074)
                    = 2 ^ 53 * 2 ^ (E + 1074)).
    { change (Zpos (2 ^ 52)) with (2 ^ 52).
      rewrite !pow2_add by lia. f_equal. lia. }
    destruct (Z.leb_spec (E + 1) (emax - prec)) as [Hfin|Hinf];
      change (emax - prec) with 971 in *.
    + split; [apply Bool.eqb_reflx|]. cbn [val]. rewrite Hsame.
      rewrite Z.min_l; [reflexivity|]. rewrite <- Hsame.
      apply Z.lt_le_incl, mant_below_top; [|lia].
      change (Zpos (2 ^ 52)) with (2 ^ 52). lia.
    + split; [apply Bool.eqb_reflx|]. cbn [val].
      rewrite Z.min_r; [reflexivity|]. rewrite <- Hsame.
      apply mant_above_top; [|lia].
      change (Zpos (2 ^ 52)) with (2 ^ 52). lia.
  - (* at most 53 digits *)
    assert (Hq1hi : q1 < 2 ^ 53) by lia.
    assert (Hdq : Zdigits2 q1 <= 53).
    { destruct (Zdigits2_bounds q1 Hq1pos) as [Hl _].
      destruct (Z.le_gt_cases (Zdigits2 q1) 53) as [|Hgt]; [assumption|].
      assert (2 ^ 53 <= 2 ^ (Zdigits2 q1 - 1)) by (apply pow2_le; lia). lia. }
    assert (Hn2 : n2 = 0) by (unfold n2; rewrite fexp64; lia).
    rewrite Hn2, Z.pow_0_r, Z.div_1_r, Z.add_0_r.
    destruct q1 as [|q1p|q1p] eqn:Hq1e; try lia.
    destruct (Z.leb_spec E (emax - prec)) as [Hfin|Hinf];
      change (emax - prec) with 971 in *.
    + split; [apply Bool.eqb_reflx|]. cbn [val].
      rewrite Z.min_l; [reflexivity|].
      apply Z.lt_le_incl, mant_below_top; lia.
    + split; [apply Bool.eqb_reflx|]. cbn [val].
      rewrite Z.min_r; [reflexivity|].
      apply mant_above_top; [|lia]. specialize (Hqlo ltac:(lia)). lia.
Qed.

Lemma pos_iter_xO (m d : positive) :
  Zpos (Pos.iter xO m d) = Zpos m * 2 ^ Zpos d.
Proof.
  induction d as [|d IH] using Pos.peano_ind.
  - simpl. lia.
  - rewrite Pos.iter_succ, Pos2Z.inj_succ, Z.pow_succ_r by lia.
    rewrite Pos2Z.inj_xO, IH. ring.
Qed.

Lemma shl_align_spec (m : positive) (e e' : Z) :
  snd (shl_align m e e') = Z.min e e'
  /\ Zpos (fst (shl_align m e e')) = Zpos m * 2 ^ (e - Z.min e e').
Proof.
  unfold shl_align. destruct (e' - e) as [|p|p] eqn:Hd; cbn [fst snd].
  - replace (Z.min e e') with e by lia.
    now rewrite Z.sub_diag, Z.pow_0_r, Z.mul_1_r.
  - replace (Z.min e e') with e by lia.
    now rewrite Z.sub_diag, Z.pow_0_r, Z.mul_1_r.
  - replace (Z.min e e') with e' by lia. split; [reflexivity|].
    rewrite pos_iter_xO. f_equal. f_equal. lia.
Qed.

Lemma binary_round_val (sx : bool) (m : positive) (e : Z) :
  -1074 <= e ->
  let x := binary_round prec emax sx m e in
  signed sx x = true /\ val x = round64 (Zpos m * 2 ^ (e + 1074)).
Proof.
  intros He x. subst x. unfold binary_round.
  set (E := fexp prec emax (Zpos (digits2_pos m) + e)).
  assert (HE : -1074 <= E) by (unfold E; rewrite fexp64; lia).
  destruct (shl_align_spec m e E) as [Hez Hmz].
  destruct (shl_align m e E) as [mz ez]. cbn [fst snd] in *.
  assert (Hsh : 0 <= e - ez) by lia.
  assert (Hdig : Zpos (digits2_pos mz) + ez = Zpos (digits2_pos m) + e).
  { change (Zpos (digits2_pos mz)) with (Zdigits2 (Zpos mz)).
    rewrite Hmz, <- Hez, Zdigits2_shift by lia.
    change (Zdigits2 (Zpos m)) with (Zpos (digits2_pos m)). lia. }
  destruct (binary_round_aux_val sx mz ez) as [Hnn Hv].
  { rewrite Hdig. fold E. lia. }
  split; [exact Hnn|]. rewrite Hv. f_equal.
  rewrite Hmz, <- Hez, <- Z.mul_assoc, <- Z.pow_add_r by lia.
  f_equal. f_equal. lia.
Qed.

Lemma signed_false_nonneg (x : spec_float) :
  signed false x = true -> nonneg x = true.
Proof. now destruct x as [[|]|[|]| |[|] m e]. Qed.

Lemma round64_0 : round64 0 = 0.
Proof. reflexivity. Qed.

Lemma binary_normalize_val (N e : Z) :
  0 <= N -> -1074 <= e ->
  let x := binary_normalize prec emax N e false in
  nonneg x = true /\ val x = round64 (N * 2 ^ (e + 1074)).
Proof.
  intros HN He. destruct N as [|p|p]; try lia.
  - simpl. split; reflexivity.
  - destruct (binary_round_val false p e He) as [Hs Hv].
    split; [|exact Hv]. now apply signed_false_nonneg.
Qed.

(** *** Valid doubles *)

Lemma valid_finite (s : bool) (m : positive) (e : Z) :
  valid_binary (S754_finite s m e) = true ->
  -1074 <= e <= 971
  /\ Zpos (digits2_pos m) <= 53
  /\ (-1074 < e -> Zpos (digits2_pos m) = 53).
Proof.
  unfold SpecFloat.valid_binary, bounded, canonical_mantissa.
  rewrite andb_true_iff, Z.eqb_eq, Z.leb_le, fexp64.
  change (emax - prec) with 971. lia.
Qed.

Lemma val_finite_bounds (s : bool) (m : positive) (e : Z) :
  valid_binary (S754_finite s m e) = true ->
  0 < val (S754_finite s m e) < top.
Proof.
  intros Hv. apply valid_finite in Hv as [He [Hd _]]. cbn [val].
  destruct (digits2_pos_bounds m) as [_ Hhi].
  assert (2 ^ Zpos (digits2_pos m) <= 2 ^ 53) by (apply pow2_le; lia).
  assert (0 < 2 ^ (e + 1074)) by (apply pow2_pos; lia).
  split; [apply Z.mul_pos_pos; lia|apply mant_below_top; lia].
Qed.

Lemma val_nonneg (x : spec_float) : 0 <= val x.
Proof.
  destruct x as [s|s| |s m e]; cbn [val]; pose proof top_pos; lia.
Qed.

Lemma val_le_top (x : spec_float) : valid_binary x = true -> val x <= top.
Proof.
  destruct x as [s|s| |s m e]; intros Hv; cbn [val];
    try (pose proof top_pos; lia).
  pose proof (val_finite_bounds s m e Hv). cbn [val] in *. lia.
Qed.

(** A double is its own rounding. *)
Lemma round64_val (x : spec_float) :
  valid_binary x = true -> round64 (val x) = val x.
Proof.
  destruct x as [s|s| |s m e]; intros Hv; cbn [val]; try reflexivity.
  pose proof (val_finite_bounds s m e Hv) as Hb. cbn [val] in Hb.
  apply valid_finite in Hv as [He [Hd Hn]].
  unfold round64. rewrite round53_exact; [lia|lia|].
  unfold drop. rewrite Zdigits2_shift by lia.
  change (Zdigits2 (Zpos m)) with (Zpos (digits2_pos m)).
  destruct (Z.eq_dec e (-1074)) as [->|Hne].
  - replace (Z.max (Zpos (digits2_pos m) + (-1074 + 1074) - 53) 0) with 0 by lia.
    now rewrite Z.pow_0_r, Z.mod_1_r.
  - rewrite Hn by lia.
    replace (Z.max (53 + (e + 1074) - 53) 0) with (e + 1074) by lia.
    apply Z.mod_mul. apply Z.pow_nonzero; lia.
Qed.

Lemma round64_mono (N1 N2 : Z) : 0 <= N1 <= N2 -> round64 N1 <= round64 N2.
Proof.
  intros H. unfold round64. pose proof (round53_mono N1 N2 H). lia.
Qed.

Lemma round53_top : round53 top = top.
Proof.
  apply round53_exact; [apply Z.lt_le_incl, top_pos|].
  assert (Hd : Zdigits2 top = 2099).
  { unfold top. rewrite <- (Z.mul_1_l (2 ^ 2098)).
    now rewrite Zdigits2_shift by lia. }
  unfold drop. rewrite Hd. change (Z.max (2099 - 53) 0) with 2046.
  unfold top. change 2098 with (52 + 2046).
  rewrite Z.pow_add_r by lia. apply Z.mod_mul. apply Z.pow_nonzero; lia.
Qed.

Lemma round64_top (N : Z) : top <= N -> round64 N = top.
Proof.
  intros HN. unfold round64. apply Z.min_r.
  rewrite <- round53_top at 1. apply round53_mono.
  split; [apply Z.lt_le_incl, top_pos|exact HN].
Qed.

(** *** Addition of doubles that are not negative *)

Lemma SF64add_val (x y : spec_float) :
  valid_binary x = true -> valid_binary y = true ->
  nonneg x = true -> nonneg y = true ->
  nonneg (SF64add x y) = true
  /\ val (SF64add x y) = round64 (val x + val y).
Proof.
  intros Vx Vy Nx Ny.
  destruct x as [sx|[|]| |[|] mx ex]; try discriminate Nx;
    destruct y as [sy|[|]| |[|] my ey]; try discriminate Ny;
    clear Nx Ny;
    match goal with
    | |- context [SF64add ?x ?y] =>
        pose proof (val_nonneg x) as Px; pose proof (val_nonneg y) as Py;
        pose proof (round64_val x Vx) as Rx;
        pose proof (round64_val y Vy) as Ry
    end;
    pose proof top_pos as Ht;
    unfold SF64add, SFadd.
  - split; [now destruct sx, sy|]. now destruct sx, sy.
  - split; [reflexivity|]. cbn [val]. symmetry. apply round64_top. lia.
  - split; [reflexivity|]. cbn [val] in *. now rewrite Z.add_0_l, Ry.
  - split; [reflexivity|]. cbn [val]. symmetry. apply round64_top. lia.
  - split; [reflexivity|]. cbn [val]. symmetry. apply round64_top. lia.
  - split; [reflexivity|]. cbn [val] in *. symmetry. apply round64_top. lia.
  - split; [reflexivity|]. cbn [val] in *. now rewrite Z.add_0_r, Rx.
  - split; [reflexivity|]. cbn [val] in *. symmetry. apply round64_top. lia.
  - clear Px Py Rx Ry.
    (* two finite doubles *)
    cbn [cond_Zopp].
    apply valid_finite in Vx as [Hex _]. apply valid_finite in Vy as [Hey _].
    destruct (shl_align_spec mx ex (Z.min ex ey)) as [_ Hx].
    destruct (shl_align_spec my ey (Z.min ex ey)) as [_ Hy].
    replace (Z.min ex (Z.min ex ey)) with (Z.min ex ey) in Hx by lia.
    replace (Z.min ey (Z.min ex ey)) with (Z.min ex ey) in Hy by lia.
    set (ez := Z.min ex ey) in *.
    destruct (binary_normalize_val
                (Zpos (fst (shl_align mx ex ez)) + Zpos (fst (shl_align my ey ez)))
                ez) as [Hnn Hv]; [lia|lia|].
    split; [exact Hnn|]. rewrite Hv. f_equal. cbn [val].
    rewrite Hx, Hy, Z.mul_add_distr_r, <- !Z.mul_assoc, <- !Z.pow_add_r by lia.
    f_equal; f_equal; f_equal; lia.
Qed.

(** *** Comparison of doubles that are not negative *)

Lemma val_finite_lt (m1 m2 : positive) (e1 e2 : Z) :
  valid_binary (S754_finite false m1 e1) = true ->
  valid_binary (S754_finite false m2 e2) = true ->
  e1 < e2 ->
  val (S754_finite false m1 e1) < val (S754_finite false m2 e2).
Proof.
  intros V1 V2 He. cbn [val].
  apply valid_finite in V1 as [He1 [Hd1 _]].
  apply valid_finite in V2 as [He2 [_ Hd2]]. specialize (Hd2 ltac:(lia)).
  destruct (digits2_pos_bounds m1) as [_ Hhi].
  destruct (digits2_pos_bounds m2) as [Hlo _]. rewrite Hd2 in Hlo.
  assert (H1 : 2 ^ Zpos (digits2_pos m1) <= 2 ^ 53) by (apply pow2_le; lia).
  assert (H2 : 2 ^ (e1 + 1074) * 2 <= 2 ^ (e2 + 1074)).
  { replace (e2 + 1074) with ((e1 + 1074) + 1 + (e2 - e1 - 1)) by lia.
    rewrite (Z.pow_add_r 2 (e1 + 1074 + 1)), (Z.pow_add_r 2 (e1 + 1074) 1)
      by lia.
    assert (0 < 2 ^ (e2 - e1 - 1)) by (apply pow2_pos; lia).
    assert (0 < 2 ^ (e1 + 1074)) by (apply pow2_pos; lia).
    change (2 ^ 1) with 2. nia. }
  assert (0 < 2 ^ (e1 + 1074)) by (apply pow2_pos; lia).
  change (2 ^ 53) with (2 ^ 52 * 2) in H1. change (53 - 1) with 52 in Hlo.
  nia.
Qed.

Lemma SFcompare_val (x y : spec_float) :
  valid_binary x = true -> valid_binary y = true ->
  nonneg x = true -> nonneg y = true ->
  SFcompare x y = Some (val x ?= val y).
Proof.
  intros Vx Vy Nx Ny.
  destruct x as [sx|[|]| |[|] mx ex]; try discriminate Nx;
    destruct y as [sy|[|]| |[|] my ey]; try discriminate Ny;
    clear Nx Ny; cbn [SFcompare]; f_equal; symmetry.
  - apply (proj2 (Z.compare_lt_iff _ _)).
    apply (val_finite_bounds false my ey Vy).
  - apply (proj2 (Z.compare_gt_iff _ _)).
    apply (val_finite_bounds false my ey Vy).
  - apply (proj2 (Z.compare_gt_iff _ _)).
    apply (val_finite_bounds false mx ex Vx).
  - apply (proj2 (Z.compare_lt_iff _ _)).
    apply (val_finite_bounds false mx ex Vx).
  - destruct (Z.compare_spec ex ey) as [E|Hlt|Hgt].
    + subst ey. cbn [val].
      assert (HP : 0 < 2 ^ (ex + 1074))
        by (apply pow2_pos; apply valid_finite in Vx; lia).
      change (Pos.compare_cont Eq mx my) with (Zpos mx ?= Zpos my).
      destruct (Z.compare_spec (Zpos mx) (Zpos my)) as [E|L|G].
      * rewrite E. apply Z.compare_refl.
      * apply (proj2 (Z.compare_lt_iff _ _)). nia.
      * apply (proj2 (Z.compare_gt_iff _ _)). nia.
    + apply (proj2 (Z.compare_lt_iff _ _)). now apply val_finite_lt.
    + apply (proj2 (Z.compare_gt_iff _ _)). now apply val_finite_lt.
Qed.

(** ** Doubles that are not negative, as primitive floats *)

Lemma add_nonneg (x y : float) :
  fnonneg x = true -> fnonneg y = true ->
  fnonneg (x + y) = true /\ fval (x + y) = round64 (fval x + fval y).
Proof.
  unfold fnonneg, fval. rewrite add_spec.
  apply SF64add_val; apply Prim2SF_valid.
Qed.

Lemma leb_nonneg (x y : float) :
  fnonneg x = true -> fnonneg y = true ->
  (x <=? y)%float = (fval x <=? fval y).
Proof.
  unfold fnonneg, fval. intros Nx Ny. rewrite leb_spec. unfold SFleb.
  rewrite (SFcompare_val _ _ (Prim2SF_valid x) (Prim2SF_valid y) Nx Ny).
  unfold Z.leb. now destruct (val (Prim2SF x) ?= val (Prim2SF y)).
Qed.

Lemma ltb_nonneg (x y : float) :
  fnonneg x = true -> fnonneg y = true ->
  (x <? y)%float = (fval x <? fval y).
Proof.
  unfold fnonneg, fval. intros Nx Ny. rewrite ltb_spec. unfold SFltb.
  rewrite (SFcompare_val _ _ (Prim2SF_valid x) (Prim2SF_valid y) Nx Ny).
  unfold Z.ltb. now destruct (val (Prim2SF x) ?= val (Prim2SF y)).
Qed.

Lemma SFcompare_refl (x : spec_float) :
  SFcompare x x = match x with S754_nan => None | _ => Some Eq end.
Proof.
  destruct x as [s|[|]| |[|] m e]; try reflexivity; cbn [SFcompare];
    rewrite Z.compare_refl;
    change (Pos.compare_cont Eq m m) with (Pos.compare m m);
    now rewrite Pos.compare_refl.
Qed.

Lemma is_nan_Prim2SF (x : float) :
  is_nan x = true <-> Prim2SF x = S754_nan.
Proof.
  unfold is_nan. rewrite eqb_spec. unfold SFeqb. rewrite SFcompare_refl.
  destruct (Prim2SF x); simpl; split; congruence.
Qed.

Lemma Prim2SF_zero : Prim2SF 0 = S754_zero false.
Proof. reflexivity. Qed.

(** The masses that the validation lets through, NaN apart. *)
Lemma fnonneg_iff (v : float) :
  fnonneg v = true <-> is_nan v = false /\ (v <? 0)%float = false.
Proof.
  unfold fnonneg. rewrite ltb_spec, Prim2SF_zero.
  assert (Hn := is_nan_Prim2SF v).
  destruct (is_nan v); destruct (Prim2SF v) as [s|[|]| |[|] m e];
    cbn; try tauto; try (split; [discriminate|intros [? ?]; discriminate]);
    try (destruct Hn as [Hn _]; specialize (Hn eq_refl); discriminate);
    try (destruct Hn as [_ Hn]; specialize (Hn eq_refl); discriminate).
Qed.

(** *** Subtraction of a smaller double *)

Lemma SF64sub_val (mx my : positive) (ex ey : Z) :
  let x := S754_finite false mx ex in
  let y := S754_finite false my ey in
  valid_binary x = true -> valid_binary y = true ->
  val y <= val x ->
  nonneg (SF64sub x y) = true
  /\ val (SF64sub x y) = round64 (val x - val y).
Proof.
  intros x y Vx Vy Hle. subst x y. unfold SF64sub, SFsub. cbn [cond_Zopp].
  apply valid_finite in Vx as [Hex _]. apply valid_finite in Vy as [Hey _].
  destruct (shl_align_spec mx ex (Z.min ex ey)) as [_ Hx].
  destruct (shl_align_spec my ey (Z.min ex ey)) as [_ Hy].
  replace (Z.min ex (Z.min ex ey)) with (Z.min ex ey) in Hx by lia.
  replace (Z.min ey (Z.min ex ey)) with (Z.min ex ey) in Hy by lia.
  set (ez := Z.min ex ey) in *.
  assert (HP : 0 < 2 ^ (ez + 1074)) by (apply pow2_pos; lia).
  assert (Hvx : Zpos mx * 2 ^ (ex + 1074)
                = Zpos (fst (shl_align mx ex ez)) * 2 ^ (ez + 1074)).
  { rewrite Hx, <- Z.mul_assoc, <- Z.pow_add_r by lia.
    f_equal. f_equal. lia. }
  assert (Hvy : Zpos my * 2 ^ (ey + 1074)
                = Zpos (fst (shl_align my ey ez)) * 2 ^ (ez + 1074)).
  { rewrite Hy, <- Z.mul_assoc, <- Z.pow_add_r by lia.
    f_equal. f_equal. lia. }
  cbn [val] in *. rewrite Hvx, Hvy in *.
  destruct (binary_normalize_val
              (Zpos (fst (shl_align mx ex ez)) - Zpos (fst (shl_align my ey ez)))
              ez) as [Hnn Hv]; [nia|lia|].
  split; [exact Hnn|]. rewrite Hv. f_equal. ring.
Qed.

(** A double that is not negative minus a finite one is not NaN. *)
Lemma SF64sub_not_nan (x : spec_float) (my : positive) (ey : Z) :
  let y := S754_finite false my ey in
  valid_binary x = true -> valid_binary y = true -> nonneg x = true ->
  nonneg (SFabs (SF64sub x y)) = true.
Proof.
  intros y Vx Vy Nx. subst y.
  destruct x as [sx|[|]| |[|] mx ex]; try discriminate Nx;
    unfold SF64sub, SFsub; try reflexivity.
  cbn [cond_Zopp].
  apply valid_finite in Vx as [Hex _]. apply valid_finite in Vy as [Hey _].
  set (ez := Z.min ex ey).
  assert (Hez : -1074 <= ez) by (unfold ez; lia).
  set (N := Zpos (fst (shl_align mx ex ez)) - Zpos (fst (shl_align my ey ez))).
  destruct N as [|p|p]; cbn [binary_normalize].
  - reflexivity.
  - destruct (binary_round_val false p ez Hez) as [Hs _].
    destruct (binary_round prec emax false p ez) as [[|]|[|]| |[|] m e];
      try discriminate Hs; reflexivity.
  - destruct (binary_round_val true p ez Hez) as [Hs _].
    destruct (binary_round prec emax true p ez) as [[|]|[|]| |[|] m e];
      try discriminate Hs; reflexivity.
Qed.

Lemma SFabs_val (x : spec_float) : val (SFabs x) = val x.
Proof. now destruct x. Qed.

Lemma SFabs_nonneg (x : spec_float) :
  nonneg x = true -> nonneg (SFabs x) = true.
Proof. now destruct x as [s|[|]| |[|] m e]. Qed.

(** *** The error of a rounding *)

Lemma rnd_shift_error (m k : Z) :
  0 <= k -> 2 * Z.abs (rnd_shift m k * 2 ^ k - m) <= 2 ^ k.
Proof.
  intros Hk. unfold rnd_shift.
  assert (HP : 0 < 2 ^ k) by (apply pow2_pos; lia).
  pose proof (Z.div_mod m (2 ^ k) ltac:(lia)) as Hdm.
  pose proof (Z.mod_pos_bound m (2 ^ k) HP) as Hr.
  set (P := 2 ^ k) in *. set (q := m / P) in *. set (r := m mod P) in *.
  destruct (Z.ltb_spec (2 * r) P); [nia|].
  destruct (Z.eqb_spec (2 * r) P); [destruct (Z.even q)|]; nia.
Qed.

Lemma ulp_one_pos : 0 < ulp_one.
Proof. apply pow2_pos. lia. Qed.

(** A sum below 2 is rounded by at most half of that gap. *)
Lemma round53_error (N : Z) :
  0 <= N -> Zdigits2 N <= 1075 -> 2 * Z.abs (round53 N - N) <= ulp_one.
Proof.
  intros HN Hd. unfold round53.
  pose proof (drop_nonneg N) as Hk.
  apply Z.le_trans with (2 ^ drop N).
  - now apply rnd_shift_error.
  - unfold ulp_one. apply pow2_le. unfold drop. lia.
Qed.

Lemma Zdigits2_below (N d : Z) : 0 <= d -> 0 <= N < 2 ^ d -> Zdigits2 N <= d.
Proof.
  intros Hd [H0 Hlt]. destruct (Z.eq_dec N 0) as [->|Hn]; [simpl; lia|].
  destruct (Zdigits2_bounds N ltac:(lia)) as [Hlo _].
  destruct (Z.le_gt_cases (Zdigits2 N) d) as [|Hgt]; [assumption|].
  assert (2 ^ d <= 2 ^ (Zdigits2 N - 1)) by (apply pow2_le; lia). lia.
Qed.

Set Implicit Arguments.

End Binary64Facts.

(** * Subtraction and division in binary64 *)

Module Binary64Division.
Import Binary64 Binary64Facts Binary64Signed.
Local Open Scope Z_scope.
Unset Implicit Arguments.

(** *** Subtraction, whichever double is the larger *)

Lemma SF64sub_finite (mx my : positive) (ex ey : Z) :
  let x := S754_finite false mx ex in
  let y := S754_finite false my ey in
  valid_binary x = true -> valid_binary y = true ->
  val (SF64sub x y) = round64 (Z.abs (val x - val y))
  /\ signed (val x <? val y) (SF64sub x y) = true.
Proof.
  intros x y Vx Vy. subst x y. unfold SF64sub, SFsub. cbn [cond_Zopp].
  apply valid_finite in Vx as [Hex _]. apply valid_finite in Vy as [Hey _].
  destruct (shl_align_spec mx ex (Z.min ex ey)) as [_ Hx].
  destruct (shl_align_spec my ey (Z.min ex ey)) as [_ Hy].
  replace (Z.min ex (Z.min ex ey)) with (Z.min ex ey) in Hx by lia.
  replace (Z.min ey (Z.min ex ey)) with (Z.min ex ey) in Hy by lia.
  set (ez := Z.min ex ey) in *.
  assert (Hez : -1074 <= ez) by (unfold ez; lia).
  assert (HP : 0 < 2 ^ (ez + 1074)) by (apply pow2_pos; lia).
  assert (Hvx : Zpos mx * 2 ^ (ex + 1074)
                = Zpos (fst (shl_align mx ex ez)) * 2 ^ (ez + 1074)).
  { rewrite Hx, <- Z.mul_assoc, <- Z.pow_add_r by lia.
    f_equal. f_equal. lia. }
  assert (Hvy : Zpos my * 2 ^ (ey + 1074)
                = Zpos (fst (shl_align my ey ez)) * 2 ^ (ez + 1074)).
  { rewrite Hy, <- Z.mul_assoc, <- Z.pow_add_r by lia.
    f_equal. f_equal. lia. }
  cbn [val]. rewrite Hvx, Hvy.
  set (X := Zpos (fst (shl_align mx ex ez))).
  set (Y := Zpos (fst (shl_align my ey ez))).
  rewrite <- Z.mul_sub_distr_r, Z.abs_mul, (Z.abs_eq (2 ^ (ez + 1074))) by lia.
  destruct (X - Y) as [|p|p] eqn:Hd; cbn [binary_normalize Z.abs].
  - split; [reflexivity|].
    replace (X * 2 ^ (ez + 1074) <? Y * 2 ^ (ez + 1074)) with false;
      [reflexivity|]. symmetry. apply Z.ltb_ge. nia.
  - destruct (binary_round_val false p ez Hez) as [Hs Hv]. split; [exact Hv|].
    replace (X * 2 ^ (ez + 1074) <? Y * 2 ^ (ez + 1074)) with false;
      [exact Hs|]. symmetry. apply Z.ltb_ge. nia.
  - destruct (binary_round_val true p ez Hez) as [Hs Hv]. split; [exact Hv|].
    replace (X * 2 ^ (ez + 1074) <? Y * 2 ^ (ez + 1074)) with true;
      [exact Hs|]. symmetry. apply Z.ltb_lt. nia.
Qed.

(** *** Rounding a mantissa with a location *)

Lemma shr_record_of_loc_shifted (q : Z) (l : location) :
  shr_record_of_loc q l = shifted (4 * q + loc_bits l) 2.
Proof.
  unfold shifted. change (2 ^ 2) with 4.
  assert (Hb : 0 <= loc_bits l < 4) by (destruct l as [|[| |]]; simpl; lia).
  rewrite <- (Z.div_unique (4 * q + loc_bits l) 4 q (loc_bits l))
    by (auto; lia).
  rewrite <- (Z.mod_unique (4 * q + loc_bits l) 4 q (loc_bits l))
    by (auto; lia).
  now destruct l as [|[| |]].
Qed.

Lemma iter_shr_1_shifted (m k : Z) (p : positive) :
  0 <= m -> 0 <= k ->
  iter_pos shr_1 p (shifted m k) = shifted m (k + Zpos p).
Proof.
  intros Hm Hk. induction p as [|p IH] using Pos.peano_ind.
  - change (iter_pos shr_1 1 ?x) with (shr_1 x). now apply shifted_succ.
  - rewrite iter_pos_succ, IH, Pos2Z.inj_succ.
    replace (k + Z.succ (Zpos p)) with (Z.succ (k + Zpos p)) by lia.
    apply shifted_succ; lia.
Qed.

Lemma shr_fexp_loc (q e : Z) (l : location) :
  0 <= q ->
  let n := Z.max (fexp prec emax (Zdigits2 q + e) - e) 0 in
  shr_fexp prec emax q e l = (shifted (4 * q + loc_bits l) (2 + n), e + n).
Proof.
  intros Hq n. unfold shr_fexp, shr. rewrite shr_record_of_loc_shifted.
  assert (Hb : 0 <= loc_bits l) by (destruct l as [|[| |]]; simpl; lia).
  subst n. destruct (fexp prec emax (Zdigits2 q + e) - e) as [|p|p] eqn:Hn.
  - f_equal. simpl. lia.
  - rewrite iter_shr_1_shifted by lia. reflexivity.
  - f_equal. simpl. lia.
Qed.

(** A mantissa with a location that stands for a number up to 1 is rounded
    to a double up to 1. *)
Lemma binary_round_aux_le_one (sx : bool) (q e : Z) (l : location) :
  0 <= q -> e <= 0 -> 4 * q + loc_bits l <= 2 ^ (2 - e) ->
  let x := binary_round_aux prec emax sx q e l in
  signed sx x = true /\ val x <= 2 ^ 1074.
Proof.
  intros Hq He HQ x. subst x.
  assert (Hb : 0 <= loc_bits l) by (destruct l as [|[| |]]; simpl; lia).
  set (Q := 4 * q + loc_bits l) in *.
  assert (Hq4 : 4 * q <= 2 ^ (2 - e)) by lia.
  assert (Hpe : 2 ^ (2 - e) = 4 * 2 ^ (- e)).
  { replace (2 - e) with (2 + - e) by lia. now rewrite Z.pow_add_r by lia. }
  unfold binary_round_aux. rewrite (shr_fexp_loc q e l Hq). fold Q.
  set (n := Z.max (fexp prec emax (Zdigits2 q + e) - e) 0).
  (* the first shift ends at an exponent that is not positive *)
  assert (Hn : 0 <= n <= - e).
  { unfold n. rewrite fexp64. split; [lia|].
    destruct (Z.eq_dec q 0) as [->|Hq0]; [simpl; lia|].
    destruct (Zdigits2_bounds q ltac:(lia)) as [Hlo _].
    destruct (Z.le_gt_cases (Zdigits2 q + e) 53) as [|Hgt]; [lia|].
    assert (2 ^ (- e) < 2 ^ (Zdigits2 q - 1))
      by (apply Z.pow_lt_mono_r; lia).
    lia. }
  rewrite round_shifted by lia.
  set (q1 := rnd_shift Q (2 + n)).
  set (E1 := e + n).
  assert (HE1 : E1 <= 0) by (unfold E1; lia).
  assert (Hq1 : 0 <= q1 <= 2 ^ (- E1)).
  { unfold q1. split.
    - pose proof (rnd_shift_bounds Q (2 + n) ltac:(lia)) as [Hl _].
      assert (0 <= Q / 2 ^ (2 + n))
        by (apply Z.div_pos; [lia|apply pow2_pos; lia]).
      lia.
    - apply Z.le_trans with (rnd_shift (2 ^ (2 - e)) (2 + n)).
      + apply rnd_shift_mono; lia.
      + replace (2 - e) with ((- E1) + (2 + n)) by (unfold E1; lia).
        rewrite Z.pow_add_r by lia.
        rewrite rnd_shift_exact;
          [|lia|apply Z.mod_mul, Z.pow_nonzero; lia].
        rewrite Z.div_mul by (apply Z.pow_nonzero; lia). lia. }
  (* the second shift *)
  rewrite (shr_fexp_exact q1 E1) by lia.
  set (n2 := Z.max (fexp prec emax (Zdigits2 q1 + E1) - E1) 0).
  cbn [shr_m shifted].
  assert (Hdq1 : Zdigits2 q1 <= 1 - E1).
  { apply Zdigits2_below; [lia|]. split; [lia|].
    replace (1 - E1) with (- E1 + 1) by lia.
    rewrite Z.pow_add_r by lia.
    assert (0 < 2 ^ (- E1)) by (apply pow2_pos; lia). lia. }
  assert (Hn2 : 0 <= n2 <= - E1) by (unfold n2; rewrite fexp64; lia).
  assert (HE2 : -1074 <= E1 + n2 <= 0).
  { split; [|lia]. unfold n2. rewrite fexp64. lia. }
  assert (Hm2 : 0 <= q1 / 2 ^ n2 <= 2 ^ (- (E1 + n2))).
  { assert (HP : 0 < 2 ^ n2) by (apply pow2_pos; lia).
    split; [apply Z.div_pos; lia|].
    apply Z.div_le_upper_bound; [lia|].
    rewrite pow2_add by lia. replace (n2 + - (E1 + n2)) with (- E1) by lia.
    lia. }
  destruct (q1 / 2 ^ n2) as [|m|m] eqn:Hm; [| |lia].
  - split; [apply Bool.eqb_reflx|]. cbn [val].
    apply Z.lt_le_incl, pow2_pos. lia.
  - destruct (Z.leb_spec (E1 + n2) (emax - prec)) as [_|Hbig];
      [|change (emax - prec) with 971 in Hbig; lia].
    split; [apply Bool.eqb_reflx|]. cbn [val].
    apply Z.le_trans with (2 ^ (- (E1 + n2)) * 2 ^ (E1 + n2 + 1074)).
    + apply Z.mul_le_mono_nonneg_r; [|lia].
      apply Z.lt_le_incl, pow2_pos. lia.
    + rewrite pow2_add by lia. apply pow2_le. lia.
Qed.

(** *** Division by a double that is not smaller *)

Lemma val_finite_exponents (m1 m2 : positive) (e1 e2 : Z) :
  valid_binary (S754_finite false m1 e1) = true ->
  valid_binary (S754_finite false m2 e2) = true ->
  val (S754_finite false m1 e1) <= val (S754_finite false m2 e2) ->
  e1 <= e2.
Proof.
  intros V1 V2 Hle. destruct (Z.le_gt_cases e1 e2) as [|Hgt]; [assumption|].
  pose proof (val_finite_lt m2 m1 e2 e1 V2 V1 ltac:(lia)). lia.
Qed.

Lemma SF64div_le_one (mx my : positive) (ex ey : Z) :
  let x := S754_finite false mx ex in
  let y := S754_finite false my ey in
  valid_binary x = true -> valid_binary y = true ->
  val x <= val y ->
  nonneg (SF64div x y) = true /\ val (SF64div x y) <= 2 ^ 1074.
Proof.
  intros x y Vx Vy Hle. subst x y.
  pose proof (val_finite_exponents mx my ex ey Vx Vy Hle) as Hexy.
  apply valid_finite in Vx as [Hex _]. apply valid_finite in Vy as [Hey _].
  cbn [val] in Hle.
  unfold SF64div, SFdiv, SFdiv_core_binary. cbn [xorb].
  set (e' := Z.min (fexp prec emax
                      (Zdigits2 (Zpos mx) + ex - (Zdigits2 (Zpos my) + ey)))
                   (ex - ey)).
  assert (He' : e' <= ex - ey) by (unfold e'; lia).
  set (s := ex - ey - e').
  assert (Hs : 0 <= s) by (unfold s; lia).
  set (m' := match s with
             | 0 => Zpos mx
             | Zpos _ => Z.shiftl (Zpos mx) s
             | Zneg _ => 0
             end).
  assert (Hm' : m' = Zpos mx * 2 ^ s).
  { unfold m'. destruct s as [|p|p] eqn:Es; [lia| |lia].
    now rewrite Z.shiftl_mul_pow2 by lia. }
  assert (Hdm := Z.div_mod m' (Zpos my) ltac:(lia)).
  assert (Hr := Z.mod_pos_bound m' (Zpos my) ltac:(lia)).
  unfold Z.div, Z.modulo in Hdm, Hr.
  destruct (Z.div_eucl m' (Zpos my)) as [q r]. cbn [fst snd] in Hdm, Hr.
  (* the quotient is at most 2^-e' *)
  assert (Hm1 : Zpos mx <= Zpos my * 2 ^ (ey - ex)).
  { assert (HP : 0 < 2 ^ (ex + 1074)) by (apply pow2_pos; lia).
    replace (ey + 1074) with ((ey - ex) + (ex + 1074)) in Hle by lia.
    rewrite (Z.pow_add_r 2 (ey - ex) (ex + 1074)), Z.mul_assoc in Hle by lia.
    apply Z.mul_le_mono_pos_r in Hle; assumption. }
  assert (Hbound : m' <= Zpos my * 2 ^ (- e')).
  { rewrite Hm'. replace (- e') with ((ey - ex) + s) by (unfold s; lia).
    rewrite Z.pow_add_r, Z.mul_assoc by lia.
    apply Z.mul_le_mono_nonneg_r; [|exact Hm1].
    apply Z.lt_le_incl, pow2_pos; lia. }
  assert (Hq0 : 0 <= q).
  { assert (0 <= m') by (rewrite Hm'; apply Z.mul_nonneg_nonneg;
                         [lia|apply Z.lt_le_incl, pow2_pos; lia]).
    nia. }
  assert (HP' : 0 < 2 ^ (- e')) by (apply pow2_pos; lia).
  assert (Hloc : 4 * q + loc_bits (new_location (Zpos my) r) <= 2 ^ (2 - e')).
  { replace (2 - e') with (2 + - e') by lia. rewrite Z.pow_add_r by lia.
    change (2 ^ 2) with 4. set (P := 2 ^ (- e')) in *.
    assert (Hc : loc_bits (new_location (Zpos my) r) <= 3)
      by (destruct (new_location (Zpos my) r) as [|[| |]]; simpl; lia).
    destruct (Z.eq_dec r 0) as [->|Hr0].
    - assert (q <= P) by (apply (Z.mul_le_mono_pos_l _ _ (Zpos my)); lia).
      replace (new_location (Zpos my) 0) with loc_Exact
        by (unfold new_location; now destruct (Z.even (Zpos my))).
      cbn [loc_bits]. lia.
    - assert (q < P) by (apply (Z.mul_lt_mono_pos_l (Zpos my)); lia).
      lia. }
  destruct (binary_round_aux_le_one false q e' (new_location (Zpos my) r))
    as [Hsg Hv]; [lia|lia|exact Hloc|].
  split; [now apply signed_false_nonneg|exact Hv].
Qed.

(** A finite double divided by itself is 1. *)
Lemma SF64div_same (s : bool) (m : positive) (e : Z) :
  SF64div (S754_finite s m e) (S754_finite s m e)
  = S754_finite false 4503599627370496 (-52).
Proof.
  unfold SF64div, SFdiv, SFdiv_core_binary.
  replace (Zdigits2 (Zpos m) + e - (Zdigits2 (Zpos m) + e)) with 0 by lia.
  rewrite Z.sub_diag.
  change (Z.min (fexp prec emax 0) 0) with (-53).
  change (0 - -53) with 53.
  assert (Hdm := Z.div_mod (Z.shiftl (Zpos m) 53) (Zpos m) ltac:(lia)).
  assert (Hq : Z.shiftl (Zpos m) 53 / Zpos m = 2 ^ 53).
  { rewrite Z.shiftl_mul_pow2, Z.mul_comm by lia. apply Z.div_mul. lia. }
  assert (Hr : Z.shiftl (Zpos m) 53 mod Zpos m = 0).
  { rewrite Z.shiftl_mul_pow2, Z.mul_comm by lia. apply Z.mod_mul. lia. }
  unfold Z.div, Z.modulo in Hq, Hr.
  destruct (Z.div_eucl (Z.shiftl (Zpos m) 53) (Zpos m)) as [q r].
  cbn [fst snd] in Hq, Hr. subst q r.
  replace (new_location (Zpos m) 0) with loc_Exact
    by (unfold new_location; now destruct (Z.even (Zpos m))).
  now destruct s.
Qed.

Set Implicit Arguments.
End Binary64Division.

(** * The error of a quotient *)

Module Binary64Quotient.
Import Binary64 Binary64Facts Binary64Signed Binary64Division.
Local Open Scope Z_scope.
Unset Implicit Arguments.

Ltac restate H t :=
  match type of H with _ = ?b => change (t = b) in H end.

(** The location of a remainder is where four times the remainder lies. *)
Lemma new_location_error (n r : Z) :
  0 < n -> 0 <= r < n ->
  Z.abs (loc_bits (new_location n r) * n - 4 * r) <= n.
Proof.
  intros Hn Hr. unfold new_location, new_location_even, new_location_odd.
  destruct (IntDef.Z.even n) eqn:Ev; destruct (IntDef.Z.eqb r 0) eqn:Er;
    restate Ev (Z.even n); restate Er (r =? 0);
    try (apply Z.eqb_eq in Er; subst r; cbn [loc_bits]; lia);
    apply Z.eqb_neq in Er.
  - destruct (IntDef.Z.compare (IntDef.Z.mul 2 r) n) eqn:Ec;
      restate Ec (2 * r ?= n); cbn [loc_bits].
    + apply Z.compare_eq in Ec. lia.
    + rewrite Z.compare_lt_iff in Ec. lia.
    + rewrite Z.compare_gt_iff in Ec. lia.
  - assert (Hodd : 2 * r <> n).
    { intros E. rewrite <- E, Z.even_mul in Ev. discriminate. }
    destruct (IntDef.Z.compare (IntDef.Z.add (IntDef.Z.mul 2 r) 1) n) eqn:Ec;
      restate Ec (2 * r + 1 ?= n); cbn [loc_bits].
    + apply Z.compare_eq in Ec. lia.
    + rewrite Z.compare_lt_iff in Ec. lia.
    + rewrite Z.compare_gt_iff in Ec. lia.
Qed.

(** Rounding a mantissa with a location that stands for a number up to 1,
    with its error. *)
Lemma binary_round_aux_loc (sx : bool) (q e : Z) (l : location) :
  0 <= q -> -1074 <= e <= -52 -> 4 * q + loc_bits l <= 2 ^ (2 - e) ->
  let x := binary_round_aux prec emax sx q e l in
  Z.abs (4 * val x - (4 * q + loc_bits l) * 2 ^ (e + 1074)) <= 2 ^ 1023.
Proof.
  intros Hq He HQ x. subst x.
  assert (Hb : 0 <= loc_bits l <= 3) by (destruct l as [|[| |]]; simpl; lia).
  set (Q := 4 * q + loc_bits l) in *.
  assert (Hpe : 2 ^ (2 - e) = 4 * 2 ^ (- e)).
  { replace (2 - e) with (2 + - e) by lia. now rewrite Z.pow_add_r by lia. }
  assert (HPe : 0 < 2 ^ (- e)) by (apply pow2_pos; lia).
  assert (Hqe : q <= 2 ^ (- e)) by lia.
  unfold binary_round_aux. rewrite (shr_fexp_loc q e l Hq). fold Q.
  set (n := Z.max (fexp prec emax (Zdigits2 q + e) - e) 0).
  assert (Hdq : Zdigits2 q <= 1 - e).
  { apply Zdigits2_below; [lia|]. split; [lia|].
    replace (1 - e) with (- e + 1) by lia. rewrite Z.pow_add_r by lia. lia. }
  assert (Hn : 0 <= n /\ e + n <= -52 /\ Zdigits2 q - 53 <= n).
  { unfold n. rewrite fexp64. lia. }
  destruct Hn as [Hn0 [HnE Hnd]].
  rewrite round_shifted by lia.
  set (k := 2 + n). set (q1 := rnd_shift Q k). set (E1 := e + n).
  assert (HPk : 0 < 2 ^ k) by (apply pow2_pos; unfold k; lia).
  (* the rounded mantissa has at most 53 digits, or is 2^53 *)
  assert (HQk : Q / 2 ^ k < 2 ^ 53).
  { apply Z.div_lt_upper_bound; [lia|]. rewrite pow2_add by (unfold k; lia).
    destruct (Z.eq_dec q 0) as [Hq0|Hq0].
    - assert (2 ^ 2 <= 2 ^ (k + 53)) by (apply pow2_le; unfold k; lia).
      change (2 ^ 2) with 4 in *. unfold Q. lia.
    - destruct (Zdigits2_bounds q ltac:(lia)) as [_ Hhi].
      assert (2 ^ (Zdigits2 q + 2) <= 2 ^ (k + 53))
        by (apply pow2_le; unfold k; pose proof (Zdigits2_nonneg q); lia).
      rewrite <- pow2_add in H by (pose proof (Zdigits2_nonneg q); lia).
      change (2 ^ 2) with 4 in *. unfold Q. lia. }
  pose proof (rnd_shift_bounds Q k ltac:(unfold k; lia)) as Hq1.
  fold q1 in Hq1.
  assert (Hq10 : 0 <= Q / 2 ^ k) by (apply Z.div_pos; unfold Q; lia).
  pose proof (rnd_shift_error Q k ltac:(unfold k; lia)) as Herr.
  fold q1 in Herr.
  (* the second shift *)
  rewrite (shr_fexp_exact q1 E1) by lia.
  set (n2 := Z.max (fexp prec emax (Zdigits2 q1 + E1) - E1) 0).
  cbn [shr_m shifted].
  assert (HE1 : -1074 <= E1 <= -52) by (unfold E1; lia).
  assert (Hval : match q1 / 2 ^ n2 with
                 | 0 => 0
                 | Zpos m => Zpos m * 2 ^ (E1 + n2 + 1074)
                 | Zneg _ => 0
                 end = q1 * 2 ^ (E1 + 1074)
                 /\ E1 + n2 <= 971).
  { destruct (Z.eq_dec q1 (2 ^ 53)) as [Hfull|Hnfull].
    - assert (Hn2 : n2 = 1).
      { unfold n2. rewrite fexp64, Hfull.
        replace (Zdigits2 (2 ^ 53)) with 54 by reflexivity. lia. }
      rewrite Hn2, Hfull.
      replace (2 ^ 53 / 2 ^ 1) with (Zpos (2 ^ 52)) by reflexivity.
      split; [|lia]. change (Zpos (2 ^ 52)) with (2 ^ 52).
      rewrite !pow2_add by lia. f_equal. lia.
    - assert (Hdq1 : Zdigits2 q1 <= 53)
        by (apply Zdigits2_below; lia).
      assert (Hn2 : n2 = 0) by (unfold n2; rewrite fexp64; lia).
      rewrite Hn2, Z.pow_0_r, Z.div_1_r, Z.add_0_r.
      split; [|lia]. destruct q1 as [|p|p]; lia. }
  destruct Hval as [Hval Hfin].
  assert (Hres : val (match q1 / 2 ^ n2 with
                      | 0 => S754_zero sx
                      | Zpos m =>
                          if E1 + n2 <=? emax - prec
                          then S754_finite sx m (E1 + n2)
                          else S754_infinity sx
                      | Zneg _ => S754_nan
                      end) = q1 * 2 ^ (E1 + 1074)).
  { rewrite <- Hval. destruct (q1 / 2 ^ n2) as [|m|m]; try reflexivity.
    destruct (Z.leb_spec (E1 + n2) (emax - prec)) as [_|Hbig];
      [reflexivity|change (emax - prec) with 971 in Hbig; lia]. }
  rewrite Hres.
  (* the error of the rounding, in units of 2^-1076 *)
  assert (HPE : 0 < 2 ^ (e + 1074)) by (apply pow2_pos; lia).
  assert (Hk4 : 4 * 2 ^ (E1 + 1074) = 2 ^ k * 2 ^ (e + 1074)).
  { unfold k, E1. change 4 with (2 ^ 2). rewrite !pow2_add by lia.
    f_equal. lia. }
  assert (Hrw : 4 * (q1 * 2 ^ (E1 + 1074)) = q1 * 2 ^ k * 2 ^ (e + 1074))
    by (rewrite <- Z.mul_assoc, <- Hk4; ring).
  rewrite Hrw, <- Z.mul_sub_distr_r.
  rewrite Z.abs_mul, (Z.abs_eq (2 ^ (e + 1074))) by lia.
  assert (Hhalf : 2 ^ k * 2 ^ (e + 1074) <= 2 ^ 1024).
  { rewrite pow2_add by (unfold k; lia). apply pow2_le. unfold k. lia. }
  change (2 ^ 1024) with (2 * 2 ^ 1023) in Hhalf.
  assert (Hmul : 2 * (Z.abs (q1 * 2 ^ k - Q) * 2 ^ (e + 1074))
                 <= 2 ^ k * 2 ^ (e + 1074)).
  { rewrite Z.mul_assoc. apply Z.mul_le_mono_nonneg_r; lia. }
  lia.
Qed.

Lemma SF64div_error (mx my : positive) (ex ey : Z) :
  let x := S754_finite false mx ex in
  let y := S754_finite false my ey in
  valid_binary x = true -> valid_binary y = true ->
  val x <= val y -> val y < 2 ^ 1075 ->
  Z.abs (val (SF64div x y) * val y - val x * 2 ^ 1074) <= 2 ^ 1022 * val y.
Proof.
  intros x y Vx Vy Hle Hy2. subst x y.
  pose proof (val_finite_exponents mx my ex ey Vx Vy Hle) as Hexy.
  assert (Hdx := valid_finite _ _ _ Vx). assert (Hdy := valid_finite _ _ _ Vy).
  destruct Hdx as [Hex [Hdx _]]. destruct Hdy as [Hey [Hdy _]].
  cbn [val] in Hle, Hy2 |- *.
  assert (Hey0 : ey <= 0).
  { destruct (Z.le_gt_cases ey 0) as [|Hgt]; [assumption|].
    assert (2 ^ 1075 <= 2 ^ (ey + 1074)) by (apply pow2_le; lia).
    assert (0 < 2 ^ (ey + 1074)) by (apply pow2_pos; lia). nia. }
  unfold SF64div, SFdiv, SFdiv_core_binary. cbn [xorb].
  set (delta := Zdigits2 (Zpos mx) + ex - (Zdigits2 (Zpos my) + ey)).
  set (e' := Z.min (fexp prec emax delta) (ex - ey)).
  (* the quotient is at most 1, so its exponent is at most -52 *)
  assert (Hm1 : Zpos mx <= Zpos my * 2 ^ (ey - ex)).
  { assert (HP : 0 < 2 ^ (ex + 1074)) by (apply pow2_pos; lia).
    replace (ey + 1074) with ((ey - ex) + (ex + 1074)) in Hle by lia.
    rewrite (Z.pow_add_r 2 (ey - ex) (ex + 1074)), Z.mul_assoc in Hle by lia.
    apply Z.mul_le_mono_pos_r in Hle; assumption. }
  assert (Hdelta : delta <= 1).
  { unfold delta. change (Zdigits2 (Zpos mx)) with (Zpos (digits2_pos mx)).
    change (Zdigits2 (Zpos my)) with (Zpos (digits2_pos my)).
    destruct (digits2_pos_bounds mx) as [Hlo _].
    destruct (digits2_pos_bounds my) as [_ Hhi].
    destruct (Z.le_gt_cases (Zpos (digits2_pos mx) + ex)
                (Zpos (digits2_pos my) + ey + 1)) as [|Hgt]; [lia|].
    assert (2 ^ (Zpos (digits2_pos my) + (ey - ex))
            <= 2 ^ (Zpos (digits2_pos mx) - 1)) by (apply pow2_le; lia).
    rewrite <- pow2_add in H by lia.
    assert (0 < 2 ^ (ey - ex)) by (apply pow2_pos; lia). nia. }
  assert (He' : -1074 <= e' <= -52 /\ e' <= ex - ey).
  { unfold e'. rewrite fexp64. lia. }
  destruct He' as [He' He'x].
  set (s := ex - ey - e').
  assert (Hs : 0 <= s) by (unfold s; lia).
  set (m' := match s with
             | 0 => Zpos mx
             | Zpos _ => Z.shiftl (Zpos mx) s
             | Zneg _ => 0
             end).
  assert (Hm' : m' = Zpos mx * 2 ^ s).
  { unfold m'. destruct s as [|p|p] eqn:Es; [lia| |lia].
    now rewrite Z.shiftl_mul_pow2 by lia. }
  assert (Hdm := Z.div_mod m' (Zpos my) ltac:(lia)).
  assert (Hr := Z.mod_pos_bound m' (Zpos my) ltac:(lia)).
  unfold Z.div, Z.modulo in Hdm, Hr.
  destruct (Z.div_eucl m' (Zpos my)) as [q r]. cbn [fst snd] in Hdm, Hr.
  set (P := 2 ^ (- e')).
  assert (HP' : 0 < P) by (apply pow2_pos; lia).
  assert (Hbound : m' <= Zpos my * P).
  { rewrite Hm'. unfold P. replace (- e') with ((ey - ex) + s) by (unfold s; lia).
    rewrite Z.pow_add_r, Z.mul_assoc by lia.
    apply Z.mul_le_mono_nonneg_r; [|exact Hm1].
    apply Z.lt_le_incl, pow2_pos; lia. }
  assert (Hq0 : 0 <= q).
  { assert (0 <= m') by (rewrite Hm'; apply Z.mul_nonneg_nonneg;
                         [lia|apply Z.lt_le_incl, pow2_pos; lia]).
    nia. }
  set (l := new_location (Zpos my) r).
  pose proof (new_location_error (Zpos my) r ltac:(lia) Hr) as Hl. fold l in Hl.
  assert (Hc : 0 <= loc_bits l <= 3) by (destruct l as [|[| |]]; simpl; lia).
  assert (Hloc : 4 * q + loc_bits l <= 2 ^ (2 - e')).
  { replace (2 - e') with (2 + - e') by lia. rewrite Z.pow_add_r by lia.
    change (2 ^ 2) with 4. fold P.
    destruct (Z.eq_dec r 0) as [Hr0|Hr0].
    - assert (q <= P) by (apply (Z.mul_le_mono_pos_l _ _ (Zpos my)); lia).
      assert (loc_bits l = 0); [|lia].
      unfold l. rewrite Hr0. unfold new_location.
      now destruct (Z.even (Zpos my)).
    - assert (q < P) by (apply (Z.mul_lt_mono_pos_l (Zpos my)); lia).
      lia. }
  pose proof (binary_round_aux_loc false q e' l Hq0 He' Hloc) as Herr.
  cbv zeta in Herr.
  set (R := val (binary_round_aux prec emax false q e' l)) in *.
  (* from the mantissas to the values *)
  set (F := 2 ^ (e' + 1074)) in *. set (G := 2 ^ (ey + 1074)).
  assert (HF : 0 < F <= 2 ^ 1022).
  { unfold F. split; [apply pow2_pos; lia|apply pow2_le; lia]. }
  assert (HG : 0 < G) by (apply pow2_pos; lia).
  assert (Hx : Zpos mx * 2 ^ (ex + 1074) * 2 ^ 1074 = m' * F * G).
  { rewrite Hm'. unfold F, G. rewrite <- !Z.mul_assoc. f_equal.
    rewrite !pow2_add by lia. f_equal. unfold s. lia. }
  rewrite Hx. fold G.
  assert (Hkey : 4 * (R * (Zpos my * G) - m' * F * G)
                 = ((4 * R - (4 * q + loc_bits l) * F) * Zpos my
                    + (loc_bits l * Zpos my - 4 * r) * F) * G).
  { rewrite Hdm. ring. }
  assert (Habs : Z.abs ((4 * R - (4 * q + loc_bits l) * F) * Zpos my
                        + (loc_bits l * Zpos my - 4 * r) * F)
                 <= 2 ^ 1023 * Zpos my + Zpos my * 2 ^ 1022).
  { eapply Z.le_trans; [apply Z.abs_triangle|].
    rewrite !Z.abs_mul, (Z.abs_eq (Zpos my)), (Z.abs_eq F) by lia.
    apply Z.add_le_mono.
    - apply Z.mul_le_mono_nonneg_r; lia.
    - apply Z.mul_le_mono_nonneg; lia. }
  assert (H4 : 4 * Z.abs (R * (Zpos my * G) - m' * F * G)
               <= (2 ^ 1023 * Zpos my + Zpos my * 2 ^ 1022) * G).
  { replace (4 * Z.abs (R * (Zpos my * G) - m' * F * G))
      with (Z.abs (4 * (R * (Zpos my * G) - m' * F * G)))
      by (rewrite Z.abs_mul; reflexivity).
    rewrite Hkey, Z.abs_mul, (Z.abs_eq G) by lia.
    apply Z.mul_le_mono_nonneg_r; lia. }
  assert (H23 : 2 ^ 1023 = 2 * 2 ^ 1022)
    by (change 1023 with (1 + 1022); now rewrite <- pow2_add by lia).
  rewrite H23 in H4. set (U := 2 ^ 1022) in *.
  assert (HU : 0 < U) by (apply pow2_pos; lia).
  assert (HV : 0 < U * (Zpos my * G))
    by (apply Z.mul_pos_pos; [exact HU|apply Z.mul_pos_pos; lia]).
  replace ((2 * U * Zpos my + Zpos my * U) * G)
    with (3 * (U * (Zpos my * G))) in H4 by ring.
  lia.
Qed.

Set Implicit Arguments.
End Binary64Quotient.


(** * Sums of masses that are not negative *)

Lemma subseq_nil_l {A : Type} (l : list A) : subseq [] l.
Proof. induction l; constructor; assumption. Qed.

Lemma subseq_map {A B : Type} (f : A -> B) (l1 l2 : list A) :
  subseq l1 l2 -> subseq (map f l1) (map f l2).
Proof. induction 1; simpl; constructor; assumption. Qed.

Lemma subseq_filter {A : Type} (f : A -> bool) (l1 l2 : list A) :
  subseq l1 l2 -> subseq (filter f l1) (filter f l2).
Proof.
  induction 1; simpl; try destruct (f x); try constructor; assumption.
Qed.

Lemma subseq_length {A : Type} (l1 l2 : list A) :
  subseq l1 l2 -> (List.length l1 <= List.length l2)%nat.
Proof. induction 1; simpl; lia. Qed.

Section Sums.
Local Open Scope Z_scope.
Import Binary64 Binary64Facts.

Lemma fval_add_r (a v : float) :
  fnonneg a = true -> fnonneg v = true -> fval a <= fval (a + v).
Proof.
  intros Ha Hv. destruct (add_nonneg a v Ha Hv) as [_ ->].
  unfold fval at 1. rewrite <- (round64_val _ (Prim2SF_valid a)).
  apply round64_mono. split; [apply val_nonneg|].
  pose proof (val_nonneg (Prim2SF v)). unfold fval. lia.
Qed.

Lemma fval_add_mono (a b v : float) :
  fnonneg a = true -> fnonneg b = true -> fnonneg v = true ->
  fval a <= fval b -> fval (a + v) <= fval (b + v).
Proof.
  intros Ha Hb Hv Hab.
  destruct (add_nonneg a v Ha Hv) as [_ ->].
  destruct (add_nonneg b v Hb Hv) as [_ ->].
  apply round64_mono. unfold fval in *.
  pose proof (val_nonneg (Prim2SF a)). pose proof (val_nonneg (Prim2SF v)).
  lia.
Qed.

Lemma sum_from_nonneg (l : list float) (a : float) :
  masses_nonneg l -> fnonneg a = true ->
  fnonneg (sum_from a l) = true /\ fval a <= fval (sum_from a l).
Proof.
  intros Hl. revert a. induction Hl as [|v l Hv Hl IH]; intros a Ha; simpl.
  - split; [assumption|lia].
  - destruct (add_nonneg a v Ha Hv) as [Hs _].
    destruct (IH (a + v)%float Hs) as [IH1 IH2].
    split; [assumption|]. pose proof (fval_add_r a v Ha Hv). lia.
Qed.

(** Leaving masses out of a sum does not make it larger: additions round,
    but rounding is monotone. *)
Lemma sum_from_subseq (la lb : list float) :
  subseq la lb -> masses_nonneg lb ->
  forall a b : float,
    fnonneg a = true -> fnonneg b = true -> fval a <= fval b ->
    fval (sum_from a la) <= fval (sum_from b lb).
Proof.
  induction 1 as [|v la lb Hs IH|v la lb Hs IH]; intros Hl a b Ha Hb Hab.
  - exact Hab.
  - inversion Hl as [|? ? Hv Hl']; subst. simpl.
    destruct (add_nonneg b v Hb Hv) as [Hbv _].
    apply (IH Hl' a (b + v)%float Ha Hbv).
    pose proof (fval_add_r b v Hb Hv). lia.
  - inversion Hl as [|? ? Hv Hl']; subst. simpl.
    destruct (add_nonneg a v Ha Hv) as [Hav _].
    destruct (add_nonneg b v Hb Hv) as [Hbv _].
    apply (IH Hl' _ _ Hav Hbv). now apply fval_add_mono.
Qed.

Lemma masses_nonneg_subseq (la lb : list float) :
  subseq la lb -> masses_nonneg lb -> masses_nonneg la.
Proof.
  unfold masses_nonneg. induction 1; intros Hl; try assumption.
  - inversion Hl; subst. auto.
  - inversion Hl; subst. constructor; auto.
Qed.

Lemma fnonneg_0 : fnonneg 0%float = true.
Proof. reflexivity. Qed.

Lemma fval_0 : fval 0%float = 0.
Proof. reflexivity. Qed.

Lemma leb_zero_iff (v : float) :
  (0 <=? v)%float = true <-> fnonneg v = true.
Proof.
  unfold fnonneg. rewrite leb_spec, Prim2SF_zero.
  destruct (Prim2SF v) as [s|[|]| |[|] m e]; cbn; split; congruence.
Qed.

(** *** The tolerance of the validation *)

Lemma fval_EPSILON_up : fval EPSILON < fval EPSILON_up.
Proof. now vm_compute. Qed.

Lemma fval_total_bound : fval 1%float + fval EPSILON_up <= fval total_bound.
Proof. vm_compute. discriminate. Qed.

Lemma Prim2SF_one : Prim2SF 1 = S754_finite false 4503599627370496 (-52).
Proof. reflexivity. Qed.

(** A total that is not negative and passes
    [!(std::abs(total - 1.0) > EPSILON)] is less than 1 + EPSILON_up. *)
Lemma tolerance_bound (S : float) :
  fnonneg S = true ->
  (EPSILON <? abs (S - 1))%float = false ->
  fval S < fval 1%float + fval EPSILON_up.
Proof.
  intros HS Htol.
  destruct (Z.lt_ge_cases (fval S) (fval 1%float + fval EPSILON_up))
    as [Hlt|Hge]; [exact Hlt|exfalso].
  pose proof fval_EPSILON_up as Hup.
  assert (Hpos : 0 <= fval EPSILON) by apply val_nonneg.
  assert (Hz : fnonneg (S - 1)%float = true
               /\ fval EPSILON_up <= fval (S - 1)%float).
  { unfold fnonneg, fval in *. rewrite sub_spec, Prim2SF_one in *.
    pose proof (Prim2SF_valid S) as VS.
    pose proof (Prim2SF_valid 1%float) as V1. rewrite Prim2SF_one in V1.
    destruct (Prim2SF S) as [sx|[|]| |[|] mx ex] eqn:ES; try discriminate HS.
    - cbn [val] in Hge. lia.
    - split; [reflexivity|]. unfold SF64sub, SFsub. cbn [val].
      pose proof (val_le_top _ (Prim2SF_valid EPSILON_up)). lia.
    - destruct (SF64sub_val mx 4503599627370496 ex (-52) VS V1) as [Hnn Hv];
        [lia|].
      split; [exact Hnn|]. rewrite Hv.
      rewrite <- (round64_val _ (Prim2SF_valid EPSILON_up)).
      apply round64_mono. split; [apply val_nonneg|lia]. }
  destruct Hz as [Hnn Hz].
  assert (Habs : fnonneg (abs (S - 1))%float = true
                 /\ fval (abs (S - 1))%float = fval (S - 1)%float).
  { unfold fnonneg, fval in *. rewrite abs_spec.
    split; [now apply SFabs_nonneg|apply SFabs_val]. }
  destruct Habs as [Ha Hv].
  rewrite (ltb_nonneg EPSILON _ eq_refl Ha) in Htol.
  apply Z.ltb_ge in Htol. lia.
Qed.

(** For a total that is not negative, the two ways of writing the test of
    the tolerance agree: [std::abs(total - 1.0)] is not NaN. *)
Lemma tolerance_test (S : float) :
  fnonneg S = true ->
  (EPSILON <? abs (S - 1))%float = negb (abs (S - 1) <=? EPSILON)%float.
Proof.
  intros HS.
  assert (Ha : fnonneg (abs (S - 1))%float = true).
  { unfold fnonneg in *. rewrite abs_spec, sub_spec, Prim2SF_one.
    apply SF64sub_not_nan; [apply Prim2SF_valid| |exact HS].
    rewrite <- Prim2SF_one. apply Prim2SF_valid. }
  rewrite (ltb_nonneg EPSILON _ eq_refl Ha), (leb_nonneg _ EPSILON Ha eq_refl).
  apply Z.ltb_antisym.
Qed.

(** *** The error of a sum *)

Lemma fval_2 : fval 2%float = 2 ^ 1075.
Proof. reflexivity. Qed.

(** An addition whose result is below 2 is off the exact sum by at most
    half the gap between 1 and the next double. *)
Lemma add_error (a v : float) :
  fnonneg a = true -> fnonneg v = true ->
  fval (a + v) < fval 2%float ->
  2 * Z.abs (fval (a + v) - (fval a + fval v)) <= ulp_one.
Proof.
  intros Ha Hv Hlt. destruct (add_nonneg a v Ha Hv) as [_ Hs].
  rewrite Hs in *. set (N := fval a + fval v) in *.
  assert (HN : 0 <= N).
  { unfold N, fval. pose proof (val_nonneg (Prim2SF a)).
    pose proof (val_nonneg (Prim2SF v)). lia. }
  assert (Htwo : round64 (fval 2%float) = fval 2%float)
    by apply (round64_val _ (Prim2SF_valid 2%float)).
  assert (HNlt : N < fval 2%float).
  { destruct (Z.lt_ge_cases N (fval 2%float)) as [Hl|Hg]; [exact Hl|].
    assert (0 <= fval 2%float) by apply val_nonneg.
    pose proof (round64_mono (fval 2%float) N ltac:(lia)). lia. }
  assert (Hd : Zdigits2 N <= 1075).
  { apply Zdigits2_below; [lia|]. rewrite <- fval_2. lia. }
  assert (Hmin : round64 N = round53 N).
  { unfold round64 in *. apply Z.min_l.
    pose proof (val_le_top _ (Prim2SF_valid 2%float)). unfold fval in *.
    destruct (Z.le_gt_cases (round53 N) top) as [|Hgt]; [assumption|].
    rewrite Z.min_r in Hlt by lia. lia. }
  rewrite Hmin. now apply round53_error.
Qed.

Lemma sum_from_error (l : list float) (a : float) :
  masses_nonneg l -> fnonneg a = true ->
  fval (sum_from a l) < fval 2%float ->
  2 * Z.abs (fval (sum_from a l) - (fval a + exact_sum l))
  <= Z.of_nat (List.length l) * ulp_one.
Proof.
  intros Hl. revert a. induction Hl as [|v l Hv Hl IH]; intros a Ha Hlt.
  - simpl. rewrite Z.add_0_r, Z.sub_diag. simpl. lia.
  - cbn [sum_from fold_left] in *. fold (sum_from (a + v) l) in *.
    destruct (add_nonneg a v Ha Hv) as [Hav _].
    destruct (sum_from_nonneg (a + v) Hl Hav) as [_ Hmono].
    specialize (IH (a + v)%float Hav Hlt).
    pose proof (add_error a v Ha Hv ltac:(lia)) as Hstep.
    cbn [exact_sum fold_right List.length]. fold (exact_sum l).
    rewrite Nat2Z.inj_succ. pose proof ulp_one_pos. lia.
Qed.

End Sums.

(** * Differences, quotients and sums that meet a NaN *)

Section DifferencesAndQuotients.
Local Open Scope Z_scope.
Import Binary64 Binary64Facts Binary64Signed Binary64Division.
Import Binary64Quotient.

Lemma fval_1 : fval 1%float = 2 ^ 1074.
Proof. reflexivity. Qed.

Lemma two_below_top : fval 2%float < top.
Proof. rewrite fval_2. unfold top. apply Z.pow_lt_mono_r; lia. Qed.

Lemma eqb_zero_nonneg (x : float) :
  fnonneg x = true -> (x =? 0)%float = (fval x =? 0).
Proof.
  unfold fnonneg, fval. intros Nx. rewrite eqb_spec. unfold SFeqb.
  rewrite (SFcompare_val _ _ (Prim2SF_valid x) (Prim2SF_valid 0%float) Nx eq_refl).
  change (val (Prim2SF 0%float)) with 0. unfold Z.eqb.
  now destruct (val (Prim2SF x) ?= 0) eqn:E;
    destruct (val (Prim2SF x)); try discriminate E.
Qed.

(** *** Division *)

Lemma div_le_one (x y : float) :
  fnonneg x = true -> fnonneg y = true ->
  fval x <= fval y -> 0 < fval y < top ->
  fnonneg (x / y)%float = true /\ fval (x / y)%float <= fval 1%float.
Proof.
  unfold fnonneg, fval. rewrite div_spec, Prim2SF_one.
  pose proof (Prim2SF_valid x) as Vx. pose proof (Prim2SF_valid y) as Vy.
  intros Nx Ny Hle Hy.
  destruct (Prim2SF y) as [sy|[|]| |[|] my ey]; try discriminate Ny;
    cbn [val] in Hy; try lia.
  destruct (Prim2SF x) as [sx|[|]| |[|] mx ex]; try discriminate Nx.
  - split; [reflexivity|]. cbn [SF64div SFdiv val].
    apply Z.lt_le_incl, Z.mul_pos_pos; [lia|apply pow2_pos; lia].
  - cbn [val] in Hle. lia.
  - destruct (SF64div_le_one mx my ex ey Vx Vy Hle) as [Hn Hv].
    split; [exact Hn|]. cbn [val]. change (-52 + 1074) with 1022.
    change (Zpos 4503599627370496) with (2 ^ 52). rewrite pow2_add by lia.
    exact Hv.
Qed.

Lemma div_same (x : float) :
  0 < fval x < top -> (x / x)%float = 1%float.
Proof.
  unfold fval. intros Hx. apply Prim2SF_inj. rewrite div_spec, Prim2SF_one.
  destruct (Prim2SF x) as [sx|sx| |sx mx ex]; cbn [val] in Hx; try lia.
  apply SF64div_same.
Qed.

Lemma zero_div (y : float) :
  fnonneg y = true -> 0 < fval y -> (0 / y)%float = 0%float.
Proof.
  unfold fnonneg, fval. intros Ny Hy. apply Prim2SF_inj.
  rewrite div_spec, Prim2SF_zero.
  destruct (Prim2SF y) as [sy|[|]| |[|] my ey]; try discriminate Ny;
    cbn [val] in Hy; try lia; reflexivity.
Qed.

(** *** One minus a double *)

Lemma signed_sval (s : bool) (x : spec_float) :
  signed s x = true -> sval x = if s then - val x else val x.
Proof.
  unfold sval.
  destruct x as [[|]|[|]| |[|] m e]; destruct s; cbn; intros E;
    try discriminate E; reflexivity.
Qed.

Lemma signed_not_nan (s : bool) (x : float) :
  signed s (Prim2SF x) = true -> is_nan x = false.
Proof.
  intros Hs. destruct (is_nan x) eqn:E; [|reflexivity].
  apply is_nan_Prim2SF in E. rewrite E in Hs. discriminate.
Qed.

Lemma one_minus (p : float) :
  fnonneg p = true -> fval p < top ->
  signed (fval 1%float <? fval p) (Prim2SF (1 - p)%float) = true
  /\ fval (1 - p)%float = round64 (Z.abs (fval 1%float - fval p)).
Proof.
  unfold fnonneg, fval. rewrite sub_spec, Prim2SF_one.
  pose proof (Prim2SF_valid p) as Vp.
  pose proof (Prim2SF_valid 1%float) as V1. rewrite Prim2SF_one in V1.
  intros Np Hp.
  destruct (Prim2SF p) as [sp|[|]| |[|] mp ep]; try discriminate Np.
  - cbn [SF64sub SFsub val]. rewrite Z.sub_0_r.
    split; [reflexivity|]. rewrite Z.abs_eq by (cbn; lia).
    symmetry. apply (round64_val _ V1).
  - cbn [val] in Hp. lia.
  - destruct (SF64sub_finite 4503599627370496 mp (-52) ep V1 Vp) as [Hv Hs].
    split; [exact Hs|exact Hv].
Qed.

Lemma minus_one (S : float) :
  fnonneg S = true -> fval S < top ->
  fval (abs (S - 1))%float = round64 (Z.abs (fval S - fval 1%float)).
Proof.
  unfold fnonneg, fval. rewrite abs_spec, SFabs_val, sub_spec, Prim2SF_one.
  pose proof (Prim2SF_valid S) as VS.
  pose proof (Prim2SF_valid 1%float) as V1. rewrite Prim2SF_one in V1.
  intros NS HS.
  destruct (Prim2SF S) as [sp|[|]| |[|] mp ep]; try discriminate NS.
  - cbn [SF64sub SFsub val negb]. rewrite Z.sub_0_l, Z.abs_opp.
    rewrite Z.abs_eq by (cbn; lia). symmetry. apply (round64_val _ V1).
  - cbn [val] in HS. lia.
  - now destruct (SF64sub_finite mp 4503599627370496 ep (-52) VS V1).
Qed.

Lemma round64_small (N : Z) :
  0 <= N < 2 ^ 1075 ->
  round64 N = round53 N /\ 2 * Z.abs (round53 N - N) <= ulp_one.
Proof.
  intros HN.
  assert (Hd : Zdigits2 N <= 1075) by (apply Zdigits2_below; lia).
  split; [|apply round53_error; lia].
  unfold round64. apply Z.min_l.
  destruct (Z.eq_dec N 0) as [->|Hn0].
  - rewrite round53_0. apply Z.lt_le_incl, top_pos.
  - pose proof (round53_upper N ltac:(lia)).
    assert (2 ^ Zdigits2 N <= 2 ^ 1075)
      by (apply pow2_le; pose proof (Zdigits2_nonneg N); lia).
    assert (2 ^ 1075 <= top) by (unfold top; apply pow2_le; lia).
    lia.
Qed.

Lemma round64_pos (N : Z) : 0 < N -> 0 < round64 N.
Proof.
  intros HN. unfold round64. pose proof top_pos.
  pose proof (round53_lower N HN).
  assert (0 < 2 ^ (Zdigits2 N - 1))
    by (apply pow2_pos; pose proof (Zdigits2_pos N HN); lia).
  lia.
Qed.

Lemma leb_zero_signed (c : float) :
  signed true (Prim2SF c) = true -> 0 < fval c -> (0 <=? c)%float = false.
Proof.
  unfold fval. rewrite leb_spec, Prim2SF_zero. unfold SFleb.
  destruct (Prim2SF c) as [[|]|[|]| |[|] m e]; cbn; intros E Hv;
    try discriminate E; try reflexivity; lia.
Qed.

(** *** Sums that meet a NaN *)

Lemma add_nan_l (a v : float) : is_nan a = true -> is_nan (a + v)%float = true.
Proof.
  rewrite !is_nan_Prim2SF, add_spec. now intros ->.
Qed.

Lemma add_nan_r (a v : float) : is_nan v = true -> is_nan (a + v)%float = true.
Proof.
  rewrite !is_nan_Prim2SF, add_spec. intros ->.
  now destruct (Prim2SF a).
Qed.

Lemma sum_from_nan (l : list float) (a : float) :
  is_nan a = true \/ Exists (fun v => is_nan v = true) l ->
  is_nan (sum_from a l) = true.
Proof.
  revert a. induction l as [|v l IH]; intros a Hn; cbn [sum_from fold_left].
  - destruct Hn as [Ha|Hex]; [exact Ha|inversion Hex].
  - apply IH. destruct Hn as [Ha|Hex].
    + left. now apply add_nan_l.
    + inversion Hex; subst; [left; now apply add_nan_r|now right].
Qed.

Lemma tolerance_of_nan (S : float) :
  is_nan S = true -> (EPSILON <? abs (S - 1))%float = false.
Proof.
  rewrite is_nan_Prim2SF, ltb_spec, abs_spec, sub_spec. now intros ->.
Qed.

(** *** Adding to zero *)

Lemma zero_plus (v : float) :
  (0 + v)%float = v \/ (v = neg_zero /\ (0 + v)%float = 0%float).
Proof.
  destruct (Prim2SF v) as [[|]|s| |s m e] eqn:E.
  - right. split.
    + apply Prim2SF_inj. now rewrite E.
    + apply Prim2SF_inj. now rewrite add_spec, E.
  - left. apply Prim2SF_inj. now rewrite add_spec, E.
  - left. apply Prim2SF_inj. now rewrite add_spec, E.
  - left. apply Prim2SF_inj. now rewrite add_spec, E.
  - left. apply Prim2SF_inj. now rewrite add_spec, E.
Qed.

(** *** The error of a division *)

Lemma div_error (x y : float) :
  fnonneg x = true -> fnonneg y = true ->
  fval x <= fval y -> 0 < fval y < fval 2%float ->
  Z.abs (fval (x / y)%float * fval y - fval x * 2 ^ 1074)
  <= 2 ^ 1022 * fval y.
Proof.
  rewrite fval_2. unfold fnonneg, fval. rewrite div_spec.
  pose proof (Prim2SF_valid x) as Vx. pose proof (Prim2SF_valid y) as Vy.
  intros Nx Ny Hle Hy.
  destruct (Prim2SF y) as [sy|[|]| |[|] my ey] eqn:Ey; try discriminate Ny;
    try (cbn [val] in Hy; lia);
    try (cbn [val] in Hy; unfold top in Hy;
         assert (2 ^ 1075 <= 2 ^ 2098) by (apply pow2_le; lia); lia).
  destruct (Prim2SF x) as [sx|[|]| |[|] mx ex] eqn:Ex; try discriminate Nx.
  - cbn [SF64div SFdiv val]. rewrite !Z.mul_0_l, Z.sub_diag. cbn [Z.abs].
    apply Z.mul_nonneg_nonneg; [apply Z.lt_le_incl, pow2_pos|]; lia.
  - cbn [val] in Hle. pose proof (val_finite_bounds _ _ _ Vy). cbn [val] in *.
    lia.
  - apply SF64div_error; try assumption. lia.
Qed.

End DifferencesAndQuotients.


(** * Probabilities of a space whose masses are numbers *)

Section Bounds.
Context {T : Type} `{Ordered T}.
Import Binary64 Binary64Facts.

(** A set included in another one is a subsequence of it. *)
Lemma sorted_incl_subseq (A B : list T) :
  sorted A = true -> sorted B = true -> incl A B -> subseq A B.
Proof.
  revert A. induction B as [|y B IH]; intros A HA HB Hincl.
  - destruct A as [|x A]; [constructor|]. destruct (Hincl x). now left.
  - apply sorted_cons in HB as [Hby HB].
    destruct A as [|x A]; [apply subseq_nil_l|].
    pose proof HA as HA'. apply sorted_cons in HA' as [Hbx HA'].
    unfold below in Hbx, Hby. rewrite Forall_forall in Hbx, Hby.
    destruct (Hincl x (or_introl eq_refl)) as [E|Hx].
    + subst y. apply subseq_keep. apply IH; try assumption.
      intros z Hz. destruct (Hincl z (or_intror Hz)) as [E|Hz']; [|assumption].
      subst z. apply Hbx in Hz. now rewrite ltb_irrefl in Hz.
    + apply subseq_skip. apply IH; try assumption.
      intros z Hz. destruct (Hincl z Hz) as [E|Hz']; [|assumption].
      exfalso. subst z. apply Hby in Hx.
      destruct Hz as [E|Hz].
      * subst x. now rewrite ltb_irrefl in Hx.
      * apply Hbx in Hz. apply ltb_asym in Hz. congruence.
Qed.

Lemma valid_loop_entries (M : map_t T) (total S : float) :
  valid_loop M total = Return S ->
  Forall (fun kv => (snd kv <? 0) = false) M.
Proof.
  revert total. induction M as [|[k v] M IH]; intros total; simpl.
  - constructor.
  - destruct (v <? 0) eqn:Hv; [discriminate|].
    intros Hl. constructor; [exact Hv|]. now apply IH in Hl.
Qed.

Lemma constructed_masses_nonneg (M : map_t T) (s0 : ProbabilitySpace T) :
  construct M = Return s0 -> no_nan M -> masses_nonneg (map snd M).
Proof.
  intros Hc Hn. destruct (construct_Return M Hc) as [_ [Hv _]].
  apply valid_loop_entries in Hv. unfold masses_nonneg, no_nan in *.
  rewrite Forall_map. rewrite Forall_forall in *.
  intros kv Hin. apply fnonneg_iff. split; [now apply Hn|now apply Hv].
Qed.

Lemma mass_nonneg (M : map_t T) (o : T) :
  masses_nonneg (map snd M) -> fnonneg (mass M o) = true.
Proof.
  unfold mass. induction M as [|[k v] M IH]; intros Hm; [reflexivity|].
  inversion Hm as [|? ? Hv Hm']; subst. simpl.
  destruct (equiv k o); [exact Hv|now apply IH].
Qed.

Lemma event_masses_nonneg (M : map_t T) (E : list T) :
  masses_nonneg (map snd M) -> masses_nonneg (map (mass M) E).
Proof.
  intros Hm. unfold masses_nonneg. rewrite Forall_map, Forall_forall.
  intros o _. now apply mass_nonneg.
Qed.

(** Monotonicity: of two events, the one included in the other has the
    smaller (or the same) mass. *)
Lemma event_mass_incl (M : map_t T) (A B : set_t T) :
  masses_nonneg (map snd M) ->
  set_wf A -> set_wf B -> incl A B ->
  fnonneg (event_mass M A) = true
  /\ fnonneg (event_mass M B) = true
  /\ (fval (event_mass M A) <= fval (event_mass M B))%Z.
Proof.
  intros Hm HA HB Hincl. unfold event_mass.
  assert (HmA := @event_masses_nonneg M (filter (is_key M) A) Hm).
  assert (HmB := @event_masses_nonneg M (filter (is_key M) B) Hm).
  split; [now apply sum_from_nonneg|]. split; [now apply sum_from_nonneg|].
  apply sum_from_subseq; try reflexivity; try assumption.
  apply subseq_map, subseq_filter. now apply sorted_incl_subseq.
Qed.

(** *** The constructor, case by case *)

Lemma valid_loop_cases (M : map_t T) (total : float) :
  valid_loop M total =
  if some_negative M then Throw (invalid_argument msg_negative)
  else Return (sum_from total (map snd M)).
Proof.
  revert total. induction M as [|[k v] M IH]; intros total; [reflexivity|].
  unfold some_negative in *. simpl. destruct (v <? 0); [reflexivity|].
  apply IH.
Qed.

(** What the constructor does, on every mapping. *)
Lemma construct_cases (M : map_t T) :
  construct M =
  if some_negative M then Throw (invalid_argument msg_negative)
  else if EPSILON <? abs (total_mass M - 1)
       then Throw (invalid_argument msg_sum)
       else Return {| space := M; events := getKeys M; ignoreUnknown := false |}.
Proof.
  unfold construct, validProbabilitySpace. rewrite valid_loop_cases.
  destruct (some_negative M); [reflexivity|].
  fold (total_mass M). now destruct (EPSILON <? abs (total_mass M - 1)).
Qed.

Lemma some_negative_false (M : map_t T) :
  no_nan M ->
  (some_negative M = false <-> Forall (fun kv => (0 <=? snd kv) = true) M).
Proof.
  unfold no_nan, some_negative. induction M as [|[k v] M IH]; intros Hn.
  - simpl. split; [constructor|reflexivity].
  - inversion Hn as [|? ? Hv Hn']; subst. simpl in Hv. simpl existsb.
    rewrite orb_false_iff, (IH Hn'). split.
    + intros [Hlt HM]. constructor; [|exact HM]. simpl.
      apply leb_zero_iff, fnonneg_iff. now split.
    + intros HM. inversion HM as [|? ? Hle HM']; subst. split; [|exact HM'].
      simpl in Hle. now apply leb_zero_iff, fnonneg_iff in Hle.
Qed.

Lemma total_mass_nonneg (M : map_t T) :
  Forall (fun kv => (0 <=? snd kv) = true) M ->
  fnonneg (total_mass M) = true.
Proof.
  intros HM. apply sum_from_nonneg; [|reflexivity].
  unfold masses_nonneg. rewrite Forall_map.
  eapply Forall_impl; [|exact HM]. intros kv Hle. now apply leb_zero_iff.
Qed.

(** *** Inclusion and exclusion *)

Lemma weight_sum_cons (w : T -> Z) (o : T) (l : list T) :
  weight_sum w (o :: l) = (w o + weight_sum w l)%Z.
Proof. reflexivity. Qed.

(** The merged sets of a union and of an intersection hold, between them,
    every outcome of [A] and every outcome of [B] once. *)
Lemma union_intersection_weights (w : T -> Z) (A B : list T) :
  (weight_sum w (set_union A B) + weight_sum w (set_intersection A B)
   = weight_sum w A + weight_sum w B)%Z.
Proof.
  revert B. induction A as [|x A IHA]; intros B.
  - destruct B; simpl; lia.
  - induction B as [|y B IHB].
    + rewrite set_union_nil_r, set_intersection_nil_r. simpl. lia.
    + rewrite set_union_cons, set_intersection_cons.
      destruct (ltb y x) eqn:Hyx; [|destruct (ltb x y) eqn:Hxy].
      * rewrite (ltb_asym _ _ Hyx). rewrite !weight_sum_cons in *. lia.
      * specialize (IHA (y :: B)). rewrite !weight_sum_cons in *. lia.
      * assert (x = y) by now apply ltb_total. subst y.
        specialize (IHA B). rewrite !weight_sum_cons in *. lia.
Qed.

Lemma weight_sum_length (l : list T) :
  weight_sum (fun _ => 1%Z) l = Z.of_nat (List.length l).
Proof.
  induction l as [|o l IH]; [reflexivity|].
  rewrite weight_sum_cons, IH. cbn [List.length]. lia.
Qed.

Lemma exact_sum_masses (M : map_t T) (l : list T) :
  exact_sum (map (mass M) l) = weight_sum (fun o => fval (mass M o)) l.
Proof.
  induction l as [|o l IH]; [reflexivity|].
  rewrite weight_sum_cons, <- IH. reflexivity.
Qed.

End Bounds.

Section BelowTheTotal.
Context {T : Type} `{Ordered T}.
Import Binary64 Binary64Facts Binary64Signed Binary64Division.

(** The mass of any event is at most the total, and the total is below 2. *)
Lemma event_mass_le_total (M : map_t T) (s0 : ProbabilitySpace T) (E : set_t T) :
  map_wf M -> construct M = Return s0 -> no_nan M -> set_wf E ->
  fnonneg (event_mass M E) = true
  /\ fnonneg (total_mass M) = true
  /\ (fval (event_mass M E) <= fval (total_mass M))%Z
  /\ (fval (total_mass M) < fval 1 + fval EPSILON_up)%Z
  /\ (fval (total_mass M) < fval 2)%Z.
Proof.
  intros HM Hc Hn HE.
  pose proof (constructed_masses_nonneg Hc Hn) as Hm.
  destruct (construct_Return M Hc) as [_ [_ Htol]].
  destruct (@event_mass_incl T _ M (filter (is_key M) E) (map fst M) Hm)
    as [HpE [HpS Hle]].
  { now apply sorted_filter. }
  { exact HM. }
  { intros o Ho. apply filter_In in Ho. now apply is_key_In. }
  rewrite event_mass_filter in HpE, Hle. rewrite (event_mass_keys HM) in HpS, Hle.
  pose proof (tolerance_bound HpS Htol) as Hb.
  assert (Htwo : (fval 1 + fval EPSILON_up < fval 2)%Z) by now vm_compute.
  repeat split; try assumption. lia.
Qed.

End BelowTheTotal.


(** * The space with millions of outcomes *)

Section Crowded.
Import Binary64 Binary64Facts.
Variable n : nat.

Lemma crowd_from_sorted (a k : nat) :
  sorted (map Z.of_nat (seq a k)) = true
  /\ below (Z.of_nat a - 1)%Z (map Z.of_nat (seq a k)).
Proof.
  revert a. induction k as [|k IH]; intros a.
  - split; [reflexivity|constructor].
  - destruct (IH (S a)) as [Hs Hb]. cbn [seq map].
    replace (Z.of_nat (S a) - 1)%Z with (Z.of_nat a) in Hb by lia.
    split.
    + apply sorted_cons. split; assumption.
    + constructor; [cbn; apply Z.ltb_lt; lia|].
      eapply below_trans; [|exact Hb]. cbn. apply Z.ltb_lt. lia.
Qed.

Lemma crowd_wf : set_wf (crowd n).
Proof. apply (crowd_from_sorted 1 n). Qed.

Lemma crowd_positive : below 0%Z (crowd n).
Proof. apply (crowd_from_sorted 1 n). Qed.

Lemma tiny_masses_keys : map fst (tiny_masses n) = crowd n.
Proof.
  unfold tiny_masses. rewrite map_map. cbn [fst]. apply map_id.
Qed.

Lemma tiny_masses_values :
  map snd (tiny_masses n) = map (fun _ => tiny) (crowd n).
Proof. unfold tiny_masses. now rewrite map_map. Qed.

Lemma crowded_keys : map fst (crowded n) = 0%Z :: crowd n.
Proof. unfold crowded. cbn [map fst]. now rewrite tiny_masses_keys. Qed.

Lemma crowded_wf : map_wf (crowded n).
Proof.
  unfold map_wf. rewrite crowded_keys. apply sorted_cons.
  split; [apply crowd_positive|apply crowd_wf].
Qed.

Lemma crowded_no_nan : no_nan (crowded n).
Proof.
  unfold no_nan, crowded, tiny_masses. constructor; [reflexivity|].
  rewrite Forall_map. apply Forall_forall. reflexivity.
Qed.

(** 1 + 2^-53 is halfway between 1 and the next double: it rounds to the
    even one, 1. *)
Lemma one_absorbs_tiny (l : list Z) :
  sum_from 1 (map (fun _ => tiny) l) = 1%float.
Proof. induction l as [|o l IH]; [reflexivity|exact IH]. Qed.

Lemma crowded_total : total_mass (crowded n) = 1%float.
Proof.
  unfold total_mass, crowded. cbn [map snd]. rewrite tiny_masses_values.
  apply one_absorbs_tiny.
Qed.

Lemma crowded_constructed : construct (crowded n) = Return (crowded_space n).
Proof.
  rewrite construct_cases.
  assert (Hneg : some_negative (crowded n) = false).
  { unfold some_negative, crowded, tiny_masses. cbn [existsb snd].
    change (1 <? 0) with false. cbn [orb].
    induction (crowd n) as [|o l IH]; [reflexivity|exact IH]. }
  rewrite Hneg, crowded_total.
  change (EPSILON <? abs (1 - 1)) with false. cbv iota.
  unfold crowded_space. f_equal. f_equal.
  rewrite (getKeys_wf crowded_wf). apply crowded_keys.
Qed.

(** The small masses add up exactly, as long as there are fewer than 2^53
    of them. *)
Lemma round64_small_multiple (k : Z) :
  (0 <= k < 2 ^ 53)%Z -> round64 (k * 2 ^ 1021) = (k * 2 ^ 1021)%Z.
Proof.
  intros Hk. unfold round64.
  assert (Hlt : (k * 2 ^ 1021 < top)%Z).
  { apply (mant_below_top k (-53)); lia. }
  assert (H0 : (0 <= k * 2 ^ 1021)%Z).
  { apply Z.mul_nonneg_nonneg; [lia|]. apply Z.pow_nonneg. lia. }
  rewrite round53_exact; [lia|exact H0|].
  destruct (Z.eq_dec k 0) as [->|Hnz]; [now rewrite Z.mul_0_l, Zmod_0_l|].
  assert (Hd : (Zdigits2 k <= 53)%Z) by (apply Zdigits2_below; lia).
  pose proof (Zdigits2_pos k ltac:(lia)) as Hdp.
  unfold drop. rewrite Zdigits2_shift by lia.
  set (d := Z.max (Zdigits2 k + 1021 - 53) 0).
  assert (Hd' : (0 <= d <= 1021)%Z) by (unfold d; lia).
  replace 1021%Z with ((1021 - d) + d)%Z at 1 by lia.
  rewrite Z.pow_add_r, Z.mul_assoc by lia.
  apply Z.mod_mul. apply Z.pow_nonzero; lia.
Qed.

Lemma fval_tiny : fval tiny = (2 ^ 1021)%Z.
Proof. reflexivity. Qed.

Lemma sum_of_tiny (l : list Z) (a : float) (j : Z) :
  fnonneg a = true -> fval a = (j * 2 ^ 1021)%Z ->
  (0 <= j)%Z -> (j + Z.of_nat (List.length l) < 2 ^ 53)%Z ->
  fval (sum_from a (map (fun _ => tiny) l))
  = ((j + Z.of_nat (List.length l)) * 2 ^ 1021)%Z.
Proof.
  revert a j. induction l as [|o l IH]; intros a j Ha Hv Hj Hlt.
  - cbn. now rewrite Z.add_0_r.
  - cbn [map sum_from fold_left]. fold (sum_from (a + tiny) (map (fun _ => tiny) l)).
    cbn [List.length] in *. rewrite Nat2Z.inj_succ in *.
    destruct (add_nonneg a tiny Ha eq_refl) as [Hnn Hs].
    rewrite (IH (a + tiny)%float (j + 1)%Z Hnn); [f_equal; lia| |lia|lia].
    rewrite Hs, Hv, fval_tiny.
    replace (j * 2 ^ 1021 + 2 ^ 1021)%Z with ((j + 1) * 2 ^ 1021)%Z by ring.
    apply round64_small_multiple. lia.
Qed.

Lemma crowded_consistent : consistent (crowded_space n).
Proof.
  split; [apply crowded_wf|]. symmetry. apply crowded_keys.
Qed.

Lemma crowd_incl : incl (crowd n) (map fst (crowded n)).
Proof. rewrite crowded_keys. apply incl_tl, incl_refl. Qed.

Lemma zero_incl : incl [0%Z] (map fst (crowded n)).
Proof. rewrite crowded_keys. intros o [<-|[]]. now left. Qed.

Lemma union_zero_crowd : set_union [0%Z] (crowd n) = 0%Z :: crowd n.
Proof.
  pose proof crowd_positive as Hb.
  destruct (crowd n) as [|y l]; [reflexivity|].
  inversion Hb as [|? ? Hy _]; subst.
  rewrite set_union_cons, (ltb_asym _ _ Hy), Hy. reflexivity.
Qed.

Lemma intersection_zero_crowd : set_intersection [0%Z] (crowd n) = [].
Proof.
  pose proof crowd_positive as Hb.
  destruct (crowd n) as [|y l]; [reflexivity|].
  inversion Hb as [|? ? Hy _]; subst.
  rewrite set_intersection_cons, Hy. reflexivity.
Qed.

Lemma mass_of_zero : event_mass (crowded n) [0%Z] = 1%float.
Proof.
  unfold event_mass, crowded. cbn [filter].
  rewrite find_is_key, find_head. cbn [map]. unfold mass.
  rewrite find_head. reflexivity.
Qed.

Lemma mass_of_crowd :
  event_mass (crowded n) (crowd n)
  = sum_from 0 (map (fun _ => tiny) (crowd n)).
Proof.
  unfold event_mass, crowded.
  rewrite (masses_skip_head 1 (tiny_masses n) crowd_positive).
  rewrite <- tiny_masses_keys at 1.
  rewrite masses_of_keys, tiny_masses_values; [reflexivity|].
  unfold map_wf. rewrite tiny_masses_keys. apply crowd_wf.
Qed.

Lemma crowd_length : List.length (crowd n) = n.
Proof. unfold crowd. now rewrite length_map, length_seq. Qed.

(** On the crowded space, with [A] the heavy outcome and [B] the crowd:
    [P(A u B) = P(A) = 1], [P(A n B) = 0], and [P(B)] is [n * 2^-53]. *)
Lemma crowded_probabilities :
  (Z.of_nat n < 2 ^ 53)%Z ->
  let s := crowded_space n in
  fst (unionOfEvents [0%Z] (crowd n) s) = Return 1
  /\ fst (probabilityOfSet [0%Z] s) = Return 1
  /\ fst (intersectionOfEvents [0%Z] (crowd n) s) = Return 0
  /\ exists pB : float,
       fst (probabilityOfSet (crowd n) s) = Return pB
       /\ fval pB = (Z.of_nat n * 2 ^ 1021)%Z.
Proof.
  intros Hn s.
  pose proof crowded_consistent as Hs. fold s in Hs.
  assert (HA : set_wf [0%Z]) by reflexivity.
  pose proof crowd_wf as HB.
  assert (HaA : accepts s [0%Z] = true).
  { unfold accepts, s, crowded_space. cbn [space ignoreUnknown orb].
    apply all_known_incl, zero_incl. }
  assert (HaB : accepts s (crowd n) = true).
  { unfold accepts, s, crowded_space. cbn [space ignoreUnknown orb].
    apply all_known_incl, crowd_incl. }
  unfold unionOfEvents, probabilityOfSet, intersectionOfEvents.
  rewrite (unionEvents_run Hs HA HB), (intersectionEvents_run Hs HA HB),
    (probabilityCalculator_run Hs HA), (probabilityCalculator_run Hs HB),
    HaA, HaB.
  unfold s, crowded_space. cbn [space fst andb].
  rewrite union_zero_crowd, intersection_zero_crowd, mass_of_zero.
  split; [|split; [reflexivity|split; [reflexivity|]]].
  - rewrite <- crowded_keys, (event_mass_keys crowded_wf).
    now rewrite crowded_total.
  - exists (event_mass (crowded n) (crowd n)). split; [reflexivity|].
    rewrite mass_of_crowd.
    rewrite (@sum_of_tiny (crowd n) 0%float 0%Z eq_refl eq_refl);
      rewrite ?crowd_length; [reflexivity|lia|lia].
Qed.

End Crowded.

(** * The test program, replayed

    Every test of [test_probability_space.cpp] goes as the program
    expects. *)

Example main_succeeds : main = Return (repeat SUCCESS 32).
Proof. vm_compute. reflexivity. Qed.

(** * The specification's statements *)

(** The kind of a given exception, computed. *)
Ltac eval_kinds :=
  repeat match goal with
  | |- context [kind_of ?e] =>
      let v := eval vm_compute in (kind_of e) in change (kind_of e) with v
  end.

Section Claims.
Context {T : Type} `{Ordered T}.
Import Binary64 Binary64Facts.

(** C1. On a constructed space, whenever [probabilityOfSet(E)] returns, it
    returns the sum of [M(o)] over the outcomes [o] of [E] that are keys of
    [M] (added in the order of the event); in permissive mode it always
    returns, and the outcomes outside the sample space add nothing; the
    empty event has probability 0, and the sample space has the total that
    the validation computed. *)
Theorem probabilityOfSet_sums_member_masses
  (M : map_t T) (s0 : ProbabilitySpace T) :
  map_wf M -> construct M = Return s0 ->
  (forall mode E p s', set_wf E ->
     probabilityOfSet E (with_mode mode s0) = (Return p, s') ->
     p = event_mass M E)
  /\ (forall E, set_wf E ->
        fst (probabilityOfSet E (with_mode true s0)) = Return (event_mass M E)
        /\ event_mass M E = event_mass M (filter (is_key M) E))
  /\ (forall mode, fst (probabilityOfSet [] (with_mode mode s0)) = Return 0)
  /\ (forall mode, exists S,
        valid_loop M 0 = Return S
        /\ fst (probabilityOfSet (events s0) (with_mode mode s0)) = Return S).
Proof.
  intros HM Hc.
  assert (Hrun : forall mode E, set_wf E ->
            probabilityOfSet E (with_mode mode s0) =
            (if mode || all_known M E then Return (event_mass M E)
             else Throw unknown_outcome, with_mode mode s0)).
  { intros mode E HE.
    destruct (construct_consistent mode HM Hc) as [Hs [Hsp Hmode]].
    unfold probabilityOfSet. rewrite (probabilityCalculator_run Hs HE).
    now rewrite (accepts_with_mode mode E HM Hc), Hsp. }
  repeat split.
  - intros mode E p s' HE. rewrite (Hrun mode E HE).
    destruct (mode || all_known M E); congruence.
  - now rewrite (Hrun true E).
  - symmetry. apply event_mass_filter.
  - intros mode. rewrite (Hrun mode []) by reflexivity.
    now rewrite orb_true_r.
  - intros mode. exists (total_mass M).
    destruct (construct_Return M Hc) as [Hs0 [Hv _]]. split; [exact Hv|].
    assert (He : events s0 = map fst M).
    { rewrite Hs0. simpl. now apply getKeys_wf. }
    rewrite He, (Hrun mode (map fst M) HM), all_known_keys, orb_true_r.
    simpl. now rewrite (event_mass_keys HM).
Qed.

(** On the mappings that hold no NaN, the constructor is as the
    documentation has it: it succeeds exactly when every mass is at least 0
    and the total is within [EPSILON] of 1; a mass below 0 is reported
    first, as such, and a total out of the tolerance otherwise. *)
Theorem construct_without_nan (M : map_t T) :
  no_nan M ->
  let nonnegative := Forall (fun kv => (0 <=? snd kv) = true) M in
  let sums_to_one := (abs (total_mass M - 1) <=? EPSILON) = true in
  (construct M
   = Return {| space := M; events := getKeys M; ignoreUnknown := false |}
   <-> nonnegative /\ sums_to_one)
  /\ (construct M = Throw (invalid_argument msg_negative) <-> ~ nonnegative)
  /\ (construct M = Throw (invalid_argument msg_sum)
      <-> nonnegative /\ ~ sums_to_one).
Proof.
  intros Hn nonnegative sums_to_one. subst nonnegative sums_to_one.
  rewrite construct_cases.
  pose proof (some_negative_false Hn) as Hneg.
  destruct (some_negative M).
  - assert (Hno : ~ Forall (fun kv => (0 <=? snd kv) = true) M).
    { intros HM. apply Hneg in HM. discriminate. }
    repeat split; try discriminate; tauto.
  - assert (HM : Forall (fun kv => (0 <=? snd kv) = true) M) by now apply Hneg.
    rewrite (tolerance_test _ (total_mass_nonneg HM)).
    destruct (abs (total_mass M - 1) <=? EPSILON).
    + simpl. repeat split; try discriminate; tauto.
    + simpl. repeat split; try discriminate; try tauto.
      intros [_ Hf]. discriminate.
Qed.

(** C3. In strict mode each of the five queries fails with UnknownOutcome
    exactly when one of its events has an outcome outside the sample space;
    in permissive mode none of them fails with UnknownOutcome. *)
Theorem UnknownOutcome_iff_strict_and_foreign
  (M : map_t T) (s0 : ProbabilitySpace T) (A B : set_t T) :
  map_wf M -> construct M = Return s0 -> set_wf A -> set_wf B ->
  let strict := with_mode false s0 in
  let permissive := with_mode true s0 in
  (fails_with UnknownOutcome (fst (probabilityOfSet A strict))
     <-> foreign M A)
  /\ (fails_with UnknownOutcome (fst (complementOfEvent A strict))
     <-> foreign M A)
  /\ (fails_with UnknownOutcome (fst (unionOfEvents A B strict))
     <-> foreign M A \/ foreign M B)
  /\ (fails_with UnknownOutcome (fst (intersectionOfEvents A B strict))
     <-> foreign M A \/ foreign M B)
  /\ (fails_with UnknownOutcome (fst (conditionalProbability A B strict))
     <-> foreign M A \/ foreign M B)
  /\ ~ fails_with UnknownOutcome (fst (probabilityOfSet A permissive))
  /\ ~ fails_with UnknownOutcome (fst (complementOfEvent A permissive))
  /\ ~ fails_with UnknownOutcome (fst (unionOfEvents A B permissive))
  /\ ~ fails_with UnknownOutcome (fst (intersectionOfEvents A B permissive))
  /\ ~ fails_with UnknownOutcome (fst (conditionalProbability A B permissive)).
Proof.
  intros HM Hc HA HB strict permissive.
  destruct (construct_consistent false HM Hc) as [Hs [Hsp _]].
  destruct (construct_consistent true HM Hc) as [Hp [Hpp _]].
  fold strict in Hs, Hsp. fold permissive in Hp, Hpp.
  assert (HaA := accepts_with_mode false A HM Hc).
  assert (HaB := accepts_with_mode false B HM Hc).
  assert (HpA := accepts_with_mode true A HM Hc).
  assert (HpB := accepts_with_mode true B HM Hc).
  fold strict in HaA, HaB. fold permissive in HpA, HpB. simpl in *.
  assert (Hor : all_known M A && all_known M B = false
                <-> foreign M A \/ foreign M B).
  { rewrite andb_false_iff, !all_known_foreign. tauto. }
  unfold probabilityOfSet, complementOfEvent, unionOfEvents,
    intersectionOfEvents, conditionalProbability.
  rewrite (probabilityCalculator_run Hs HA), (complement_run Hs HA),
    (unionEvents_run Hs HA HB), (intersectionEvents_run Hs HA HB),
    (conditionalProbability_run Hs HA HB),
    (probabilityCalculator_run Hp HA), (complement_run Hp HA),
    (unionEvents_run Hp HA HB), (intersectionEvents_run Hp HA HB),
    (conditionalProbability_run Hp HA HB).
  rewrite HaA, HaB, HpA, HpB. cbn [fst andb].
  rewrite <- Hor, <- (all_known_foreign M A).
  assert (Hcz : ~ fails_with UnknownOutcome
                  (Throw condition_on_zero : outcome float)).
  { rewrite fails_with_Throw. discriminate. }
  assert (Huo : fails_with UnknownOutcome
                  (Throw unknown_outcome : outcome float)).
  { now rewrite fails_with_Throw. }
  repeat split;
    repeat match goal with
      | |- context [if ?c then _ else _] => destruct c
      end;
    try solve [ discriminate | reflexivity | intros _; exact Huo
              | intros Hf; exfalso;
                first [ exact (Hcz Hf) | eapply fails_with_Return; exact Hf ] ].
Qed.


(** C5, amended.  On a constructed space none of whose masses is NaN, the
    probability of an event [E] of outcomes of the sample space is a double
    between 0 and the total mass [S] that the validation accepted, which is
    also the probability of the sample space; [S] is within the tolerance of
    1, so it is below 1.000000001 (as a double), but it can be above 1. *)
Theorem probability_between_zero_and_total
  (M : map_t T) (s0 : ProbabilitySpace T) (mode : bool) (E : set_t T) :
  map_wf M -> construct M = Return s0 -> no_nan M ->
  set_wf E -> incl E (map fst M) ->
  exists p : float,
    fst (probabilityOfSet E (with_mode mode s0)) = Return p
    /\ (0 <=? p) = true
    /\ (p <=? total_mass M) = true
    /\ fst (probabilityOfSet (events s0) (with_mode mode s0))
       = Return (total_mass M)
    /\ (total_mass M <? total_bound) = true.
Proof.
  intros HM Hc Hn HE Hincl.
  pose proof (constructed_masses_nonneg Hc Hn) as Hm.
  destruct (construct_consistent mode HM Hc) as [Hs [Hsp Hmode]].
  destruct (construct_Return M Hc) as [Hs0 [_ Htol]].
  assert (Hev : events s0 = map fst M).
  { rewrite Hs0. simpl. now apply getKeys_wf. }
  assert (Hrun : forall A, set_wf A -> incl A (map fst M) ->
            fst (probabilityOfSet A (with_mode mode s0))
            = Return (event_mass M A)).
  { intros A HA HiA. unfold probabilityOfSet.
    rewrite (probabilityCalculator_run Hs HA),
      (accepts_with_mode mode A HM Hc), Hsp.
    apply all_known_incl in HiA. rewrite HiA, orb_true_r. reflexivity. }
  destruct (@event_mass_incl T _ M E (map fst M) Hm HE HM Hincl)
    as [HpE [HpS Hle]].
  rewrite (event_mass_keys HM) in HpS, Hle.
  exists (event_mass M E). split; [now apply Hrun|].
  split; [|split; [|split]].
  - rewrite (leb_nonneg 0 _ fnonneg_0 HpE), fval_0.
    apply Z.leb_le, val_nonneg.
  - rewrite (leb_nonneg _ _ HpE HpS). now apply Z.leb_le.
  - rewrite Hev, (Hrun (map fst M) HM (incl_refl _)).
    now rewrite (event_mass_keys HM).
  - rewrite (ltb_nonneg _ total_bound HpS eq_refl). apply Z.ltb_lt.
    pose proof (tolerance_bound HpS Htol). pose proof fval_total_bound.
    lia.
Qed.

(** C6, amended.  On a constructed space none of whose masses is NaN, for
    events [A] and [B] of outcomes of the sample space that have at most
    4503599 outcomes together, the four doubles returned for [A u B], [A],
    [B] and [A n B], read as the real numbers they stand for, satisfy
    [|P(A u B) - (P(A) + P(B) - P(A n B))| <= 10^-9].  ([fval x] is the
    value of the double [x] in units of 2^-1074.) *)
Theorem inclusion_exclusion_within_epsilon
  (M : map_t T) (s0 : ProbabilitySpace T) (mode : bool) (A B : set_t T) :
  map_wf M -> construct M = Return s0 -> no_nan M ->
  set_wf A -> set_wf B -> incl A (map fst M) -> incl B (map fst M) ->
  (Z.of_nat (List.length A) + Z.of_nat (List.length B) <= max_outcomes)%Z ->
  let s := with_mode mode s0 in
  exists pU pA pB pI : float,
    fst (unionOfEvents A B s) = Return pU
    /\ fst (probabilityOfSet A s) = Return pA
    /\ fst (probabilityOfSet B s) = Return pB
    /\ fst (intersectionOfEvents A B s) = Return pI
    /\ (10 ^ 9 * Z.abs (fval pU - (fval pA + fval pB - fval pI))
        <= 2 ^ 1074)%Z.
Proof.
  intros HM Hc Hn HA HB HiA HiB Hlen s.
  pose proof (constructed_masses_nonneg Hc Hn) as Hm.
  destruct (construct_consistent mode HM Hc) as [Hs [Hsp Hmode]].
  fold s in Hs, Hsp, Hmode.
  destruct (construct_Return M Hc) as [_ [_ Htol]].
  assert (HkA := proj2 (all_known_incl M A) HiA).
  assert (HkB := proj2 (all_known_incl M B) HiB).
  assert (HaA : accepts s A = true).
  { unfold accepts. now rewrite Hsp, HkA, orb_true_r. }
  assert (HaB : accepts s B = true).
  { unfold accepts. now rewrite Hsp, HkB, orb_true_r. }
  pose proof (set_union_sorted _ _ HA HB) as HU.
  pose proof (set_intersection_sorted _ _ HA HB) as HI.
  assert (HiU : incl (set_union A B) (map fst M)).
  { intros o Ho. apply set_union_In in Ho as [Ho|Ho]; auto. }
  assert (HiI : incl (set_intersection A B) (map fst M)).
  { intros o Ho. apply set_intersection_In in Ho as [Ho _]; auto. }
  exists (event_mass M (set_union A B)), (event_mass M A),
    (event_mass M B), (event_mass M (set_intersection A B)).
  unfold unionOfEvents, probabilityOfSet, intersectionOfEvents.
  rewrite (unionEvents_run Hs HA HB), (intersectionEvents_run Hs HA HB),
    (probabilityCalculator_run Hs HA), (probabilityCalculator_run Hs HB),
    HaA, HaB, Hsp.
  repeat (split; [reflexivity|]).
  (* each sum is below 2, and so within its rounding errors of the exact one *)
  assert (Hsum : forall X : set_t T, set_wf X -> incl X (map fst M) ->
            (2 * Z.abs (fval (event_mass M X)
                        - weight_sum (fun o => fval (mass M o)) X)
             <= Z.of_nat (List.length X) * ulp_one)%Z).
  { intros X HX HiX.
    destruct (@event_mass_incl T _ M X (map fst M) Hm HX HM HiX)
      as [_ [HpS Hle]].
    rewrite (event_mass_keys HM) in HpS, Hle.
    pose proof (tolerance_bound HpS Htol) as Hb.
    assert (Htwo : (fval 1%float + fval EPSILON_up < fval 2%float)%Z)
      by now vm_compute.
    unfold event_mass in *.
    rewrite (filter_is_key_known M X (proj2 (all_known_incl M X) HiX)) in *.
    assert (Hlt : (fval (sum_from 0%float (map (mass M) X)) < fval 2%float)%Z)
      by lia.
    pose proof (@sum_from_error (map (mass M) X) 0%float
                  (@event_masses_nonneg T _ M X Hm) fnonneg_0 Hlt) as He.
    rewrite fval_0, Z.add_0_l, exact_sum_masses, length_map in He.
    exact He. }
  pose proof (Hsum _ HU HiU) as EU. pose proof (Hsum _ HI HiI) as EI.
  pose proof (Hsum _ HA HiA) as EA. pose proof (Hsum _ HB HiB) as EB.
  pose proof (union_intersection_weights (fun o => fval (mass M o)) A B) as Hw.
  pose proof (union_intersection_weights (fun _ => 1%Z) A B) as Hl.
  rewrite !weight_sum_length in Hl.
  assert (Hlen' : (Z.of_nat (List.length A) + Z.of_nat (List.length B)
                   <= 4503599)%Z) by exact Hlen.
  pose proof ulp_one_pos as Hulp.
  assert (Hpow : (2 ^ 1074 = 2 ^ 52 * ulp_one)%Z).
  { unfold ulp_one. now rewrite pow2_add by lia. }
  rewrite Hpow. change (2 ^ 52)%Z with 4503599627370496%Z.
  change (10 ^ 9)%Z with 1000000000%Z.
  set (u := ulp_one) in *.
  set (nA := Z.of_nat (List.length A)) in *.
  set (nB := Z.of_nat (List.length B)) in *.
  set (nU := Z.of_nat (List.length (set_union A B))) in *.
  set (nI := Z.of_nat (List.length (set_intersection A B))) in *.
  assert (Hgap : (Z.abs (fval (event_mass M (set_union A B))
                         - (fval (event_mass M A) + fval (event_mass M B)
                            - fval (event_mass M (set_intersection A B))))
                  <= (nA + nB) * u)%Z) by nia.
  assert (Hmul : ((nA + nB) * u <= 4503599 * u)%Z)
    by (apply Z.mul_le_mono_nonneg_r; lia).
  nia.
Qed.

(** C7. On a constructed space, a query whose events are made of outcomes
    of the sample space gives the same result in strict and in permissive
    mode. *)
Theorem mode_is_irrelevant_without_foreign_outcomes
  (M : map_t T) (s0 : ProbabilitySpace T) (A B : set_t T) :
  map_wf M -> construct M = Return s0 -> set_wf A -> set_wf B ->
  incl A (map fst M) -> incl B (map fst M) ->
  let strict := with_mode false s0 in
  let permissive := with_mode true s0 in
  fst (probabilityOfSet A strict) = fst (probabilityOfSet A permissive)
  /\ fst (complementOfEvent A strict) = fst (complementOfEvent A permissive)
  /\ fst (unionOfEvents A B strict) = fst (unionOfEvents A B permissive)
  /\ fst (intersectionOfEvents A B strict)
     = fst (intersectionOfEvents A B permissive)
  /\ fst (conditionalProbability A B strict)
     = fst (conditionalProbability A B permissive).
Proof.
  intros HM Hc HA HB HiA HiB strict permissive.
  destruct (construct_consistent false HM Hc) as [Hs [Hsp _]].
  destruct (construct_consistent true HM Hc) as [Hp [Hpp _]].
  fold strict in Hs, Hsp. fold permissive in Hp, Hpp.
  assert (HaA := accepts_with_mode false A HM Hc).
  assert (HaB := accepts_with_mode false B HM Hc).
  assert (HpA := accepts_with_mode true A HM Hc).
  assert (HpB := accepts_with_mode true B HM Hc).
  fold strict in HaA, HaB. fold permissive in HpA, HpB.
  apply all_known_incl in HiA, HiB. rewrite HiA in HaA. rewrite HiB in HaB.
  simpl in HaA, HaB, HpA, HpB.
  unfold probabilityOfSet, complementOfEvent, unionOfEvents,
    intersectionOfEvents, conditionalProbability.
  rewrite (probabilityCalculator_run Hs HA), (complement_run Hs HA),
    (unionEvents_run Hs HA HB), (intersectionEvents_run Hs HA HB),
    (conditionalProbability_run Hs HA HB),
    (probabilityCalculator_run Hp HA), (complement_run Hp HA),
    (unionEvents_run Hp HA HB), (intersectionEvents_run Hp HA HB),
    (conditionalProbability_run Hp HA HB).
  rewrite HaA, HaB, HpA, HpB, Hsp, Hpp. simpl. auto.
Qed.

(** C8. [setIgnoreUnknown(b)] changes the flag and nothing else; every
    query and [getCurrentMode] leave the three data members as they are; so
    after any sequence of calls on a constructed object the mass function
    and the sample space are those of the construction, and
    [getCurrentMode()] returns the flag most recently set, [false] if none
    was. *)
Theorem only_setIgnoreUnknown_changes_the_object :
  (forall (b : bool) (s : ProbabilitySpace T),
     setIgnoreUnknown b s =
     (Return tt,
      {| space := space s; events := events s; ignoreUnknown := b |}))
  /\ (forall (s : ProbabilitySpace T) (A B : set_t T),
        snd (probabilityOfSet A s) = s
        /\ snd (complementOfEvent A s) = s
        /\ snd (unionOfEvents A B s) = s
        /\ snd (intersectionOfEvents A B s) = s
        /\ snd (conditionalProbability A B s) = s
        /\ getCurrentMode s = (Return (ignoreUnknown s), s))
  /\ (forall (M : map_t T),
        match construct M with
        | Return s0 =>
            space s0 = M /\ ignoreUnknown s0 = false
            /\ forall cs : list call,
                 space (after_all cs s0) = M
                 /\ events (after_all cs s0) = events s0
                 /\ fst (getCurrentMode (after_all cs s0))
                    = Return (last_mode_set cs false)
        | Throw _ => True
        end).
Proof.
  split; [reflexivity|]. split.
  - intros s A B. repeat split.
    + apply probabilityCalculator_frames.
    + apply complement_frames.
    + apply unionEvents_frames.
    + apply intersectionEvents_frames.
    + apply conditionalProbability_frames.
  - intros M. destruct (construct M) as [s0|e] eqn:Hc; [|exact I].
    destruct (construct_Return M Hc) as [Hs0 _].
    assert (Hsp : space s0 = M) by now rewrite Hs0.
    assert (Hm : ignoreUnknown s0 = false) by now rewrite Hs0.
    split; [exact Hsp|]. split; [exact Hm|].
    intros cs. destruct (after_all_members cs s0) as [H1 [H2 H3]].
    unfold getCurrentMode, member. cbn [fst].
    now rewrite H1, H2, H3, Hsp, Hm.
Qed.

(** C9. A failure is reported with the kind of its cause and with no
    other.  The constructor fails with InvalidDistribution, for a negative
    mass exactly when the mapping holds one, for the sum exactly when it
    holds none and the total is off by more than [EPSILON], and with no
    other kind.  On a constructed space the conditional fails with
    UnknownOutcome exactly in strict mode on a foreign outcome and with
    ConditionOnZero exactly when the events pass the check and
    [P(B) == 0]; it throws in these two cases only, and they exclude each
    other.  On any object the queries other than the conditional throw
    UnknownOutcome only, the conditional UnknownOutcome or ConditionOnZero
    only; and exceptions of two different kinds carry two different
    messages (all of them are [std::invalid_argument], the message is what
    a caller can look at). *)
Theorem error_kinds_are_told_apart :
  (forall (M : map_t T),
     (fails_with (InvalidDistribution NegativeMass) (construct M)
      <-> some_negative M = true)
     /\ (fails_with (InvalidDistribution SumMismatch) (construct M)
         <-> some_negative M = false
             /\ (EPSILON <? abs (total_mass M - 1)) = true)
     /\ ~ fails_with UnknownOutcome (construct M)
     /\ ~ fails_with ConditionOnZero (construct M))
  /\ (forall (M : map_t T) (s0 : ProbabilitySpace T) (mode : bool)
             (A B : set_t T),
        map_wf M -> construct M = Return s0 -> set_wf A -> set_wf B ->
        let s := with_mode mode s0 in
        let unknown := mode = false /\ (foreign M A \/ foreign M B) in
        let zero :=
          (mode = true \/ (incl A (map fst M) /\ incl B (map fst M)))
          /\ (event_mass M B =? 0) = true in
        (fails_with UnknownOutcome (fst (conditionalProbability A B s))
         <-> unknown)
        /\ (fails_with ConditionOnZero (fst (conditionalProbability A B s))
            <-> zero)
        /\ ((exists e, fst (conditionalProbability A B s) = Throw e)
            <-> unknown \/ zero)
        /\ ~ (unknown /\ zero))
  /\ (forall (M : map_t T) (e : exn),
        construct M = Throw e ->
        kind_of e = Some (InvalidDistribution NegativeMass)
        \/ kind_of e = Some (InvalidDistribution SumMismatch))
  /\ (forall (s : ProbabilitySpace T) (A B : set_t T) (e : exn),
        (fst (probabilityOfSet A s) = Throw e -> kind_of e = Some UnknownOutcome)
        /\ (fst (complementOfEvent A s) = Throw e -> kind_of e = Some UnknownOutcome)
        /\ (fst (unionOfEvents A B s) = Throw e -> kind_of e = Some UnknownOutcome)
        /\ (fst (intersectionOfEvents A B s) = Throw e ->
            kind_of e = Some UnknownOutcome)
        /\ (fst (conditionalProbability A B s) = Throw e ->
            kind_of e = Some UnknownOutcome \/ kind_of e = Some ConditionOnZero))
  /\ (forall (e1 e2 : exn) (k1 k2 : error_kind),
        kind_of e1 = Some k1 -> kind_of e2 = Some k2 -> k1 <> k2 ->
        what e1 <> what e2).
Proof.
  split; [|split; [|split; [|split]]].
  - intros M. rewrite construct_cases.
    destruct (some_negative M);
      [|destruct (EPSILON <? abs (total_mass M - 1))];
      rewrite ?fails_with_Throw, ?fails_with_Return_iff; eval_kinds;
      intuition congruence.
  - intros M s0 mode A B HM Hc HA HB s unknown zero. subst unknown zero.
    destruct (construct_consistent mode HM Hc) as [Hs [Hsp _]].
    fold s in Hs, Hsp.
    assert (HaA := accepts_with_mode mode A HM Hc).
    assert (HaB := accepts_with_mode mode B HM Hc). fold s in HaA, HaB.
    unfold conditionalProbability.
    rewrite (conditionalProbability_run Hs HA HB), HaA, HaB, Hsp. cbn [fst].
    rewrite <- !all_known_foreign, <- !all_known_incl.
    destruct mode, (all_known M A), (all_known M B),
      (event_mass M B =? 0); cbn [orb andb];
      rewrite ?fails_with_Throw, ?fails_with_Return_iff, ?throws_Throw,
        ?throws_Return; eval_kinds;
      intuition congruence.
  - intros M e. unfold construct, validProbabilitySpace.
    destruct (valid_loop M 0) as [S|e'] eqn:Hv.
    + destruct (EPSILON <? abs (S - 1)); [|discriminate].
      intros E. injection E as <-. now right.
    + intros E. injection E as <-. left.
      clear -Hv. revert Hv. generalize 0%float.
      induction M as [|[k v] M IH]; intros total; simpl; [discriminate|].
      destruct (v <? 0); [|apply IH].
      intros E. now injection E as <-.
  - intros s A B e. repeat split; intros He.
    + now rewrite <- (probabilityCalculator_throws A s He).
    + now rewrite <- (complement_throws A s He).
    + now rewrite <- (unionEvents_throws A B s He).
    + now rewrite <- (intersectionEvents_throws A B s He).
    + destruct (conditionalProbability_throws A B s He) as [-> | ->];
        [now left|now right].
  - intros [w1] [w2] k1 k2. unfold kind_of. simpl.
    intros H1 H2 Hk Hw. subst w2. congruence.
Qed.

(** C10. The two-event queries do not depend on the order of their
    arguments: the merged set is the same list either way, and so is the
    order of the additions.  (This holds for every pair of events, accepted
    by the mode or not: a rejected pair is rejected either way round.) *)
Theorem union_and_intersection_commute
  (M : map_t T) (s0 : ProbabilitySpace T) (mode : bool) (A B : set_t T) :
  map_wf M -> construct M = Return s0 -> set_wf A -> set_wf B ->
  let s := with_mode mode s0 in
  set_union A B = set_union B A
  /\ set_intersection A B = set_intersection B A
  /\ unionOfEvents A B s = unionOfEvents B A s
  /\ intersectionOfEvents A B s = intersectionOfEvents B A s.
Proof.
  intros HM Hc HA HB s.
  destruct (construct_consistent mode HM Hc) as [Hs _]. fold s in Hs.
  unfold unionOfEvents, intersectionOfEvents.
  rewrite (unionEvents_run Hs HA HB), (unionEvents_run Hs HB HA),
    (intersectionEvents_run Hs HA HB), (intersectionEvents_run Hs HB HA).
  rewrite (set_union_comm A B HA HB), (set_intersection_comm A B HA HB).
  rewrite (andb_comm (accepts s A)). auto.
Qed.

End Claims.

(** On a constructed space none of whose masses is NaN, an event included
    in another one has at most its probability, in either mode (the events
    may hold foreign outcomes in permissive mode). *)
Theorem probabilityOfSet_monotone
  {T : Type} `{Ordered T}
  (M : map_t T) (s0 : ProbabilitySpace T) (mode : bool) (A B : set_t T) :
  map_wf M -> construct M = Return s0 -> no_nan M ->
  set_wf A -> set_wf B -> incl A B ->
  forall pA pB : float,
    fst (probabilityOfSet A (with_mode mode s0)) = Return pA ->
    fst (probabilityOfSet B (with_mode mode s0)) = Return pB ->
    (pA <=? pB) = true.
Proof.
  intros HM Hc Hn HA HB Hincl pA pB.
  pose proof (constructed_masses_nonneg Hc Hn) as Hm.
  destruct (construct_consistent mode HM Hc) as [Hs [Hsp _]].
  unfold probabilityOfSet.
  rewrite (probabilityCalculator_run Hs HA), (probabilityCalculator_run Hs HB),
    Hsp.
  destruct (accepts (with_mode mode s0) A); [|discriminate].
  destruct (accepts (with_mode mode s0) B); [|discriminate].
  cbn [fst]. intros EA EB. injection EA as <-. injection EB as <-.
  destruct (@event_mass_incl T _ M A B Hm HA HB Hincl) as [HpA [HpB Hle]].
  rewrite (Binary64Facts.leb_nonneg _ _ HpA HpB). now apply Z.leb_le.
Qed.

(** * Further properties of the class *)

Section FurtherProperties.
Context {T : Type} `{Ordered T}.
Import Binary64 Binary64Facts Binary64Signed Binary64Division.
Import Binary64Quotient.

(** The constructor leaves in [events] the keys of the mapping, in ascending
    order and once each, and [space.find] gives back for every key the
    mass that the mapping holds for it, and nothing for any other
    outcome. *)
Theorem events_are_the_keys_of_space (M : map_t T) (s0 : ProbabilitySpace T) :
  map_wf M -> construct M = Return s0 ->
  events s0 = map fst M
  /\ set_wf (events s0)
  /\ List.length (events s0) = List.length M
  /\ (forall o, In o (events s0) <-> exists p, find (space s0) o = Some p)
  /\ (forall o p, find (space s0) o = Some p <-> In (o, p) M).
Proof.
  intros HM Hc. destruct (construct_Return M Hc) as [Hs0 _].
  assert (He : events s0 = map fst M).
  { rewrite Hs0. cbn [events]. now apply getKeys_wf. }
  assert (Hsp : space s0 = M) by now rewrite Hs0.
  rewrite He, Hsp. repeat split.
  - exact HM.
  - apply length_map.
  - intros Hin. apply is_key_In in Hin. rewrite find_is_key in Hin.
    destruct (find M o) as [p|]; [now exists p|discriminate].
  - intros [p Hp]. apply is_key_In. rewrite find_is_key. now rewrite Hp.
  - apply find_Some_In.
  - now apply find_In.
Qed.

(** The [throw] inside the loop of [probabilityCalculator] is never reached
    on a constructed object, whatever calls came before: once [isSubset]
    has let the event through, the loop runs to its end, and in strict mode
    every lookup of the loop finds its outcome. *)
Theorem lookup_never_fails_past_isSubset
  (M : map_t T) (s0 : ProbabilitySpace T) (cs : list call)
  (E : set_t T) (total : float) :
  map_wf M -> construct M = Return s0 -> set_wf E ->
  let s := after_all cs s0 in
  fst (isSubset E s) = Return tt ->
  fst (calculator_loop E total s)
  = Return (sum_from total (map (mass M) (filter (is_key M) E)))
  /\ (ignoreUnknown s = false ->
      forall o, In o E -> exists p, find (space s) o = Some p).
Proof.
  intros HM Hc HE s Hsub.
  destruct (constructed_after_all cs HM Hc) as [Hs Hsp]. fold s in Hs, Hsp.
  rewrite (isSubset_run Hs HE) in Hsub. rewrite calculator_loop_run, Hsp.
  destruct (accepts s E) eqn:Ha; [|discriminate]. split; [reflexivity|].
  intros Hstrict o Ho. unfold accepts in Ha. rewrite Hstrict, Hsp in Ha.
  cbn [orb] in Ha. unfold all_known in Ha. rewrite forallb_forall in Ha.
  specialize (Ha o Ho). rewrite find_is_key in Ha.
  destruct (find M o) as [p|]; [now exists p|discriminate].
Qed.

(** For an event [A] included in an event [B], the union query is the
    probability of [B], result and exception alike, and the intersection
    query is the probability of [A] as soon as [B] passes the check of the
    mode. *)
Theorem queries_on_nested_events
  (M : map_t T) (s0 : ProbabilitySpace T) (mode : bool) (A B : set_t T) :
  map_wf M -> construct M = Return s0 -> set_wf A -> set_wf B ->
  incl A B ->
  let s := with_mode mode s0 in
  unionOfEvents A B s = probabilityOfSet B s
  /\ unionOfEvents B A s = probabilityOfSet B s
  /\ (mode = true \/ incl B (map fst M) ->
      intersectionOfEvents A B s = probabilityOfSet A s
      /\ intersectionOfEvents B A s = probabilityOfSet A s)
  /\ (forall p, fst (intersectionOfEvents A B s) = Return p ->
                fst (probabilityOfSet A s) = Return p).
Proof.
  intros HM Hc HA HB Hi s.
  destruct (construct_consistent mode HM Hc) as [Hs [Hsp _]]. fold s in Hs, Hsp.
  assert (HaA := accepts_with_mode mode A HM Hc).
  assert (HaB := accepts_with_mode mode B HM Hc). fold s in HaA, HaB.
  assert (HAB : accepts s B = true -> accepts s A = true).
  { rewrite HaA, HaB. destruct mode; [easy|]. cbn [orb].
    rewrite !all_known_incl. intros HiB o Ho. auto. }
  unfold unionOfEvents, intersectionOfEvents, probabilityOfSet.
  rewrite (unionEvents_run Hs HA HB), (unionEvents_run Hs HB HA),
    (intersectionEvents_run Hs HA HB), (intersectionEvents_run Hs HB HA),
    (probabilityCalculator_run Hs HA), (probabilityCalculator_run Hs HB).
  rewrite (set_union_comm B A HB HA), (set_intersection_comm B A HB HA),
    (set_union_incl HA HB Hi), (set_intersection_incl HA HB Hi).
  assert (Hacc : mode = true \/ incl B (map fst M) -> accepts s B = true).
  { rewrite HaB. intros [->|HiB]; [reflexivity|].
    apply all_known_incl in HiB. rewrite HiB. apply orb_true_r. }
  split; [|split; [|split; [intros Hok; split|]]].
  - destruct (accepts s B) eqn:E; [now rewrite HAB|now rewrite andb_false_r].
  - destruct (accepts s B) eqn:E; [now rewrite HAB|reflexivity].
  - rewrite (Hacc Hok). now destruct (accepts s A).
  - rewrite (Hacc Hok). now destruct (accepts s A).
  - intros p. cbn [fst]. destruct (accepts s A); [|discriminate].
    destruct (accepts s B); [easy|discriminate].
Qed.

(** An event united or intersected with itself, or united with the empty
    event, has its own probability; intersected with the empty event it
    has probability 0, provided it passes the check of the mode. *)
Theorem queries_on_equal_and_empty_events
  (M : map_t T) (s0 : ProbabilitySpace T) (mode : bool) (A : set_t T) :
  map_wf M -> construct M = Return s0 -> set_wf A ->
  let s := with_mode mode s0 in
  unionOfEvents A A s = probabilityOfSet A s
  /\ intersectionOfEvents A A s = probabilityOfSet A s
  /\ unionOfEvents A [] s = probabilityOfSet A s
  /\ unionOfEvents [] A s = probabilityOfSet A s
  /\ intersectionOfEvents A [] s = intersectionOfEvents [] A s
  /\ fst (intersectionOfEvents A [] s)
     = match fst (probabilityOfSet A s) with
       | Return _ => Return 0
       | Throw e => Throw e
       end.
Proof.
  intros HM Hc HA s.
  assert (Hnil : set_wf (@nil T)) by reflexivity.
  destruct (construct_consistent mode HM Hc) as [Hs [Hsp _]]. fold s in Hs, Hsp.
  assert (E0 : accepts s [] = true).
  { unfold accepts. cbn. apply orb_true_r. }
  assert (Hl : set_intersection [] A = []) by now destruct A.
  assert (Hu : set_union [] A = A) by now destruct A.
  unfold unionOfEvents, intersectionOfEvents, probabilityOfSet.
  rewrite (unionEvents_run Hs HA HA), (unionEvents_run Hs HA Hnil),
    (unionEvents_run Hs Hnil HA), (intersectionEvents_run Hs HA HA),
    (intersectionEvents_run Hs HA Hnil), (intersectionEvents_run Hs Hnil HA),
    (probabilityCalculator_run Hs HA).
  rewrite (set_union_incl HA HA (incl_refl A)),
    (set_intersection_incl HA HA (incl_refl A)),
    set_union_nil_r, set_intersection_nil_r, Hl, Hu, E0, andb_true_r.
  cbn [andb fst]. repeat split; now destruct (accepts s A).
Qed.

(** In permissive mode each query answers as strict mode does on the
    events with their foreign outcomes taken out. *)
Theorem permissive_mode_drops_the_foreign_outcomes
  (M : map_t T) (s0 : ProbabilitySpace T) (A B : set_t T) :
  map_wf M -> construct M = Return s0 -> set_wf A -> set_wf B ->
  let strict := with_mode false s0 in
  let permissive := with_mode true s0 in
  let known (E : set_t T) := filter (is_key M) E in
  fst (probabilityOfSet A permissive) = fst (probabilityOfSet (known A) strict)
  /\ fst (complementOfEvent A permissive)
     = fst (complementOfEvent (known A) strict)
  /\ fst (unionOfEvents A B permissive)
     = fst (unionOfEvents (known A) (known B) strict)
  /\ fst (intersectionOfEvents A B permissive)
     = fst (intersectionOfEvents (known A) (known B) strict)
  /\ fst (conditionalProbability A B permissive)
     = fst (conditionalProbability (known A) (known B) strict).
Proof.
  intros HM Hc HA HB strict permissive known.
  destruct (construct_consistent false HM Hc) as [Hs [Hsp _]].
  destruct (construct_consistent true HM Hc) as [Hp [Hpp _]].
  fold strict in Hs, Hsp. fold permissive in Hp, Hpp.
  assert (HkA : set_wf (known A)) by now apply sorted_filter.
  assert (HkB : set_wf (known B)) by now apply sorted_filter.
  assert (HaA : accepts strict (known A) = true).
  { unfold strict. rewrite (accepts_with_mode false _ HM Hc).
    apply all_known_filter. }
  assert (HaB : accepts strict (known B) = true).
  { unfold strict. rewrite (accepts_with_mode false _ HM Hc).
    apply all_known_filter. }
  assert (HpA : accepts permissive A = true)
    by (unfold permissive; now rewrite (accepts_with_mode true _ HM Hc)).
  assert (HpB : accepts permissive B = true)
    by (unfold permissive; now rewrite (accepts_with_mode true _ HM Hc)).
  unfold probabilityOfSet, complementOfEvent, unionOfEvents,
    intersectionOfEvents, conditionalProbability.
  rewrite (probabilityCalculator_run Hs HkA), (complement_run Hs HkA),
    (unionEvents_run Hs HkA HkB), (intersectionEvents_run Hs HkA HkB),
    (conditionalProbability_run Hs HkA HkB),
    (probabilityCalculator_run Hp HA), (complement_run Hp HA),
    (unionEvents_run Hp HA HB), (intersectionEvents_run Hp HA HB),
    (conditionalProbability_run Hp HA HB).
  rewrite HaA, HaB, HpA, HpB, Hsp, Hpp. cbn [andb fst]. unfold known.
  rewrite !event_mass_filter, (event_mass_union_filter M HA HB),
    (event_mass_intersection_filter M HA HB).
  repeat split; reflexivity.
Qed.

(** The probability of a single outcome of the sample space is the mass
    stored for it: [0.0 + v], which is [v] itself unless [v] is the
    negative zero; without NaN it lies between 0 and the total mass. *)
Theorem probabilityOfSet_of_one_outcome
  (M : map_t T) (s0 : ProbabilitySpace T) (mode : bool) (o : T) (v : float) :
  map_wf M -> construct M = Return s0 -> In (o, v) M ->
  let s := with_mode mode s0 in
  fst (probabilityOfSet [o] s) = Return (0 + v)
  /\ (0 + v = v \/ (v = neg_zero /\ 0 + v = 0))
  /\ (no_nan M ->
      (0 + v =? v) = true /\ (0 <=? v) = true /\ (v <=? total_mass M) = true).
Proof.
  intros HM Hc Hin s.
  destruct (construct_consistent mode HM Hc) as [Hs [Hsp _]]. fold s in Hs, Hsp.
  assert (Hk : is_key M o = true).
  { apply is_key_In. apply (in_map fst) in Hin. exact Hin. }
  assert (Hacc : accepts s [o] = true).
  { unfold s. rewrite (accepts_with_mode mode _ HM Hc). unfold all_known.
    cbn [forallb]. rewrite Hk. apply orb_true_r. }
  assert (Hem : event_mass M [o] = 0 + v).
  { unfold event_mass. cbn [filter]. rewrite Hk. cbn [map sum_from fold_left].
    unfold mass. now rewrite (find_In o v HM Hin). }
  unfold probabilityOfSet.
  rewrite (probabilityCalculator_run Hs (eq_refl : set_wf [o])), Hacc, Hsp, Hem.
  split; [reflexivity|]. split; [apply zero_plus|].
  intros Hn.
  pose proof (constructed_masses_nonneg Hc Hn) as Hm.
  assert (Hv : fnonneg v = true).
  { unfold masses_nonneg in Hm. rewrite Forall_forall in Hm. apply Hm.
    apply (in_map snd) in Hin. exact Hin. }
  destruct (add_nonneg 0 v eq_refl Hv) as [Hs0 Hv0].
  change (fval 0) with 0%Z in Hv0. rewrite Z.add_0_l in Hv0.
  unfold fval in Hv0 at 2. rewrite (round64_val _ (Prim2SF_valid v)) in Hv0.
  fold (fval v) in Hv0.
  destruct (@event_mass_le_total T _ M s0 [o] HM Hc Hn eq_refl) as [_ [HpS [Hle _]]].
  rewrite Hem in Hle.
  split; [|split].
  - rewrite eqb_spec. unfold SFeqb.
    rewrite (SFcompare_val _ _ (Prim2SF_valid _) (Prim2SF_valid _) Hs0 Hv).
    fold (fval (0 + v)) (fval v). now rewrite Hv0, Z.compare_refl.
  - now apply leb_zero_iff.
  - rewrite (leb_nonneg _ _ Hv HpS). apply Z.leb_le. lia.
Qed.

(** A mapping that holds a NaN mass is rejected only for a mass below 0:
    the total is NaN, which the test of the tolerance lets through.  On the
    constructed space the masses of an event that holds the outcome of the
    NaN mass sum to NaN, and this sum is what [probabilityOfSet] returns
    whenever the event passes the check of the mode; in strict mode an
    event with a foreign outcome throws UnknownOutcome as on any space, so
    that no call returns a number for such an event. *)
Theorem construct_with_a_nan_mass
  (M : map_t T) (o : T) (v : float) :
  In (o, v) M -> is_nan v = true ->
  construct M =
    (if some_negative M then Throw (invalid_argument msg_negative)
     else Return {| space := M; events := getKeys M; ignoreUnknown := false |})
  /\ is_nan (total_mass M) = true
  /\ (map_wf M ->
      forall (s0 : ProbabilitySpace T) (mode : bool) (E : set_t T),
        construct M = Return s0 -> set_wf E -> In o E ->
        let r := fst (probabilityOfSet E (with_mode mode s0)) in
        is_nan (event_mass M E) = true
        /\ (mode = true \/ incl E (map fst M) -> r = Return (event_mass M E))
        /\ (mode = false -> foreign M E -> r = Throw unknown_outcome)
        /\ (forall p : float, r = Return p -> is_nan p = true)).
Proof.
  intros Hin Hv.
  assert (HS : is_nan (total_mass M) = true).
  { apply sum_from_nan. right. apply Exists_exists. exists v. split; [|exact Hv].
    apply (in_map snd) in Hin. exact Hin. }
  split; [|split; [exact HS|]].
  - rewrite construct_cases. now rewrite (tolerance_of_nan _ HS).
  - intros HM s0 mode E Hc HE HoE r. subst r.
    destruct (construct_consistent mode HM Hc) as [Hs [Hsp _]].
    assert (Hnan : is_nan (event_mass M E) = true).
    { unfold event_mass. apply sum_from_nan. right.
      apply Exists_exists. exists v. split; [|exact Hv].
      apply in_map_iff. exists o. split.
      + unfold mass. now rewrite (find_In o v HM Hin).
      + apply filter_In. split; [exact HoE|]. apply is_key_In.
        apply (in_map fst) in Hin. exact Hin. }
    unfold probabilityOfSet.
    rewrite (probabilityCalculator_run Hs HE), Hsp,
      (accepts_with_mode mode E HM Hc).
    split; [exact Hnan|split; [|split]].
    + intros [->|Hi]; [reflexivity|].
      apply all_known_incl in Hi. rewrite Hi, orb_true_r. reflexivity.
    + intros -> Hf. apply all_known_foreign in Hf. rewrite Hf. reflexivity.
    + intros p. destruct (mode || all_known M E); [|discriminate].
      cbn [fst]. intros [= <-]. exact Hnan.
Qed.

(** Without NaN, the four sums are in the order of the sets:
    [0 <= P(A n B) <= P(A), P(B) <= P(A u B) <= P(Omega)], as doubles. *)
Theorem intersection_event_union_order
  (M : map_t T) (s0 : ProbabilitySpace T) (mode : bool) (A B : set_t T) :
  map_wf M -> construct M = Return s0 -> no_nan M ->
  set_wf A -> set_wf B ->
  mode = true \/ (incl A (map fst M) /\ incl B (map fst M)) ->
  let s := with_mode mode s0 in
  exists pI pA pB pU : float,
    fst (intersectionOfEvents A B s) = Return pI
    /\ fst (probabilityOfSet A s) = Return pA
    /\ fst (probabilityOfSet B s) = Return pB
    /\ fst (unionOfEvents A B s) = Return pU
    /\ (0 <=? pI) = true
    /\ (pI <=? pA) = true /\ (pI <=? pB) = true
    /\ (pA <=? pU) = true /\ (pB <=? pU) = true
    /\ (pU <=? total_mass M) = true.
Proof.
  intros HM Hc Hn HA HB Hok s.
  destruct (construct_consistent mode HM Hc) as [Hs [Hsp _]]. fold s in Hs, Hsp.
  assert (Hacc : accepts s A = true /\ accepts s B = true).
  { unfold s. rewrite !(accepts_with_mode mode _ HM Hc).
    destruct Hok as [->|[HiA HiB]]; [now split|].
    apply all_known_incl in HiA, HiB. rewrite HiA, HiB, !orb_true_r. now split. }
  destruct Hacc as [HaA HaB].
  pose proof (constructed_masses_nonneg Hc Hn) as Hm.
  assert (HU := set_union_sorted A B HA HB).
  assert (HI := set_intersection_sorted A B HA HB).
  exists (event_mass M (set_intersection A B)), (event_mass M A),
    (event_mass M B), (event_mass M (set_union A B)).
  unfold intersectionOfEvents, probabilityOfSet, unionOfEvents.
  rewrite (intersectionEvents_run Hs HA HB), (probabilityCalculator_run Hs HA),
    (probabilityCalculator_run Hs HB), (unionEvents_run Hs HA HB).
  rewrite HaA, HaB, Hsp. cbn [andb fst].
  repeat (split; [reflexivity|]).
  destruct (@event_mass_incl T _ M (set_intersection A B) A Hm HI HA)
    as [HpI [HpA HIA]].
  { intros o Ho. now apply (set_intersection_In A B o HA HB) in Ho. }
  destruct (@event_mass_incl T _ M (set_intersection A B) B Hm HI HB)
    as [_ [HpB HIB]].
  { intros o Ho. now apply (set_intersection_In A B o HA HB) in Ho. }
  destruct (@event_mass_incl T _ M A (set_union A B) Hm HA HU)
    as [_ [HpU HAU]].
  { intros o Ho. apply set_union_In. now left. }
  destruct (@event_mass_incl T _ M B (set_union A B) Hm HB HU)
    as [_ [_ HBU]].
  { intros o Ho. apply set_union_In. now right. }
  destruct (@event_mass_le_total T _ M s0 (set_union A B) HM Hc Hn HU)
    as [_ [HpS [HUS _]]].
  rewrite (leb_nonneg _ _ HpI HpA), (leb_nonneg _ _ HpI HpB),
    (leb_nonneg _ _ HpA HpU), (leb_nonneg _ _ HpB HpU),
    (leb_nonneg _ _ HpU HpS).
  repeat split; try (apply Z.leb_le; assumption).
  now apply leb_zero_iff.
Qed.

(** Without NaN, [complementOfEvent(E)] is a number [c] with
    [P(E) + c = 1] up to one rounding of at most 2^-53; it lies between
    [-EPSILON] and 1, is negative exactly when [P(E)] exceeds 1, and for the
    whole sample space it is within [EPSILON] of 0. *)
Theorem complement_is_one_minus_probability
  (M : map_t T) (s0 : ProbabilitySpace T) (mode : bool) (E : set_t T) :
  map_wf M -> construct M = Return s0 -> no_nan M -> set_wf E ->
  mode = true \/ incl E (map fst M) ->
  let s := with_mode mode s0 in
  exists p c : float,
    fst (probabilityOfSet E s) = Return p
    /\ fst (complementOfEvent E s) = Return c
    /\ c = 1 - p
    /\ is_nan c = false
    /\ (2 * Z.abs (rval c + fval p - fval 1) <= ulp_one)%Z
    /\ (- fval EPSILON <= rval c <= fval 1)%Z
    /\ (0 <=? c) = (p <=? 1)
    /\ (incl (map fst M) E -> (Z.abs (rval c) <= fval EPSILON)%Z).
Proof.
  intros HM Hc Hn HE Hok s.
  destruct (construct_consistent mode HM Hc) as [Hs [Hsp _]]. fold s in Hs, Hsp.
  assert (HaE : accepts s E = true).
  { unfold s. rewrite (accepts_with_mode mode _ HM Hc).
    destruct Hok as [->|HiE]; [reflexivity|].
    apply all_known_incl in HiE. rewrite HiE. apply orb_true_r. }
  exists (event_mass M E), (1 - event_mass M E).
  unfold probabilityOfSet, complementOfEvent.
  rewrite (probabilityCalculator_run Hs HE), (complement_run Hs HE), HaE, Hsp.
  cbn [fst]. repeat (split; [reflexivity|]).
  destruct (@event_mass_le_total T _ M s0 E HM Hc Hn HE) as [Hp [HS [HpS [_ HS2]]]].
  destruct (construct_Return M Hc) as [_ [_ Htol]].
  set (p := event_mass M E) in *. set (S := total_mass M) in *.
  pose proof two_below_top as Htop. pose proof fval_2 as H2.
  pose proof fval_1 as H1.
  assert (Hp0 : (0 <= fval p)%Z) by apply val_nonneg.
  destruct (one_minus p Hp ltac:(lia)) as [Hsg Hv].
  assert (Hone : (0 < fval 1)%Z) by (rewrite H1; apply pow2_pos; lia).
  assert (H21 : (fval 2 = 2 * fval 1)%Z).
  { rewrite H1, H2. change 1075%Z with (1 + 1074)%Z.
    now rewrite Z.pow_add_r by lia. }
  set (N := Z.abs (fval 1 - fval p)) in *.
  destruct (@round64_small N) as [Hr He]; [unfold N; lia|].
  pose proof (signed_sval _ _ Hsg) as Hsv.
  change (sval (Prim2SF (1 - p))) with (rval (1 - p)) in Hsv.
  change (val (Prim2SF (1 - p))) with (fval (1 - p)) in Hsv.
  split; [exact (signed_not_nan _ _ Hsg)|].
  (* the tolerance that the validation has checked *)
  assert (HabsS : (fval (abs (S - 1)) <= fval EPSILON)%Z).
  { assert (Ha : fnonneg (abs (S - 1)) = true).
    { unfold fnonneg in *. rewrite abs_spec, sub_spec, Prim2SF_one.
      apply SF64sub_not_nan; [apply Prim2SF_valid| |exact HS].
      rewrite <- Prim2SF_one. apply Prim2SF_valid. }
    rewrite (ltb_nonneg EPSILON _ eq_refl Ha) in Htol.
    now apply Z.ltb_ge in Htol. }
  rewrite (minus_one S HS ltac:(lia)) in HabsS.
  assert (Heps : (0 <= fval EPSILON)%Z) by apply val_nonneg.
  assert (Hc0 : (0 <= fval (1 - p))%Z) by apply val_nonneg.
  assert (Hall : incl (map fst M) E -> (Z.abs (rval (1 - p)) <= fval EPSILON)%Z).
  { intros Hi.
    assert (HpS' : p = S).
    { unfold p, S. rewrite <- event_mass_filter, <- (event_mass_keys HM).
      f_equal. apply sorted_ext; [now apply sorted_filter|exact HM|].
      intros x. rewrite filter_In, is_key_In. split; [tauto|auto]. }
    assert (HN : N = Z.abs (fval S - fval 1)) by (unfold N; rewrite HpS'; lia).
    rewrite Hv, HN in *. destruct (fval 1 <? fval p)%Z; lia. }
  destruct (Z.ltb_spec (fval 1) (fval p)) as [Hgt|Hle].
  - (* the event weighs more than 1 *)
    assert (Hmono : (round64 N <= round64 (Z.abs (fval S - fval 1)))%Z).
    { apply round64_mono. unfold N. lia. }
    assert (Hpos : (0 < fval (1 - p))%Z).
    { rewrite Hv. apply round64_pos. unfold N. lia. }
    rewrite Hr in Hv, Hmono.
    split; [unfold N in *; lia|]. split; [lia|]. split; [|exact Hall].
    rewrite (leb_zero_signed _ Hsg Hpos).
    rewrite (leb_nonneg p 1 Hp eq_refl). symmetry. apply Z.leb_gt. exact Hgt.
  - assert (Hc1 : (fval (1 - p) <= fval 1)%Z).
    { rewrite Hv. apply Z.le_trans with (round64 (fval 1)).
      - apply round64_mono. unfold N. lia.
      - apply Z.eq_le_incl, (round64_val _ (Prim2SF_valid 1)). }
    rewrite Hr in Hv.
    split; [unfold N in *; lia|]. split; [lia|]. split; [|exact Hall].
    rewrite (leb_nonneg p 1 Hp eq_refl).
    rewrite (proj2 (Z.leb_le _ _) Hle).
    apply leb_zero_iff. unfold fnonneg. now apply signed_false_nonneg.
Qed.

(** Without NaN, a conditional probability that is returned lies between 0
    and 1 as a double; it is exactly 1 when every outcome of [B] is in [A],
    and exactly 0 when [A] and [B] have no outcome in common. *)
Theorem conditional_probability_between_zero_and_one
  (M : map_t T) (s0 : ProbabilitySpace T) (mode : bool) (A B : set_t T) :
  map_wf M -> construct M = Return s0 -> no_nan M ->
  set_wf A -> set_wf B ->
  let s := with_mode mode s0 in
  forall p : float,
    fst (conditionalProbability A B s) = Return p ->
    (0 <=? p) = true /\ (p <=? 1) = true
    /\ (incl B A -> p = 1)
    /\ ((forall o, In o A -> ~ In o B) -> p = 0).
Proof.
  intros HM Hc Hn HA HB s p.
  destruct (construct_consistent mode HM Hc) as [Hs [Hsp _]]. fold s in Hs, Hsp.
  unfold conditionalProbability. rewrite (conditionalProbability_run Hs HA HB).
  rewrite Hsp. cbn [fst].
  destruct (accepts s A && accepts s B); [|discriminate].
  assert (HI := set_intersection_sorted A B HA HB).
  pose proof (constructed_masses_nonneg Hc Hn) as Hm.
  destruct (@event_mass_incl T _ M (set_intersection A B) B Hm HI HB)
    as [HpI [HpB HIB]].
  { intros o Ho. now apply (set_intersection_In A B o HA HB) in Ho. }
  destruct (@event_mass_le_total T _ M s0 B HM Hc Hn HB) as [_ [_ [HBS [_ HS2]]]].
  rewrite (eqb_zero_nonneg _ HpB).
  destruct (Z.eqb_spec (fval (event_mass M B)) 0) as [|Hnz]; [discriminate|].
  intros [= <-].
  pose proof (val_nonneg (Prim2SF (event_mass M B))) as H0. fold (fval (event_mass M B)) in H0.
  pose proof two_below_top as Htop.
  assert (Hrange : (0 < fval (event_mass M B) < top)%Z) by lia.
  destruct (div_le_one _ _ HpI HpB HIB Hrange) as [Hq Hq1].
  split; [now apply leb_zero_iff|].
  split; [rewrite (leb_nonneg _ 1 Hq eq_refl); now apply Z.leb_le|].
  split.
  - intros Hi. rewrite (set_intersection_comm A B HA HB),
      (set_intersection_incl HB HA Hi).
    now apply div_same.
  - intros Hdis.
    assert (He : set_intersection A B = []).
    { destruct (set_intersection A B) as [|o l] eqn:E; [reflexivity|].
      assert (Ho : In o (set_intersection A B)) by (rewrite E; now left).
      apply (set_intersection_In A B o HA HB) in Ho. destruct Ho as [HoA HoB].
      now destruct (Hdis o HoA). }
    rewrite He. change (event_mass M []) with 0.
    apply zero_div; [exact HpB|lia].
Qed.

(** Without NaN, a conditional probability that is returned is the quotient
    of the two sums up to its rounding: [P(A|B) * P(B)] is within 2^-51 of
    [P(A n B)], as real numbers. *)
Theorem conditional_times_condition
  (M : map_t T) (s0 : ProbabilitySpace T) (mode : bool) (A B : set_t T) :
  map_wf M -> construct M = Return s0 -> no_nan M ->
  set_wf A -> set_wf B ->
  let s := with_mode mode s0 in
  forall p : float,
    fst (conditionalProbability A B s) = Return p ->
    exists pB pI : float,
      fst (probabilityOfSet B s) = Return pB
      /\ fst (intersectionOfEvents A B s) = Return pI
      /\ (pB =? 0) = false
      /\ p = pI / pB
      /\ (2 ^ 51 * Z.abs (fval p * fval pB - fval pI * 2 ^ 1074)
          <= 2 ^ 2148)%Z.
Proof.
  intros HM Hc Hn HA HB s p.
  destruct (construct_consistent mode HM Hc) as [Hs [Hsp _]]. fold s in Hs, Hsp.
  unfold conditionalProbability, probabilityOfSet, intersectionOfEvents.
  rewrite (conditionalProbability_run Hs HA HB),
    (probabilityCalculator_run Hs HB), (intersectionEvents_run Hs HA HB), Hsp.
  cbn [fst].
  destruct (accepts s A); [|discriminate].
  destruct (accepts s B); [|discriminate]. cbn [andb].
  destruct (event_mass M B =? 0) eqn:Ez; [discriminate|].
  intros [= <-].
  exists (event_mass M B), (event_mass M (set_intersection A B)).
  split; [reflexivity|]. split; [reflexivity|]. split; [exact Ez|].
  split; [reflexivity|].
  assert (HI := set_intersection_sorted A B HA HB).
  pose proof (constructed_masses_nonneg Hc Hn) as Hm.
  destruct (@event_mass_incl T _ M (set_intersection A B) B Hm HI HB)
    as [HpI [HpB HIB]].
  { intros o Ho. now apply (set_intersection_In A B o HA HB) in Ho. }
  destruct (@event_mass_le_total T _ M s0 B HM Hc Hn HB) as [_ [_ [HBS [_ HS2]]]].
  rewrite (eqb_zero_nonneg _ HpB) in Ez. apply Z.eqb_neq in Ez.
  pose proof (val_nonneg (Prim2SF (event_mass M B))) as H0.
  fold (fval (event_mass M B)) in H0.
  pose proof (div_error _ _ HpI HpB HIB ltac:(lia)) as Herr.
  rewrite fval_2 in HS2.
  set (D := Z.abs (fval (event_mass M (set_intersection A B) / event_mass M B)
                   * fval (event_mass M B)
                   - fval (event_mass M (set_intersection A B)) * 2 ^ 1074)%Z)
    in *.
  set (Y := fval (event_mass M B)) in *.
  assert (HD : (D <= 2 ^ 1022 * 2 ^ 1075)%Z).
  { eapply Z.le_trans; [exact Herr|].
    apply Z.mul_le_mono_nonneg_l; [apply Z.lt_le_incl, pow2_pos|]; lia. }
  rewrite pow2_add in HD by lia.
  change (2148)%Z with (51 + (1022 + 1075))%Z.
  rewrite <- (pow2_add 51 (1022 + 1075)) by lia.
  apply Z.mul_le_mono_nonneg_l; [apply Z.lt_le_incl, pow2_pos; lia|exact HD].
Qed.

(** Conditioning on a single outcome of mass other than 0, however small:
    the answer is 1 for the events that hold the outcome and 0 for the
    others; there is no tolerance in the test of the denominator. *)
Theorem conditioning_on_one_outcome
  (M : map_t T) (s0 : ProbabilitySpace T) (mode : bool) (A : set_t T)
  (o : T) (v : float) :
  map_wf M -> construct M = Return s0 -> no_nan M -> set_wf A ->
  In (o, v) M -> (v =? 0) = false ->
  mode = true \/ incl A (map fst M) ->
  let s := with_mode mode s0 in
  (In o A -> fst (conditionalProbability A [o] s) = Return 1)
  /\ (~ In o A -> fst (conditionalProbability A [o] s) = Return 0).
Proof.
  intros HM Hc Hn HA Hin Hv0 Hok s.
  destruct (construct_consistent mode HM Hc) as [Hs [Hsp _]]. fold s in Hs, Hsp.
  assert (Ho : set_wf [o]) by reflexivity.
  assert (Hk : is_key M o = true).
  { apply is_key_In. apply (in_map fst) in Hin. exact Hin. }
  assert (HaA : accepts s A = true).
  { unfold s. rewrite (accepts_with_mode mode _ HM Hc).
    destruct Hok as [->|HiA]; [reflexivity|].
    apply all_known_incl in HiA. rewrite HiA. apply orb_true_r. }
  assert (Hao : accepts s [o] = true).
  { unfold s. rewrite (accepts_with_mode mode _ HM Hc). unfold all_known.
    cbn [forallb]. rewrite Hk. apply orb_true_r. }
  assert (Hem : event_mass M [o] = 0 + v).
  { unfold event_mass. cbn [filter]. rewrite Hk. cbn [map sum_from fold_left].
    unfold mass. now rewrite (find_In o v HM Hin). }
  pose proof (constructed_masses_nonneg Hc Hn) as Hm.
  assert (Hv : fnonneg v = true).
  { unfold masses_nonneg in Hm. rewrite Forall_forall in Hm. apply Hm.
    apply (in_map snd) in Hin. exact Hin. }
  destruct (@event_mass_le_total T _ M s0 [o] HM Hc Hn eq_refl)
    as [Hp [_ [Hle [_ HS2]]]].
  rewrite Hem in Hp, Hle.
  pose proof two_below_top as Htop.
  assert (Hpos : (0 < fval (0 + v))%Z).
  { destruct (add_nonneg 0 v eq_refl Hv) as [_ Hv0'].
    change (fval 0) with 0%Z in Hv0'. rewrite Z.add_0_l in Hv0'.
    unfold fval in Hv0' at 2. rewrite (round64_val _ (Prim2SF_valid v)) in Hv0'.
    rewrite Hv0'. rewrite (eqb_zero_nonneg _ Hv) in Hv0.
    apply Z.eqb_neq in Hv0. pose proof (val_nonneg (Prim2SF v)).
    unfold fval in *. lia. }
  unfold conditionalProbability.
  rewrite (conditionalProbability_run Hs HA Ho), HaA, Hao, Hsp, Hem.
  cbn [andb fst].
  rewrite (eqb_zero_nonneg _ Hp), (proj2 (Z.eqb_neq _ _)) by lia.
  split; intros HoA.
  - assert (Hi : set_intersection A [o] = [o]).
    { rewrite (set_intersection_comm A [o] HA Ho).
      apply (set_intersection_incl Ho HA). intros x [<-|[]]. exact HoA. }
    rewrite Hi, Hem. f_equal. apply div_same. lia.
  - assert (Hi : set_intersection A [o] = []).
    { destruct (set_intersection A [o]) as [|x l] eqn:E; [reflexivity|].
      assert (Hx : In x (set_intersection A [o])) by (rewrite E; now left).
      apply (set_intersection_In A [o] x HA Ho) in Hx.
      destruct Hx as [HxA [<-|[]]]. now destruct HoA. }
    rewrite Hi. change (event_mass M []) with 0. f_equal.
    now apply zero_div.
Qed.

End FurtherProperties.

(** * The statements at concrete spaces *)

Lemma probabilityOfSet_sums_member_masses_die :
  map_wf die /\ construct die = Return die_space
  /\ 0x1.5555555555555p-2 = event_mass die [1; 2]%Z.
Proof.
  assert (Hwf : map_wf die) by reflexivity.
  assert (Hc : construct die = Return die_space) by reflexivity.
  split; [exact Hwf|]. split; [exact Hc|].
  apply (proj1 (@probabilityOfSet_sums_member_masses Z _ die die_space Hwf Hc)
           false [1; 2]%Z _ die_space);
    reflexivity.
Defined.

(** C2 at the mapping [{1: NaN}]: the mass is not at least 0, the total is
    NaN and so not within [EPSILON] of 1, and the constructor returns the
    space: [v < 0.0] and [std::abs(total - 1.0) > EPSILON] are both false
    on NaN.  The probability of the sample space is then NaN. *)
Theorem construct_accepts_nan :
  construct nan_mapping = Return nan_space
  /\ (0 <=? nan) = false
  /\ total_mass nan_mapping = nan
  /\ (abs (total_mass nan_mapping - 1) <=? EPSILON) = false
  /\ some_negative nan_mapping = false
  /\ (EPSILON <? abs (total_mass nan_mapping - 1)) = false
  /\ fst (probabilityOfSet [1%Z] nan_space) = Return nan.
Proof. repeat split; reflexivity. Qed.

Lemma construct_without_nan_die :
  no_nan die
  /\ (construct die = Return die_space
      <-> Forall (fun kv => (0 <=? snd kv) = true) die
          /\ (abs (total_mass die - 1) <=? EPSILON) = true).
Proof.
  assert (Hn : no_nan die) by (repeat constructor).
  split; [exact Hn|].
  pose proof (construct_without_nan Hn) as Hthm. cbv zeta in Hthm.
  exact (proj1 Hthm).
Defined.

Lemma UnknownOutcome_iff_strict_and_foreign_die :
  map_wf die /\ construct die = Return die_space
  /\ set_wf [4; 5]%Z /\ set_wf [4; 5; 6; 7]%Z
  /\ (fails_with UnknownOutcome
        (fst (conditionalProbability [4; 5]%Z [4; 5; 6; 7]%Z
                (with_mode false die_space)))
      <-> foreign die [4; 5]%Z \/ foreign die [4; 5; 6; 7]%Z).
Proof.
  assert (Hwf : map_wf die) by reflexivity.
  assert (Hc : construct die = Return die_space) by reflexivity.
  assert (HA : set_wf [4; 5]%Z) by reflexivity.
  assert (HB : set_wf [4; 5; 6; 7]%Z) by reflexivity.
  repeat (split; [assumption|]).
  pose proof (UnknownOutcome_iff_strict_and_foreign Hwf Hc HA HB) as Hthm.
  cbv zeta in Hthm. exact (proj1 (proj2 (proj2 (proj2 (proj2 Hthm))))).
Defined.


(** The test of the denominator is [probB != 0], with no tolerance: a
    condition of mass 2^-100, far below [EPSILON], is divided by. *)
Example conditional_on_a_small_mass :
  construct faint = Return faint_space
  /\ fst (probabilityOfSet [1%Z] faint_space) = Return 0x1p-100
  /\ (0x1p-100 <? EPSILON) = true
  /\ fst (conditionalProbability [1%Z] [1%Z] faint_space) = Return 1
  /\ fst (conditionalProbability [2%Z] [1%Z] faint_space) = Return 0.
Proof. repeat split; reflexivity. Qed.

(** C5, as stated, fails: the space of the single outcome 1 with mass
    1.0000000005 is constructed, since the mass is within [EPSILON] of 1,
    and the probability of its sample space is that mass, above 1. *)
Lemma probability_above_one :
  construct heavy = Return heavy_space
  /\ incl [1%Z] (map fst heavy)
  /\ fst (probabilityOfSet [1%Z] heavy_space) = Return 0x1.0000000225c18p+0
  /\ (0x1.0000000225c18p+0 <=? 1) = false.
Proof.
  split; [reflexivity|]. split; [apply incl_refl|].
  split; reflexivity.
Qed.

Lemma probability_between_zero_and_total_die :
  map_wf die /\ construct die = Return die_space /\ no_nan die
  /\ set_wf [1; 2]%Z /\ incl [1; 2]%Z (map fst die)
  /\ exists p : float,
       fst (probabilityOfSet [1; 2]%Z (with_mode false die_space)) = Return p
       /\ (0 <=? p) = true
       /\ (p <=? total_mass die) = true
       /\ fst (probabilityOfSet (events die_space) (with_mode false die_space))
          = Return (total_mass die)
       /\ (total_mass die <? total_bound) = true.
Proof.
  assert (Hwf : map_wf die) by reflexivity.
  assert (Hc : construct die = Return die_space) by reflexivity.
  assert (Hn : no_nan die) by (repeat constructor).
  assert (HE : set_wf [1; 2]%Z) by reflexivity.
  assert (Hi : incl [1; 2]%Z (map fst die))
    by (apply all_known_incl; reflexivity).
  repeat (split; [assumption|]).
  exact (probability_between_zero_and_total false Hwf Hc Hn HE Hi).
Defined.

(** C6, as stated, fails: on the valid space of one outcome of mass 1 and
    9 100 000 outcomes of mass 2^-53, with [A] the heavy outcome and [B]
    the others, [P(A u B) = 1], [P(A) = 1] and [P(A n B) = 0], while [P(B)]
    is 9100000 * 2^-53, about 1.0103e-9: the two sides of the equation
    differ by more than 10^-9.  (The additions that make [P(A u B)] round
    every small mass away.) *)
Lemma inclusion_exclusion_beyond_epsilon :
  let M := crowded many in
  let s := crowded_space many in
  let A := [0%Z] in
  let B := crowd many in
  exists pB : float,
    map_wf M /\ no_nan M /\ construct M = Return s
    /\ set_wf A /\ set_wf B
    /\ incl A (map fst M) /\ incl B (map fst M)
    /\ fst (unionOfEvents A B s) = Return 1
    /\ fst (probabilityOfSet A s) = Return 1
    /\ fst (probabilityOfSet B s) = Return pB
    /\ fst (intersectionOfEvents A B s) = Return 0
    /\ (2 ^ 1074
        < 10 ^ 9 * Z.abs (Binary64.fval 1
                          - (Binary64.fval 1 + Binary64.fval pB
                             - Binary64.fval 0)))%Z.
Proof.
  assert (Hmany : Z.of_nat many = 9100000%Z) by (apply Z2Nat.id; lia).
  destruct (crowded_probabilities many) as (HU & HA & HI & pB & HB & Hv).
  { rewrite Hmany. reflexivity. }
  exists pB.
  split; [apply crowded_wf|]. split; [apply crowded_no_nan|].
  split; [apply crowded_constructed|].
  split; [reflexivity|]. split; [apply crowd_wf|].
  split; [apply zero_incl|]. split; [apply crowd_incl|].
  split; [exact HU|]. split; [exact HA|]. split; [exact HB|].
  split; [exact HI|].
  rewrite Hv, Hmany, fval_0.
  replace (Binary64.fval 1 - (Binary64.fval 1 + 9100000 * 2 ^ 1021 - 0))%Z
    with (- (9100000 * 2 ^ 1021))%Z by ring.
  rewrite Z.abs_opp, Z.abs_eq
    by (apply Z.mul_nonneg_nonneg; [lia|apply Z.pow_nonneg; lia]).
  change 1074%Z with (53 + 1021)%Z.
  rewrite <- Binary64Facts.pow2_add by lia.
  rewrite Z.mul_assoc.
  apply Z.mul_lt_mono_pos_r; [apply Binary64Facts.pow2_pos; lia|reflexivity].
Qed.

Lemma inclusion_exclusion_within_epsilon_die :
  map_wf die /\ construct die = Return die_space /\ no_nan die
  /\ set_wf [1; 2; 3]%Z /\ set_wf [2; 3; 4]%Z
  /\ incl [1; 2; 3]%Z (map fst die) /\ incl [2; 3; 4]%Z (map fst die)
  /\ (Z.of_nat (List.length [1; 2; 3]%Z) + Z.of_nat (List.length [2; 3; 4]%Z)
      <= max_outcomes)%Z
  /\ exists pU pA pB pI : float,
       fst (unionOfEvents [1; 2; 3]%Z [2; 3; 4]%Z (with_mode false die_space))
       = Return pU
       /\ fst (probabilityOfSet [1; 2; 3]%Z (with_mode false die_space))
          = Return pA
       /\ fst (probabilityOfSet [2; 3; 4]%Z (with_mode false die_space))
          = Return pB
       /\ fst (intersectionOfEvents [1; 2; 3]%Z [2; 3; 4]%Z
                 (with_mode false die_space)) = Return pI
       /\ (10 ^ 9 * Z.abs (Binary64.fval pU
                           - (Binary64.fval pA + Binary64.fval pB
                              - Binary64.fval pI))
           <= 2 ^ 1074)%Z.
Proof.
  assert (Hwf : map_wf die) by reflexivity.
  assert (Hc : construct die = Return die_space) by reflexivity.
  assert (Hn : no_nan die) by (repeat constructor).
  assert (HA : set_wf [1; 2; 3]%Z) by reflexivity.
  assert (HB : set_wf [2; 3; 4]%Z) by reflexivity.
  assert (HiA : incl [1; 2; 3]%Z (map fst die))
    by (apply all_known_incl; reflexivity).
  assert (HiB : incl [2; 3; 4]%Z (map fst die))
    by (apply all_known_incl; reflexivity).
  assert (Hlen : (Z.of_nat (List.length [1; 2; 3]%Z)
                  + Z.of_nat (List.length [2; 3; 4]%Z) <= max_outcomes)%Z)
    by (unfold max_outcomes; simpl; lia).
  repeat (split; [assumption|]).
  exact (inclusion_exclusion_within_epsilon false Hwf Hc Hn HA HB HiA HiB Hlen).
Defined.

Lemma mode_is_irrelevant_without_foreign_outcomes_die :
  map_wf die /\ construct die = Return die_space
  /\ set_wf [1; 2; 3]%Z /\ set_wf [2; 3; 4]%Z
  /\ incl [1; 2; 3]%Z (map fst die) /\ incl [2; 3; 4]%Z (map fst die)
  /\ fst (unionOfEvents [1; 2; 3]%Z [2; 3; 4]%Z (with_mode false die_space))
     = fst (unionOfEvents [1; 2; 3]%Z [2; 3; 4]%Z (with_mode true die_space)).
Proof.
  assert (Hwf : map_wf die) by reflexivity.
  assert (Hc : construct die = Return die_space) by reflexivity.
  assert (HA : set_wf [1; 2; 3]%Z) by reflexivity.
  assert (HB : set_wf [2; 3; 4]%Z) by reflexivity.
  assert (HiA : incl [1; 2; 3]%Z (map fst die))
    by (apply all_known_incl; reflexivity).
  assert (HiB : incl [2; 3; 4]%Z (map fst die))
    by (apply all_known_incl; reflexivity).
  repeat (split; [assumption|]).
  pose proof (mode_is_irrelevant_without_foreign_outcomes
                Hwf Hc HA HB HiA HiB) as Hthm.
  cbv zeta in Hthm. exact (proj1 (proj2 (proj2 Hthm))).
Defined.

Lemma error_kinds_are_told_apart_die :
  fails_with (InvalidDistribution NegativeMass)
    (construct negative_probability)
  /\ fails_with (InvalidDistribution SumMismatch) (construct die_sum_neq_1)
  /\ map_wf die /\ construct die = Return die_space
  /\ set_wf [7]%Z /\ set_wf [3]%Z /\ set_wf (@nil Z)
  /\ fails_with UnknownOutcome
       (fst (conditionalProbability [7]%Z [3]%Z (with_mode false die_space)))
  /\ ~ fails_with ConditionOnZero
         (fst (conditionalProbability [7]%Z [3]%Z
                 (with_mode false die_space)))
  /\ fails_with ConditionOnZero
       (fst (conditionalProbability [3]%Z [] (with_mode false die_space)))
  /\ ~ fails_with UnknownOutcome
         (fst (conditionalProbability [3]%Z [] (with_mode false die_space))).
Proof.
  assert (Hwf : map_wf die) by reflexivity.
  assert (Hc : construct die = Return die_space) by reflexivity.
  assert (H7 : set_wf [7]%Z) by reflexivity.
  assert (H3 : set_wf [3]%Z) by reflexivity.
  assert (H0 : set_wf (@nil Z)) by reflexivity.
  pose proof (proj1 (@error_kinds_are_told_apart string _)
                negative_probability) as Hneg.
  pose proof (proj1 (@error_kinds_are_told_apart Z _) die_sum_neq_1) as Hsum.
  pose proof (proj1 (proj2 (@error_kinds_are_told_apart Z _))
                die die_space false [7]%Z [3]%Z Hwf Hc H7 H3) as Hu.
  pose proof (proj1 (proj2 (@error_kinds_are_told_apart Z _))
                die die_space false [3]%Z [] Hwf Hc H3 H0) as Hz.
  cbv zeta in Hu, Hz.
  destruct Hneg as [Hneg _]. destruct Hsum as [_ [Hsum _]].
  destruct Hu as [Hu [Hu' _]]. destruct Hz as [Hz' [Hz _]].
  assert (F7 : foreign die [7]%Z).
  { exists 7%Z. split; [simpl; tauto|]. simpl. intros Hin.
    repeat (destruct Hin as [Hin|Hin]; [discriminate|]). exact Hin. }
  assert (I3 : incl [3]%Z (map fst die)).
  { intros o Ho; simpl in Ho |- *; tauto. }
  assert (I0 : incl (@nil Z) (map fst die)) by (intros o []).
  refine (conj (proj2 Hneg eq_refl) (conj (proj2 Hsum (conj eq_refl eq_refl))
    (conj Hwf (conj Hc (conj H7 (conj H3 (conj H0
      (conj (proj2 Hu (conj eq_refl (or_introl F7)))
        (conj _ (conj (proj2 Hz (conj (or_intror (conj I3 I0)) eq_refl))
          _)))))))))).
  - intros F. apply Hu' in F. destruct F as [_ F]. discriminate F.
  - intros F. apply Hz' in F. destruct F as [_ [F|F]];
      apply all_known_foreign in F; discriminate F.
Defined.

Lemma union_and_intersection_commute_die :
  map_wf die /\ construct die = Return die_space
  /\ set_wf [1; 2; 3]%Z /\ set_wf [2; 3; 4]%Z
  /\ unionOfEvents [1; 2; 3]%Z [2; 3; 4]%Z (with_mode false die_space)
     = unionOfEvents [2; 3; 4]%Z [1; 2; 3]%Z (with_mode false die_space).
Proof.
  assert (Hwf : map_wf die) by reflexivity.
  assert (Hc : construct die = Return die_space) by reflexivity.
  assert (HA : set_wf [1; 2; 3]%Z) by reflexivity.
  assert (HB : set_wf [2; 3; 4]%Z) by reflexivity.
  repeat (split; [assumption|]).
  pose proof (union_and_intersection_commute false Hwf Hc HA HB) as Hthm.
  cbv zeta in Hthm. exact (proj1 (proj2 (proj2 Hthm))).
Defined.

Lemma probabilityOfSet_monotone_die :
  map_wf die /\ construct die = Return die_space /\ no_nan die
  /\ set_wf [4; 5]%Z /\ set_wf [4; 5; 6]%Z /\ incl [4; 5]%Z [4; 5; 6]%Z
  /\ (0x1.5555555555555p-2 <=? 0x1p-1) = true.
Proof.
  assert (Hwf : map_wf die) by reflexivity.
  assert (Hc : construct die = Return die_space) by reflexivity.
  assert (Hn : no_nan die) by (repeat constructor).
  assert (HA : set_wf [4; 5]%Z) by reflexivity.
  assert (HB : set_wf [4; 5; 6]%Z) by reflexivity.
  assert (Hi : incl [4; 5]%Z [4; 5; 6]%Z).
  { intros o [<-|[<-|[]]]; simpl; tauto. }
  repeat (split; [assumption|]).
  apply (probabilityOfSet_monotone false Hwf Hc Hn HA HB Hi); reflexivity.
Defined.

(** ** The further properties at the die and at other spaces *)

Lemma events_are_the_keys_of_space_die :
  map_wf die /\ construct die = Return die_space
  /\ events die_space = [1; 2; 3; 4; 5; 6]%Z
  /\ List.length (events die_space) = List.length die.
Proof.
  assert (Hwf : map_wf die) by reflexivity.
  assert (Hc : construct die = Return die_space) by reflexivity.
  repeat (split; [assumption|]).
  pose proof (events_are_the_keys_of_space Hwf Hc) as Hthm.
  split; [exact (proj1 Hthm)|exact (proj1 (proj2 (proj2 Hthm)))].
Defined.

Lemma lookup_never_fails_past_isSubset_die :
  let s := after_all [call_setIgnoreUnknown true;
                      call_probabilityOfSet [7]%Z;
                      call_setIgnoreUnknown false] die_space in
  map_wf die /\ construct die = Return die_space /\ set_wf [4; 5]%Z
  /\ fst (isSubset [4; 5]%Z s) = Return tt
  /\ fst (calculator_loop [4; 5]%Z 0 s) = Return (0 + 1 / 6 + 1 / 6).
Proof.
  intros s.
  assert (Hwf : map_wf die) by reflexivity.
  assert (Hc : construct die = Return die_space) by reflexivity.
  assert (HE : set_wf [4; 5]%Z) by reflexivity.
  assert (Hsub : fst (isSubset [4; 5]%Z s) = Return tt) by reflexivity.
  repeat (split; [assumption|]).
  pose proof (lookup_never_fails_past_isSubset
                [call_setIgnoreUnknown true; call_probabilityOfSet [7]%Z;
                 call_setIgnoreUnknown false] 0 Hwf Hc HE Hsub) as Hthm.
  exact (proj1 Hthm).
Defined.

Lemma queries_on_nested_events_die :
  map_wf die /\ construct die = Return die_space
  /\ set_wf [4; 5]%Z /\ set_wf [4; 5; 6]%Z /\ incl [4; 5]%Z [4; 5; 6]%Z
  /\ unionOfEvents [4; 5]%Z [4; 5; 6]%Z (with_mode false die_space)
     = probabilityOfSet [4; 5; 6]%Z (with_mode false die_space).
Proof.
  assert (Hwf : map_wf die) by reflexivity.
  assert (Hc : construct die = Return die_space) by reflexivity.
  assert (HA : set_wf [4; 5]%Z) by reflexivity.
  assert (HB : set_wf [4; 5; 6]%Z) by reflexivity.
  assert (Hi : incl [4; 5]%Z [4; 5; 6]%Z).
  { intros o [<-|[<-|[]]]; simpl; tauto. }
  repeat (split; [assumption|]).
  pose proof (queries_on_nested_events false Hwf Hc HA HB Hi) as Hthm.
  cbv zeta in Hthm. exact (proj1 Hthm).
Defined.

Lemma queries_on_equal_and_empty_events_die :
  map_wf die /\ construct die = Return die_space /\ set_wf [1; 2]%Z
  /\ intersectionOfEvents [1; 2]%Z [1; 2]%Z (with_mode false die_space)
     = probabilityOfSet [1; 2]%Z (with_mode false die_space).
Proof.
  assert (Hwf : map_wf die) by reflexivity.
  assert (Hc : construct die = Return die_space) by reflexivity.
  assert (HA : set_wf [1; 2]%Z) by reflexivity.
  repeat (split; [assumption|]).
  pose proof (queries_on_equal_and_empty_events false Hwf Hc HA) as Hthm.
  cbv zeta in Hthm. exact (proj1 (proj2 Hthm)).
Defined.

Lemma permissive_mode_drops_the_foreign_outcomes_die :
  map_wf die /\ construct die = Return die_space
  /\ set_wf [4; 5; 7]%Z /\ set_wf [4; 5; 6; 7]%Z
  /\ fst (conditionalProbability [4; 5; 7]%Z [4; 5; 6; 7]%Z
            (with_mode true die_space))
     = fst (conditionalProbability (filter (is_key die) [4; 5; 7]%Z)
              (filter (is_key die) [4; 5; 6; 7]%Z)
              (with_mode false die_space)).
Proof.
  assert (Hwf : map_wf die) by reflexivity.
  assert (Hc : construct die = Return die_space) by reflexivity.
  assert (HA : set_wf [4; 5; 7]%Z) by reflexivity.
  assert (HB : set_wf [4; 5; 6; 7]%Z) by reflexivity.
  repeat (split; [assumption|]).
  pose proof (permissive_mode_drops_the_foreign_outcomes Hwf Hc HA HB)
    as Hthm.
  cbv zeta in Hthm. exact (proj2 (proj2 (proj2 (proj2 Hthm)))).
Defined.

Lemma probabilityOfSet_of_one_outcome_die :
  map_wf die /\ construct die = Return die_space /\ In (3%Z, 1 / 6) die
  /\ fst (probabilityOfSet [3%Z] (with_mode false die_space))
     = Return (0 + 1 / 6).
Proof.
  assert (Hwf : map_wf die) by reflexivity.
  assert (Hc : construct die = Return die_space) by reflexivity.
  assert (Hin : In (3%Z, 1 / 6) die) by (simpl; tauto).
  repeat (split; [assumption|]).
  pose proof (probabilityOfSet_of_one_outcome false 3%Z (1 / 6) Hwf Hc Hin)
    as Hthm.
  cbv zeta in Hthm. exact (proj1 Hthm).
Defined.

Lemma construct_with_a_nan_mass_at_nan_mapping :
  In (1%Z, nan) nan_mapping /\ is_nan nan = true
  /\ map_wf nan_mapping /\ construct nan_mapping = Return nan_space
  /\ set_wf [1]%Z /\ In 1%Z [1]%Z /\ incl [1]%Z (map fst nan_mapping)
  /\ set_wf [1; 7]%Z /\ In 1%Z [1; 7]%Z /\ foreign nan_mapping [1; 7]%Z
  /\ is_nan (total_mass nan_mapping) = true
  /\ is_nan (event_mass nan_mapping [1]%Z) = true
  /\ fst (probabilityOfSet [1]%Z (with_mode false nan_space))
     = Return (event_mass nan_mapping [1]%Z)
  /\ fst (probabilityOfSet [1; 7]%Z (with_mode true nan_space))
     = Return (event_mass nan_mapping [1; 7]%Z)
  /\ fst (probabilityOfSet [1; 7]%Z (with_mode false nan_space))
     = Throw unknown_outcome.
Proof.
  assert (Hin : In (1%Z, nan) nan_mapping) by (simpl; tauto).
  assert (Hv : is_nan nan = true) by reflexivity.
  assert (Hwf : map_wf nan_mapping) by reflexivity.
  assert (Hc : construct nan_mapping = Return nan_space) by reflexivity.
  assert (HE : set_wf [1]%Z) by reflexivity.
  assert (HoE : In 1%Z [1]%Z) by (simpl; tauto).
  assert (Hi : incl [1]%Z (map fst nan_mapping)).
  { intros o Ho; simpl in Ho |- *; tauto. }
  assert (HE' : set_wf [1; 7]%Z) by reflexivity.
  assert (HoE' : In 1%Z [1; 7]%Z) by (simpl; tauto).
  assert (Hf : foreign nan_mapping [1; 7]%Z).
  { exists 7%Z. split; [simpl; tauto|]. simpl. intros [E|[]]. discriminate E. }
  pose proof (construct_with_a_nan_mass nan_mapping 1%Z nan Hin Hv) as Hthm.
  destruct Hthm as [_ [HS Hq]].
  pose proof (Hq Hwf nan_space false [1]%Z Hc HE HoE) as Hq1.
  pose proof (Hq Hwf nan_space true [1; 7]%Z Hc HE' HoE') as Hq2.
  pose proof (Hq Hwf nan_space false [1; 7]%Z Hc HE' HoE') as Hq3.
  cbv zeta in Hq1, Hq2, Hq3.
  exact (conj Hin (conj Hv (conj Hwf (conj Hc (conj HE (conj HoE (conj Hi
    (conj HE' (conj HoE' (conj Hf (conj HS (conj (proj1 Hq1)
      (conj (proj1 (proj2 Hq1) (or_intror Hi))
        (conj (proj1 (proj2 Hq2) (or_introl eq_refl))
          (proj1 (proj2 (proj2 Hq3)) eq_refl Hf))))))))))))))).
Defined.

Lemma intersection_event_union_order_die :
  map_wf die /\ construct die = Return die_space /\ no_nan die
  /\ set_wf [1; 2; 3]%Z /\ set_wf [2; 3; 4]%Z
  /\ (incl [1; 2; 3]%Z (map fst die) /\ incl [2; 3; 4]%Z (map fst die))
  /\ exists pI pA pB pU : float,
       fst (intersectionOfEvents [1; 2; 3]%Z [2; 3; 4]%Z
              (with_mode false die_space)) = Return pI
       /\ fst (probabilityOfSet [1; 2; 3]%Z (with_mode false die_space))
          = Return pA
       /\ fst (probabilityOfSet [2; 3; 4]%Z (with_mode false die_space))
          = Return pB
       /\ fst (unionOfEvents [1; 2; 3]%Z [2; 3; 4]%Z
                 (with_mode false die_space)) = Return pU
       /\ (0 <=? pI) = true
       /\ (pI <=? pA) = true /\ (pI <=? pB) = true
       /\ (pA <=? pU) = true /\ (pB <=? pU) = true
       /\ (pU <=? total_mass die) = true.
Proof.
  assert (Hwf : map_wf die) by reflexivity.
  assert (Hc : construct die = Return die_space) by reflexivity.
  assert (Hn : no_nan die) by (repeat constructor).
  assert (HA : set_wf [1; 2; 3]%Z) by reflexivity.
  assert (HB : set_wf [2; 3; 4]%Z) by reflexivity.
  assert (Hi : incl [1; 2; 3]%Z (map fst die) /\ incl [2; 3; 4]%Z (map fst die))
    by (split; apply all_known_incl; reflexivity).
  repeat (split; [assumption|]).
  exact (@intersection_event_union_order Z _ die die_space false _ _
           Hwf Hc Hn HA HB (or_intror Hi)).
Defined.

Lemma complement_is_one_minus_probability_die :
  map_wf die /\ construct die = Return die_space /\ no_nan die
  /\ set_wf [1; 2]%Z /\ incl [1; 2]%Z (map fst die)
  /\ exists p c : float,
       fst (probabilityOfSet [1; 2]%Z (with_mode false die_space)) = Return p
       /\ fst (complementOfEvent [1; 2]%Z (with_mode false die_space))
          = Return c
       /\ c = 1 - p
       /\ is_nan c = false
       /\ (2 * Z.abs (Binary64Signed.rval c + Binary64.fval p
                      - Binary64.fval 1)
           <= Binary64.ulp_one)%Z
       /\ (- Binary64.fval EPSILON <= Binary64Signed.rval c
           <= Binary64.fval 1)%Z
       /\ (0 <=? c) = (p <=? 1)
       /\ (incl (map fst die) [1; 2]%Z ->
           (Z.abs (Binary64Signed.rval c) <= Binary64.fval EPSILON)%Z).
Proof.
  assert (Hwf : map_wf die) by reflexivity.
  assert (Hc : construct die = Return die_space) by reflexivity.
  assert (Hn : no_nan die) by (repeat constructor).
  assert (HE : set_wf [1; 2]%Z) by reflexivity.
  assert (Hi : incl [1; 2]%Z (map fst die))
    by (apply all_known_incl; reflexivity).
  repeat (split; [assumption|]).
  exact (@complement_is_one_minus_probability Z _ die die_space false _
           Hwf Hc Hn HE (or_intror Hi)).
Defined.

Lemma conditional_probability_between_zero_and_one_die :
  let p := (0 + 1 / 6 + 1 / 6) / (0 + 1 / 6 + 1 / 6 + 1 / 6) in
  map_wf die /\ construct die = Return die_space /\ no_nan die
  /\ set_wf [4; 5]%Z /\ set_wf [4; 5; 6]%Z
  /\ fst (conditionalProbability [4; 5]%Z [4; 5; 6]%Z
            (with_mode false die_space)) = Return p
  /\ (0 <=? p) = true /\ (p <=? 1) = true.
Proof.
  intros p.
  assert (Hwf : map_wf die) by reflexivity.
  assert (Hc : construct die = Return die_space) by reflexivity.
  assert (Hn : no_nan die) by (repeat constructor).
  assert (HA : set_wf [4; 5]%Z) by reflexivity.
  assert (HB : set_wf [4; 5; 6]%Z) by reflexivity.
  assert (Hp : fst (conditionalProbability [4; 5]%Z [4; 5; 6]%Z
                      (with_mode false die_space)) = Return p)
    by reflexivity.
  pose proof (@conditional_probability_between_zero_and_one
                Z _ die die_space false _ _ Hwf Hc Hn HA HB p Hp) as Hthm.
  exact (conj Hwf (conj Hc (conj Hn (conj HA (conj HB (conj Hp
           (conj (proj1 Hthm) (proj1 (proj2 Hthm))))))))).
Defined.

Lemma conditioning_on_one_outcome_faint :
  map_wf faint /\ construct faint = Return faint_space /\ no_nan faint
  /\ set_wf [1; 2]%Z /\ In (1%Z, 0x1p-100) faint
  /\ (0x1p-100 =? 0) = false /\ (0x1p-100 <? EPSILON) = true
  /\ In 1%Z [1; 2]%Z
  /\ fst (conditionalProbability [1; 2]%Z [1%Z] (with_mode false faint_space))
     = Return 1.
Proof.
  assert (Hwf : map_wf faint) by reflexivity.
  assert (Hc : construct faint = Return faint_space) by reflexivity.
  assert (Hn : no_nan faint) by (repeat constructor).
  assert (HA : set_wf [1; 2]%Z) by reflexivity.
  assert (Hin : In (1%Z, 0x1p-100) faint) by (simpl; tauto).
  assert (Hv : (0x1p-100 =? 0) = false) by reflexivity.
  assert (Hsmall : (0x1p-100 <? EPSILON) = true) by reflexivity.
  assert (HoA : In 1%Z [1; 2]%Z) by (simpl; tauto).
  assert (Hi : incl [1; 2]%Z (map fst faint))
    by (apply all_known_incl; reflexivity).
  repeat (split; [assumption|]).
  pose proof (@conditioning_on_one_outcome Z _ faint faint_space false
                [1; 2]%Z 1%Z 0x1p-100 Hwf Hc Hn HA Hin Hv (or_intror Hi))
    as Hthm.
  cbv zeta in Hthm. exact (proj1 Hthm HoA).
Defined.

Lemma conditional_times_condition_die :
  let p := (0 + 1 / 6 + 1 / 6) / (0 + 1 / 6 + 1 / 6 + 1 / 6) in
  map_wf die /\ construct die = Return die_space /\ no_nan die
  /\ set_wf [4; 5]%Z /\ set_wf [4; 5; 6]%Z
  /\ fst (conditionalProbability [4; 5]%Z [4; 5; 6]%Z
            (with_mode false die_space)) = Return p
  /\ exists pB pI : float,
       fst (probabilityOfSet [4; 5; 6]%Z (with_mode false die_space))
       = Return pB
       /\ fst (intersectionOfEvents [4; 5]%Z [4; 5; 6]%Z
                 (with_mode false die_space)) = Return pI
       /\ (pB =? 0) = false
       /\ p = pI / pB
       /\ (2 ^ 51 * Z.abs (Binary64.fval p * Binary64.fval pB
                           - Binary64.fval pI * 2 ^ 1074)
           <= 2 ^ 2148)%Z.
Proof.
  intros p.
  assert (Hwf : map_wf die) by reflexivity.
  assert (Hc : construct die = Return die_space) by reflexivity.
  assert (Hn : no_nan die) by (repeat constructor).
  assert (HA : set_wf [4; 5]%Z) by reflexivity.
  assert (HB : set_wf [4; 5; 6]%Z) by reflexivity.
  assert (Hp : fst (conditionalProbability [4; 5]%Z [4; 5; 6]%Z
                      (with_mode false die_space)) = Return p)
    by reflexivity.
  pose proof (@conditional_times_condition
                Z _ die die_space false _ _ Hwf Hc Hn HA HB p Hp) as Hthm.
  exact (conj Hwf (conj Hc (conj Hn (conj HA (conj HB (conj Hp Hthm)))))).
Defined.
